(** * neurotrends: the OpenAlex batch-classification pipeline

    A shallow embedding of
    [literature_analysis/neural_recording_scale/classify_openalex_glm.py]
    and the properties of its abstract reconstruction, batch building,
    resume filter, daily cap, rate limiter, retry loop and response parsing.

    Python values are modelled as follows.
    - [int] is [Z]; [str] is [string] (a character is an [ascii], so the
      texts are those with code points below 256).
    - A [list] is a [list]; indexing and slicing with possibly negative
      indices are written out in [Py].
    - A [dict] is an association list in insertion order, the order in
      which Python iterates over it.
    - The [set] of processed ids is a [gset string].
    - A raised exception is the [Raise] case of [result].
    - [time.time()] is a rational number of seconds. [Limiter] and the
      pipeline subtract timestamps exactly; [Rounded] is the limiter with
      the subtraction of doubles as a parameter.

    The environment is a parameter: [json.loads], [str] of an exception
    and the replies of the remote service. Effects are threaded through a
    [World] holding the clock, the limiter's deque and the trace of events.
    The [while True] loop of the limiter takes fuel. The thread pool is run
    one batch after the other; the limiter is also studied under every
    interleaving of its locked region.

    [Search] embeds the script that writes the pipeline's input,
    [literature_analysis/neural_recording_scale/openalex_single_neuron_search.py]:
    its paging through the feed and its removal of repeated works. *)

From Stdlib Require Import ZArith QArith Qround Lqa Ascii Sorted.
From stdpp Require Import base tactics option list strings gmap.

Open Scope Z_scope.

(** ** Exceptions and results *)

Inductive exn : Type :=
  | ValueError
  | IndexError
  | KeyError
  | TypeError
  | AttributeError
  | JSONDecodeError
  | RequestException (msg : string)
  | HTTPError (status_code : Z).

Inductive result (A : Type) : Type :=
  | Ok (a : A)
  | Raise (e : exn).
Arguments Ok {A} a.
Arguments Raise {A} e.

#[global] Instance result_ret : MRet result := fun _ a => Ok a.
#[global] Instance result_bind : MBind result := fun _ _ f m =>
  match m with
  | Ok a => f a
  | Raise e => Raise e
  end.

#[global] Instance result_fmap : FMap result := fun _ _ f m =>
  match m with
  | Ok a => Ok (f a)
  | Raise e => Raise e
  end.

Definition is_ok {A} (r : result A) : bool :=
  match r with Ok _ => true | Raise _ => false end.

(** ** Python built-ins used by the script *)

Module Py.

(** [l[i] = x]: a negative index counts from the end; an index outside
    [-len, len) raises [IndexError]. *)
Definition setitem {A} (l : list A) (i : Z) (x : A) : result (list A) :=
  let n := Z.of_nat (length l) in
  if (0 <=? i) && (i <? n) then Ok (<[Z.to_nat i := x]> l)
  else if (- n <=? i) && (i <? 0) then Ok (<[Z.to_nat (i + n) := x]> l)
  else Raise IndexError.

(** A slice bound, as [slice.indices] computes it for a step of 1. *)
Definition clamp (n i : Z) : Z :=
  if i <? 0 then Z.max 0 (i + n) else Z.min i n.

(** [l[lo:hi]], either bound possibly omitted. *)
Definition slice {A} (l : list A) (lo hi : option Z) : list A :=
  let n := Z.of_nat (length l) in
  let a := from_option (clamp n) 0 lo in
  let b := from_option (clamp n) n hi in
  take (Z.to_nat (b - a)) (drop (Z.to_nat a) l).

(** [range(start, stop, step)] for a positive step; each turn moves at
    least one closer to [stop], so [stop - start] turns are enough. *)
Fixpoint range_up (fuel : nat) (i stop step : Z) : list Z :=
  match fuel with
  | O => []
  | S fuel' =>
      if i <? stop then i :: range_up fuel' (i + step) stop step else []
  end.

Fixpoint range_down (fuel : nat) (i stop step : Z) : list Z :=
  match fuel with
  | O => []
  | S fuel' =>
      if stop <? i then i :: range_down fuel' (i + step) stop step else []
  end.

Definition range (start stop step : Z) : result (list Z) :=
  if step =? 0 then Raise ValueError
  else if 0 <? step then Ok (range_up (Z.to_nat (stop - start)) start stop step)
  else Ok (range_down (Z.to_nat (start - stop)) start stop step).

(** [max(xs)] of a sequence of integers; empty raises [ValueError]. *)
Definition max (xs : list Z) : result Z :=
  match xs with
  | [] => Raise ValueError
  | x :: xs' => Ok (foldl Z.max x xs')
  end.

(** [sep.join(ws)]. *)
Fixpoint join (sep : string) (ws : list string) : string :=
  match ws with
  | [] => ""
  | [w] => w
  | w :: ws' => w +:+ sep +:+ join sep ws'
  end.

(** [s.split(c)] for a one-character separator. *)
Fixpoint split (c : ascii) (s : string) : list string :=
  match s with
  | EmptyString => [""]
  | String a s' =>
      if Ascii.eqb a c then "" :: split c s'
      else match split c s' with
           | [] => [String a ""]
           | t :: ts => String a t :: ts
           end
  end.

(** [c in s]. *)
Fixpoint contains_char (c : ascii) (s : string) : bool :=
  match s with
  | EmptyString => false
  | String a s' => Ascii.eqb a c || contains_char c s'
  end.

(** [while l and p(l[0]): l.popleft()]: what is left of [l]. *)
Fixpoint dropwhile {A} (p : A -> bool) (l : list A) : list A :=
  match l with
  | [] => []
  | x :: l' => if p x then dropwhile p l' else l
  end.

End Py.

(** ** [reconstruct_abstract] *)

(** The OpenAlex inverted index: word to the positions it occurs at. *)
Definition InvertedIndex : Type := list (string * list Z).

(** Every position an inverted index lists, in iteration order:
    [pos for positions in inv.values() for pos in positions]. *)
Definition positions (inv : InvertedIndex) : list Z := concat (snd <$> inv).

(** The inner loop [for pos in positions: words[pos] = word]. *)
Fixpoint place_word (word : string) (positions : list Z) (words : list string)
  : result (list string) :=
  match positions with
  | [] => Ok words
  | pos :: rest => words' ← Py.setitem words pos word; place_word word rest words'
  end.

(** The outer loop [for word, positions in inv.items()]. *)
Fixpoint place_all (items : InvertedIndex) (words : list string)
  : result (list string) :=
  match items with
  | [] => Ok words
  | (word, positions) :: rest =>
      words' ← place_word word positions words; place_all rest words'
  end.

(** The list [words] just before the join. *)
Definition abstract_words (inv : InvertedIndex) : result (list string) :=
  max_pos ← Py.max (positions inv);
  place_all inv (replicate (Z.to_nat (max_pos + 1)) "").

(** [inv] is [None] for a missing key or JSON null; [not inv] also holds
    for the empty dict. *)
Definition reconstruct_abstract (inv : option InvertedIndex) : result string :=
  match inv with
  | None | Some [] => Ok ""
  | Some items => words ← abstract_words items; Ok (Py.join " " words)
  end.

(** ** JSON values and [str] helpers *)

(** The Python value [json.loads] returns: [None], [bool], [int], [float],
    [str], [list] or [dict]. The same type stands for the Python values the
    script passes around where it does not fix their type. *)
#[local] Unset Elimination Schemes.
Inductive json : Type :=
  | JNull
  | JBool (b : bool)
  | JInt (z : Z)
  | JFloat (q : Q)
  | JStr (s : string)
  | JArr (items : list json)
  | JObj (members : list (string * json)).
#[local] Set Elimination Schemes.

(** [isinstance(obj, list)], giving the list. *)
Definition as_list (o : option json) : option (list json) :=
  match o with
  | Some (JArr items) => Some items
  | _ => None
  end.

(** Truth value of a Python value, as [or] and [if] test it. *)
Definition truthy (v : json) : bool :=
  match v with
  | JNull => false
  | JBool b => b
  | JInt z => negb (z =? 0)
  | JFloat q => negb (Qeq_bool q 0)
  | JStr s => negb (String.eqb s "")
  | JArr items => match items with [] => false | _ => true end
  | JObj members => match members with [] => false | _ => true end
  end.

Module Str.

(** [c.isspace()] for a code point below 256. *)
Definition is_space (c : ascii) : bool :=
  let n := nat_of_ascii c in
  ((9 <=? n) && (n <=? 13) || (28 <=? n) && (n <=? 32)
   || (n =? 133) || (n =? 160))%nat.

Fixpoint lstrip (s : string) : string :=
  match s with
  | EmptyString => ""
  | String a s' => if is_space a then lstrip s' else s
  end.

Fixpoint rstrip (s : string) : string :=
  match s with
  | EmptyString => ""
  | String a s' =>
      match rstrip s' with
      | EmptyString => if is_space a then "" else String a ""
      | t => String a t
      end
  end.

(** [s.strip()]. *)
Definition strip (s : string) : string := rstrip (lstrip s).

Fixpoint find_from (c : ascii) (s : string) (i : Z) : Z :=
  match s with
  | EmptyString => -1
  | String a s' => if Ascii.eqb a c then i else find_from c s' (i + 1)
  end.

(** [s.find(c)]: the least index of [c], or [-1]. *)
Definition find (c : ascii) (s : string) : Z := find_from c s 0.

Fixpoint rfind_from (c : ascii) (s : string) (i last : Z) : Z :=
  match s with
  | EmptyString => last
  | String a s' =>
      rfind_from c s' (i + 1) (if Ascii.eqb a c then i else last)
  end.

(** [s.rfind(c)]: the greatest index of [c], or [-1]. *)
Definition rfind (c : ascii) (s : string) : Z := rfind_from c s 0 (-1).

(** [s[lo:hi]]. *)
Definition slice (s : string) (lo hi : Z) : string :=
  String.string_of_list_ascii
    (Py.slice (String.list_ascii_of_string s) (Some lo) (Some hi)).

End Str.

(** ** Data model *)

Record Authorship := { display_name : option string }.

(** A decoded input line: the keys of the OpenAlex object the script reads. *)
Record Row := {
  row_id : string;
  row_title : string;
  row_authorships : list Authorship;
  row_publication_year : option Z;
  row_year : option Z;
  row_abstract_inverted_index : option InvertedIndex
}.

Inductive Year : Type :=
  | YearInt (y : Z)
  | YearNA.

Record PaperRecord := {
  id : string;
  title : string;
  first_author : string;
  year : Year;
  abstract : string
}.

(** A batch as the script holds it: [(start_index, items)]. *)
Definition Batch : Type := Z * list PaperRecord.

Record ClassificationResult := {
  batch_start_index : Z;
  input_ids : list string;
  model_raw : json;
  model_parsed : option (list json)
}.

(** Command-line arguments. *)
Record Args := {
  arg_max : option Z;
  arg_start : Z;
  arg_batch_size : Z;
  arg_concurrency : Z;
  arg_calls_per_minute : Z;
  arg_daily_call_cap : Z;
  arg_max_retries : Z;
  arg_resume : bool
}.

(** What [requests.post] gives: an exception of the transport, or a
    response with its status code and body. *)
Inductive PostReply : Type :=
  | PostRaises (msg : string)
  | PostResponse (status_code : Z) (body : string).

(** What a run does to the outside, in order. *)
Inductive Event : Type :=
  | EvSlot (now : Q)
  | EvSleep (secs : Q)
  | EvPost (batch_index attempt : Z)
  | EvWrite (record : ClassificationResult).

(** The clock, the limiter's deque, and the trace of effects. The clock
    moves by the time slept; time spent elsewhere is left out. *)
Record World := {
  clock : Q;
  call_timestamps : list Q;
  events : list Event
}.

Definition initial_world (t0 : Q) : World :=
  {| clock := t0; call_timestamps := []; events := [] |}.

Definition set_call_timestamps (q : list Q) (w : World) : World :=
  {| clock := clock w; call_timestamps := q; events := events w |}.

Definition emit (e : Event) (w : World) : World :=
  {| clock := clock w; call_timestamps := call_timestamps w;
     events := events w ++ [e] |}.

(** [time.sleep(secs)]. *)
Definition sleep (secs : Q) (w : World) : World :=
  emit (EvSleep secs)
    {| clock := (clock w + secs)%Q; call_timestamps := call_timestamps w;
       events := events w |}.

(** The record of a write event, and the batch and attempt of a post. *)
Definition written (e : Event) : option ClassificationResult :=
  match e with
  | EvWrite r => Some r
  | _ => None
  end.

Definition posted (e : Event) : option (Z * Z) :=
  match e with
  | EvPost b k => Some (b, k)
  | _ => None
  end.

(** The lines written to the output file, oldest first. *)
Definition out_f (w : World) : list ClassificationResult :=
  omap written (events w).

(** The requests that went out, oldest first. *)
Definition posts (w : World) : list (Z * Z) := omap posted (events w).

(** ** The rate limiter *)

Module Limiter.

(** [now - t > 60], with the difference taken exactly; [Rounded.expired]
    takes it as the machine does. *)
Definition expired (now t : Q) : bool := negb (Qle_bool (now - t) 60).

(** The region under [limiter_lock]: drop the timestamps older than 60
    seconds from the left, then admit if fewer than the cap remain. *)
Definition locked_region (calls_per_minute : Z) (now : Q) (q : list Q)
  : bool * list Q :=
  let q' := Py.dropwhile (expired now) q in
  if Z.of_nat (length q') <? calls_per_minute
  then (true, q' ++ [now])
  else (false, q').

(** Any interleaving of the workers is a sequence of passes through the
    locked region, at the times [time.time()] returned there. [run]
    gives the timestamps admitted and the final deque. *)
Fixpoint run (calls_per_minute : Z) (polls : list Q) (q : list Q)
  : list Q * list Q :=
  match polls with
  | [] => ([], q)
  | now :: rest =>
      let '(ok, q') := locked_region calls_per_minute now q in
      let '(adm, qf) := run calls_per_minute rest q' in
      (if ok then now :: adm else adm, qf)
  end.

(** The admitted timestamps of a run from the empty deque. *)
Definition admitted (calls_per_minute : Z) (polls : list Q) : list Q :=
  fst (run calls_per_minute polls []).

(** The number of timestamps of [l] in the closed window [[t, t + 60]]. *)
Definition in_window (t : Q) (l : list Q) : nat :=
  length (List.filter (fun a => Qle_bool t a && Qle_bool a (t + 60)) l).

End Limiter.

(** ** The script, over its environment *)

Section Pipeline.

(** [json.loads]; [None] when it raises. *)
Variable json_loads : string -> option json.
(** [str(e)] of a caught exception. *)
Variable str_exn : exn -> string.
(** The remote service: the reply to the [n]-th [requests.post] of the
    given attempt on the batch with the given start index. *)
Variable post : Z -> Z -> nat -> PostReply.

Variable args : Args.

(** *** [parse_model_json] *)

Definition parse_model_json (text : string) : option (list json) :=
  let text := Str.strip text in
  match as_list (json_loads text) with
  | Some obj => Some obj
  | None =>
      let start := Str.find "[" text in
      let end_ := Str.rfind "]" text in
      if negb (start =? -1) && negb (end_ =? -1) && (start <? end_)
      then as_list (json_loads (Str.slice text start (end_ + 1)))
      else None
  end.

(** The call as [process_batch] makes it, on whatever value
    [call_openrouter] returned: [text.strip()] raises on a value that is
    not a [str]. *)
Definition parse_model_json_value (v : json) : result (option (list json)) :=
  match v with
  | JStr text => Ok (parse_model_json text)
  | _ => Raise AttributeError
  end.

(** *** [call_openrouter] *)

Definition raise_for_status (status_code : Z) : result unit :=
  if (400 <=? status_code) && (status_code <? 600)
  then Raise (HTTPError status_code) else Ok ().

(** [d[key]] on a decoded value; the keys of a dict are distinct. *)
Definition getitem_key (v : json) (key : string) : result json :=
  match v with
  | JObj members =>
      match List.find (fun kv => String.eqb (fst kv) key) members with
      | Some kv => Ok (snd kv)
      | None => Raise KeyError
      end
  | _ => Raise TypeError
  end.

(** [v[0]]. *)
Definition getitem_first (v : json) : result json :=
  match v with
  | JArr (x :: _) => Ok x
  | JArr [] => Raise IndexError
  | JStr (String c _) => Ok (JStr (String c ""))
  | JStr EmptyString => Raise IndexError
  | JObj _ => Raise KeyError
  | _ => Raise TypeError
  end.

(** From [resp.raise_for_status()] to the [return]. *)
Definition read_response (status_code : Z) (body : string) : result json :=
  _ ← raise_for_status status_code;
  data ← from_option Ok (Raise JSONDecodeError) (json_loads body);
  choices ← getitem_key data "choices";
  choice ← getitem_first choices;
  message ← getitem_key choice "message";
  getitem_key message "content".

(** The request carries the prompt and the model's options; the reply is
    the environment's, so they are not modelled. *)
Definition call_openrouter (batch_index attempt : Z) (w : World)
  : result json * World :=
  let w := emit (EvPost batch_index attempt) w in
  match post batch_index attempt 0 with
  | PostRaises msg => (Raise (RequestException msg), w)
  | PostResponse status_code body =>
      if status_code =? 429 then
        let w := sleep 5 w in
        let w := emit (EvPost batch_index attempt) w in
        match post batch_index attempt 1 with
        | PostRaises msg => (Raise (RequestException msg), w)
        | PostResponse status_code body => (read_response status_code body, w)
        end
      else (read_response status_code body, w)
  end.

(** *** [wait_for_slot] *)

(** [fuel] bounds the turns of the [while True] loop; [None] is a caller
    still waiting after that many. *)
Fixpoint wait_for_slot (fuel : nat) (w : World) : option World :=
  match fuel with
  | O => None
  | S fuel' =>
      let now := clock w in
      let '(ok, q) :=
        Limiter.locked_region (arg_calls_per_minute args) now
                              (call_timestamps w) in
      let w := set_call_timestamps q w in
      if ok then Some (emit (EvSlot now) w)
      else wait_for_slot fuel' (sleep (1 # 5) w)
  end.

(** *** [process_batch] *)

(** The three locals of the retry loop. *)
Record Locals := {
  response_text : json;
  parsed : option (list json);
  error_msg : option string
}.

Definition initial_locals : Locals :=
  {| response_text := JNull; parsed := None; error_msg := None |}.

(** One turn of the loop after [wait_for_slot()]: the flag says whether it
    left by [break]. *)
Definition attempt_once (batch_index attempt : Z) (st : Locals) (w : World)
  : bool * Locals * World :=
  let '(r, w) := call_openrouter batch_index attempt w in
  let backoff := sleep (1 + inject_Z attempt) in
  match r with
  | Raise e =>
      (false,
       {| response_text := response_text st; parsed := parsed st;
          error_msg := Some ("exception: " +:+ str_exn e) |},
       backoff w)
  | Ok text =>
      match parse_model_json_value text with
      | Raise e =>
          (false,
           {| response_text := text; parsed := parsed st;
              error_msg := Some ("exception: " +:+ str_exn e) |},
           backoff w)
      | Ok None =>
          (false,
           {| response_text := text; parsed := None;
              error_msg := Some "parse_error" |},
           backoff w)
      | Ok (Some obj) =>
          (true,
           {| response_text := text; parsed := Some obj;
              error_msg := error_msg st |},
           w)
      end
  end.

(** [for attempt in attempts: ...]. *)
Fixpoint retry_loop (fuel : nat) (attempts : list Z) (batch_index : Z)
    (st : Locals) (w : World) : option (Locals * World) :=
  match attempts with
  | [] => Some (st, w)
  | attempt :: rest =>
      w ← wait_for_slot fuel w;
      let '(stop, st, w) := attempt_once batch_index attempt st w in
      if stop then Some (st, w) else retry_loop fuel rest batch_index st w
  end.

(** [range(1, max_retries + 1)]. *)
Definition attempt_numbers : list Z :=
  let stop := arg_max_retries args + 1 in
  Py.range_up (Z.to_nat (stop - 1)) 1 stop 1.

(** The record built after the loop, with
    [if parsed is None and error_msg: response_text = response_text or error_msg]. *)
Definition make_record (batch : Batch) (st : Locals) : ClassificationResult :=
  let raw :=
    match parsed st, error_msg st with
    | None, Some m =>
        if negb (String.eqb m "")
        then (if truthy (response_text st) then response_text st else JStr m)
        else response_text st
    | _, _ => response_text st
    end in
  {| batch_start_index := fst batch;
     input_ids := id <$> snd batch;
     model_raw := raw;
     model_parsed := parsed st |}.

(** Returns [len(batch_data)]. *)
Definition process_batch (fuel : nat) (batch : Batch) (w : World)
  : option (Z * World) :=
  '(st, w) ← retry_loop fuel attempt_numbers (fst batch) initial_locals w;
  Some (Z.of_nat (length (snd batch)), emit (EvWrite (make_record batch st)) w).

(** *** [main] *)

(** The two [if args.start] / [if args.max] slices. *)
Definition load_lines {A} (lines : list A) : list A :=
  let lines :=
    if negb (arg_start args =? 0)
    then Py.slice lines (Some (arg_start args)) None else lines in
  match arg_max args with
  | Some m => if negb (m =? 0) then Py.slice lines None (Some m) else lines
  | None => lines
  end.

(** The ids one line of an existing output file adds to [processed_ids];
    a line that fails to decode, or fails midway, is skipped from there.
    Only ids that are strings are kept: no other value equals the id of a
    [PaperRecord]. *)
Fixpoint hashable_prefix (items : list json) : list string :=
  match items with
  | [] => []
  | JStr s :: rest => s :: hashable_prefix rest
  | JArr _ :: _ | JObj _ :: _ => []
  | _ :: rest => hashable_prefix rest
  end.

Fixpoint chars (s : string) : list string :=
  match s with
  | EmptyString => []
  | String c s' => String c "" :: chars s'
  end.

Definition ids_of_line (line : string) : list string :=
  match json_loads line with
  | Some (JObj members) =>
      match List.find (fun kv => String.eqb (fst kv) "input_ids") members with
      | None => []
      | Some (_, JArr items) => hashable_prefix items
      | Some (_, JStr s) => chars s
      | Some (_, JObj kvs) => fst <$> kvs
      | Some _ => []
      end
  | _ => []
  end.

(** [output] is [None] when the output file does not exist. *)
Definition scan_processed_ids (output : option (list string)) : gset string :=
  match output with
  | Some lines =>
      if arg_resume args then list_to_set (concat (ids_of_line <$> lines))
      else ∅
  | None => ∅
  end.

Definition truthy_year (y : option Z) : option Z :=
  match y with
  | Some v => if v =? 0 then None else Some v
  | None => None
  end.

(** The body of the inner loop of batch building. *)
Definition paper_of_row (obj : Row) : result PaperRecord :=
  abstract ← reconstruct_abstract (row_abstract_inverted_index obj);
  let first_author :=
    match row_authorships obj with
    | a :: _ => default "" (display_name a)
    | [] => ""
    end in
  let pub_year :=
    match truthy_year (row_publication_year obj) with
    | Some y => YearInt y
    | None =>
        match truthy_year (row_year obj) with
        | Some y => YearInt y
        | None => YearNA
        end
    end in
  Ok {| id := row_id obj; title := row_title obj;
        first_author := first_author; year := pub_year;
        abstract := abstract |}.

Fixpoint traverse {A B} (f : A -> result B) (l : list A) : result (list B) :=
  match l with
  | [] => Ok []
  | x :: l' => y ← f x; ys ← traverse f l'; Ok (y :: ys)
  end.

(** [for i in range(0, len(lines), args.batch_size): ...]. *)
Definition build_batches (lines : list Row) : result (list Batch) :=
  let size := arg_batch_size args in
  starts ← Py.range 0 (Z.of_nat (length lines)) size;
  traverse
    (fun i =>
       batch ← traverse paper_of_row (Py.slice lines (Some i) (Some (i + size)));
       Ok (i + arg_start args, batch))
    starts.

(** [all(b["id"] in processed_ids for b in batch)]. *)
Definition fully_processed (processed_ids : gset string) (batch : Batch) : bool :=
  forallb (fun b => bool_decide (id b ∈ processed_ids)) (snd batch).

(** The filter under [if processed_ids:]. *)
Definition skip_processed (processed_ids : gset string) (batches : list Batch)
  : list Batch :=
  if bool_decide (processed_ids ≠ ∅)
  then List.filter (fun b => negb (fully_processed processed_ids b)) batches
  else batches.

(** The pool, run one batch after the other in submission order. *)
Fixpoint dispatch (fuel : nat) (batches : list Batch) (total_inputs : Z)
    (w : World) : option (Z * World) :=
  match batches with
  | [] => Some (total_inputs, w)
  | batch :: rest =>
      '(n, w) ← process_batch fuel batch w;
      dispatch fuel rest (total_inputs + n) w
  end.

Inductive Outcome : Type :=
  | ExitMissingKey
  | ExitCapExceeded (planned_calls cap : Z)
  | Uncaught (e : exn)
  | Finished (total_inputs : Z) (batches : nat).

(** [api_key] is [os.getenv], [lines] the decoded input file, [output] the
    lines of the output file if it exists, [t0] the time at the start.
    The result is how the run ends and the world it leaves. *)
Definition main (fuel : nat) (api_key : option string) (lines : list Row)
    (output : option (list string)) (t0 : Q) : option (Outcome * World) :=
  let w := initial_world t0 in
  match api_key with
  | None | Some EmptyString => Some (ExitMissingKey, w)
  | Some _ =>
      let lines := load_lines lines in
      let processed_ids := scan_processed_ids output in
      match build_batches lines with
      | Raise e => Some (Uncaught e, w)
      | Ok batches =>
          let batches := skip_processed processed_ids batches in
          let planned_calls := Z.of_nat (length batches) in
          if arg_daily_call_cap args <? planned_calls
          then Some (ExitCapExceeded planned_calls (arg_daily_call_cap args), w)
          else if arg_concurrency args <=? 0 then Some (Uncaught ValueError, w)
          else
            '(total_inputs, w) ← dispatch fuel batches 0 w;
            Some (Finished total_inputs (length batches), w)
      end
  end.

End Pipeline.

(** ** The limiter on doubles

    [Limiter.expired] subtracts exactly, and so does the pipeline above.
    The script subtracts doubles: [time.time()] returns a double, and
    [now - call_timestamps[0]] is the double nearest to the difference.
    Here that subtraction is the parameter [fsub], on doubles seen as the
    rationals they are, and the limiter is written once more over it. With
    [Qminus] for [fsub] it is [Limiter] and [wait_for_slot] again. *)

Module Rounded.

Section Machine.

(** [now - t] as the machine computes it. *)
Variable fsub : Q -> Q -> Q.

(** [now - t > 60]. *)
Definition expired (now t : Q) : bool := negb (Qle_bool (fsub now t) 60).

(** The region under [limiter_lock]. *)
Definition locked_region (calls_per_minute : Z) (now : Q) (q : list Q)
  : bool * list Q :=
  let q' := Py.dropwhile (expired now) q in
  if Z.of_nat (length q') <? calls_per_minute
  then (true, q' ++ [now])
  else (false, q').

(** The passes of any interleaving of the workers, in the order they take
    the lock: the timestamps admitted and the final deque. *)
Fixpoint run (calls_per_minute : Z) (polls : list Q) (q : list Q)
  : list Q * list Q :=
  match polls with
  | [] => ([], q)
  | now :: rest =>
      let '(ok, q') := locked_region calls_per_minute now q in
      let '(adm, qf) := run calls_per_minute rest q' in
      (if ok then now :: adm else adm, qf)
  end.

Definition admitted (calls_per_minute : Z) (polls : list Q) : list Q :=
  fst (run calls_per_minute polls []).

Variable args : Args.

(** [wait_for_slot] of one worker while no other takes the lock; [fuel]
    bounds the turns of the [while True] loop. *)
Fixpoint wait_for_slot (fuel : nat) (w : World) : option World :=
  match fuel with
  | O => None
  | S fuel' =>
      let now := clock w in
      let '(ok, q) :=
        locked_region (arg_calls_per_minute args) now (call_timestamps w) in
      let w := set_call_timestamps q w in
      if ok then Some (emit (EvSlot now) w)
      else wait_for_slot fuel' (sleep (1 # 5) w)
  end.

End Machine.

(** The integer nearest to [y], the even one of two. *)
Definition round_even (y : Q) : Z :=
  let f := Qfloor y in
  match (y - inject_Z f ?= 1 # 2)%Q with
  | Lt => f
  | Gt => f + 1
  | Eq => if Z.even f then f else f + 1
  end.

(** The doubles from 32 to 64 are the multiples of [2^-47]: a difference
    in that range is rounded to the nearest of them, the even one of
    two. This is the subtraction of doubles wherever the comparison with
    60 can depend on the rounding. *)
Definition fsub47 (a b : Q) : Q :=
  round_even ((a - b) * inject_Z (2 ^ 47)) # (2 ^ 47).

End Rounded.

(** ** A small JSON reader

    [json.loads] is a parameter of the development. To run the definitions
    on sample texts, [TinyJson.loads] reads a fragment of JSON: [null],
    [true], [false], integers, strings without escapes, arrays and objects. *)

Module TinyJson.

Definition ws (c : ascii) : bool :=
  match c with
  | " " | "009" | "010" | "013" => true
  | _ => false
  end%char.

Definition digit (c : ascii) : option Z :=
  let n := Z.of_nat (nat_of_ascii c) in
  if (48 <=? n) && (n <=? 57) then Some (n - 48) else None.

Fixpoint digits (acc : Z) (s : list ascii) : Z * list ascii :=
  match s with
  | c :: s' =>
      match digit c with
      | Some d => digits (10 * acc + d) s'
      | None => (acc, s)
      end
  | [] => (acc, s)
  end.

(** The characters up to the closing quote. *)
Fixpoint until_quote (s : list ascii) : option (string * list ascii) :=
  match s with
  | [] => None
  | c :: s' =>
      if Ascii.eqb c "034" then Some ("", s')
      else if Ascii.eqb c "\" then None
      else '(t, r) ← until_quote s'; Some (String c t, r)
  end.

(** [item (, item)* close], given the reader of one item. *)
Fixpoint items {A} (n : nat) (close : ascii)
    (item : list ascii -> option (A * list ascii)) (s : list ascii)
  : option (list A * list ascii) :=
  match n with
  | O => None
  | S n' =>
      '(v, r) ← item s;
      match Py.dropwhile ws r with
      | c :: r' =>
          if Ascii.eqb c "," then
            '(vs, r'') ← items n' close item r'; Some (v :: vs, r'')
          else if Ascii.eqb c close then Some ([v], r')
          else None
      | [] => None
      end
  end.

Definition member (value : list ascii -> option (json * list ascii))
    (s : list ascii) : option ((string * json) * list ascii) :=
  match Py.dropwhile ws s with
  | c :: r =>
      if Ascii.eqb c "034" then
        '(k, r) ← until_quote r;
        match Py.dropwhile ws r with
        | c' :: r' =>
            if Ascii.eqb c' ":" then '(v, r'') ← value r'; Some ((k, v), r'')
            else None
        | [] => None
        end
      else None
  | [] => None
  end.

Fixpoint value (fuel : nat) (s : list ascii) : option (json * list ascii) :=
  match fuel with
  | O => None
  | S fuel' =>
      match Py.dropwhile ws s with
      | "n" :: "u" :: "l" :: "l" :: r => Some (JNull, r)
      | "t" :: "r" :: "u" :: "e" :: r => Some (JBool true, r)
      | "f" :: "a" :: "l" :: "s" :: "e" :: r => Some (JBool false, r)
      | "034" :: r => '(t, r') ← until_quote r; Some (JStr t, r')
      | "[" :: r =>
          match Py.dropwhile ws r with
          | "]" :: r' => Some (JArr [], r')
          | _ => '(vs, r') ← items fuel' "]" (value fuel') r; Some (JArr vs, r')
          end
      | "{" :: r =>
          match Py.dropwhile ws r with
          | "}" :: r' => Some (JObj [], r')
          | _ =>
              '(kvs, r') ← items fuel' "}" (member (value fuel')) r;
              Some (JObj kvs, r')
          end
      | "-" :: c :: r =>
          match digit c with
          | Some _ => let '(z, r') := digits 0 (c :: r) in Some (JInt (- z), r')
          | None => None
          end
      | c :: r =>
          match digit c with
          | Some _ => let '(z, r') := digits 0 (c :: r) in Some (JInt z, r')
          | None => None
          end
      | [] => None
      end%char
  end.

Definition loads (s : string) : option json :=
  let cs := String.list_ascii_of_string s in
  '(v, r) ← value (S (length cs)) cs;
  match Py.dropwhile ws r with
  | [] => Some v
  | _ => None
  end.

End TinyJson.

(** ** Vocabulary of the statements *)

(** *** Abstract reconstruction *)

(** The word the loops leave at index [i]: of the words that list [i], the
    one that comes last in the dict. *)
Fixpoint last_writer (inv : InvertedIndex) (i : Z) : option string :=
  match inv with
  | [] => None
  | (word, ps) :: rest =>
      match last_writer rest i with
      | Some w => Some w
      | None => if bool_decide (i ∈ ps) then Some word else None
      end
  end.

(** The indices a list of length [n] accepts in [l[p] = x]. *)
Definition accepted (n p : Z) : Prop := - n <= p < n.

(** [m] is the greatest element of [xs]. *)
Definition is_max (m : Z) (xs : list Z) : Prop :=
  m ∈ xs ∧ Forall (fun x => x <= m) xs.

(** No position is listed under two different words. *)
Definition positions_disjoint (inv : InvertedIndex) : Prop :=
  ∀ w1 ps1 w2 ps2 p,
    (w1, ps1) ∈ inv → (w2, ps2) ∈ inv → p ∈ ps1 → p ∈ ps2 → w1 = w2.

(** The tokens of a reconstructed abstract: [s.split(" ")]. *)
Definition tokens (s : string) : list string := Py.split " " s.

(** [s] has each word of [inv] at every position the word lists. *)
Definition places_each_word (inv : InvertedIndex) (s : string) : Prop :=
  ∀ word ps p,
    (word, ps) ∈ inv → p ∈ ps → tokens s !! Z.to_nat p = Some word.

(** *** Batches *)

(** [ceil(n / b)] for a positive [b]. *)
Definition ceil_div (n b : Z) : Z := (n + b - 1) / b.

(** The start index and the size of each batch built. *)
Definition batch_shapes (r : result (list Batch)) : list (Z * nat) :=
  match r with
  | Ok batches => (fun b : Batch => (b.1, length b.2)) <$> batches
  | Raise _ => []
  end.

(** The record written for a batch carries its start index and its ids. *)
Definition record_of (b : Batch) (r : ClassificationResult) : Prop :=
  batch_start_index r = b.1 ∧ input_ids r = id <$> b.2.

(** *** The rate limiter *)

(** The timestamps of a deque within the trailing window of [now]:
    those with [now - t <= 60]. *)
Definition trailing (now : Q) (q : list Q) : list Q :=
  List.filter (fun t => Qle_bool (now - t) 60) q.

(** No timestamp of the deque lies in the future. *)
Definition deque_past (w : World) : Prop :=
  Forall (fun t => (t <= clock w)%Q) (call_timestamps w).

(** Events of the limiter alone: it admits, or sleeps and polls again. *)
Definition limiter_event (e : Event) : Prop :=
  match e with
  | EvSlot _ | EvSleep _ => True
  | _ => False
  end.

(** What a return of [wait_for_slot] leaves. *)
Definition slot_granted (w w' : World) : Prop :=
  ∃ wait, events w' = events w ++ wait
          ∧ Forall limiter_event wait
          ∧ deque_past w' ∧ (clock w <= clock w')%Q.

(** Turns of the polling loop that always suffice from a deque with no
    timestamp in the future: after 301 sleeps of a fifth of a second all of
    them are more than 60 seconds old. *)
Definition polls_enough : nat := 302.

(** The times at which slots were granted, in lowest terms. *)
Definition slot_times (w : World) : list Q :=
  omap (fun e => match e with EvSlot t => Some (Qred t) | _ => None end)
       (events w).

(** *** The retry loop *)

Section RetryVocabulary.

Variable json_loads : string -> option json.
Variable str_exn : exn -> string.
Variable post : Z -> Z -> nat -> PostReply.

(** What [call_openrouter] returns or raises at an attempt; the world it
    runs in does not matter. *)
Definition reply (batch_index attempt : Z) : result json :=
  (call_openrouter json_loads post batch_index attempt (initial_world 0)).1.

(** The list an attempt parses, if it succeeds. *)
Definition attempt_parsed (batch_index attempt : Z) : option (list json) :=
  match reply batch_index attempt with
  | Ok v =>
      match parse_model_json_value json_loads v with
      | Ok p => p
      | Raise _ => None
      end
  | Raise _ => None
  end.

Definition attempt_fails (batch_index attempt : Z) : bool :=
  match attempt_parsed batch_index attempt with
  | Some _ => false
  | None => true
  end.

(** The raw response an attempt captures: the value the call returned. *)
Definition captured_raw (batch_index attempt : Z) : option json :=
  match reply batch_index attempt with
  | Ok v => Some v
  | Raise _ => None
  end.

(** The error text a failed attempt leaves. *)
Definition error_text (batch_index attempt : Z) : option string :=
  match reply batch_index attempt with
  | Raise e => Some ("exception: " +:+ str_exn e)
  | Ok v =>
      match parse_model_json_value json_loads v with
      | Raise e => Some ("exception: " +:+ str_exn e)
      | Ok None => Some "parse_error"
      | Ok (Some _) => None
      end
  end.

(** The last raw response captured over the attempts [ks], and the last
    error text. *)
Definition last_captured (batch_index : Z) (ks : list Z) : option json :=
  last (omap (captured_raw batch_index) ks).
Definition last_error (batch_index : Z) (ks : list Z) : option string :=
  last (omap (error_text batch_index) ks).

(** The events of one call: one post, or after a 429 a post, five
    seconds of sleep and a second post. *)
Definition call_events (batch_index attempt : Z) (evs : list Event) : Prop :=
  evs = [EvPost batch_index attempt]
  ∨ evs = [EvPost batch_index attempt; EvSleep 5; EvPost batch_index attempt].

(** The events of attempt [k]: the limiter's until it admits, the
    call's, and after a failure the sleep of [1 + k] seconds. *)
Definition turn_events (batch_index k : Z) (evs : list Event) : Prop :=
  ∃ wait call,
    evs = wait ++ call
          ++ (if attempt_fails batch_index k
              then [EvSleep (1 + inject_Z k)] else [])
    ∧ Forall limiter_event wait
    ∧ call_events batch_index k call.

End RetryVocabulary.

(** The attempt numbers [1, 2, ..., n]. *)
Definition first_attempts (n : nat) : list Z :=
  (fun i : nat => Z.of_nat (S i)) <$> seq 0 n.

(** What [model_raw] holds when every attempt failed, in the words of the
    retry policy: the last raw response captured, unless there is none or
    it is empty, and then the last error text; [None] with no attempt. *)
Definition raw_after_failures (last_raw : option json) (last_err : option string)
  : json :=
  match last_err with
  | None => JNull
  | Some m =>
      match last_raw with
      | Some v => if truthy v then v else JStr m
      | None => JStr m
      end
  end.

(** ** Sample inputs *)

(** The double quote. *)
Definition dq : string := String "034" "".

(** [Here you go: [{"id":1}]]. *)
Definition sample_reply : string :=
  "Here you go: [{" +:+ dq +:+ "id" +:+ dq +:+ ":1}]".

(** The reply of the scenario: [Here you go: [{"id":1,...}]], the dots
    standing for the rest of the object. *)
Definition reply_body (rest : string) : string :=
  "[{" +:+ dq +:+ "id" +:+ dq +:+ ":1," +:+ rest +:+ "}]".
Definition reply_text (rest : string) : string :=
  "Here you go: " +:+ reply_body rest.

(** A rest of the object: ["promising":true]. *)
Definition sample_rest : string := dq +:+ "promising" +:+ dq +:+ ":true".

(** Inverted indexes: of a five-word text; with a position listed twice;
    with a negative position; with a space inside a word. *)
Definition inv_brain : InvertedIndex :=
  [("the", [0; 3]); ("brain", [1]); ("maps", [2]); ("world", [4])].
Definition inv_shared_position : InvertedIndex := [("a", [0]); ("b", [0])].
Definition inv_negative_position : InvertedIndex := [("a", [-1; 2])].
Definition inv_spaced_word : InvertedIndex := [("a b", [0])].

(** The defaults of the command line. *)
Definition default_args : Args :=
  {| arg_max := None; arg_start := 0; arg_batch_size := 10;
     arg_concurrency := 10; arg_calls_per_minute := 15;
     arg_daily_call_cap := 1000; arg_max_retries := 3;
     arg_resume := false |}.

(** The same with [--start] and [--max] set. *)
Definition with_window (start : Z) (max : option Z) (a : Args) : Args :=
  {| arg_max := max; arg_start := start; arg_batch_size := arg_batch_size a;
     arg_concurrency := arg_concurrency a;
     arg_calls_per_minute := arg_calls_per_minute a;
     arg_daily_call_cap := arg_daily_call_cap a;
     arg_max_retries := arg_max_retries a; arg_resume := arg_resume a |}.

(** The defaults with a daily cap of two calls. *)
Definition capped_args : Args :=
  {| arg_max := None; arg_start := 0; arg_batch_size := 10;
     arg_concurrency := 10; arg_calls_per_minute := 15;
     arg_daily_call_cap := 2; arg_max_retries := 3;
     arg_resume := false |}.

(** The defaults with one worker and a cap of one call per minute. *)
Definition one_per_minute : Args :=
  {| arg_max := None; arg_start := 0; arg_batch_size := 10;
     arg_concurrency := 1; arg_calls_per_minute := 1;
     arg_daily_call_cap := 1000; arg_max_retries := 3;
     arg_resume := false |}.

(** A row with the given id, a one-word abstract and nothing else. *)
Definition sample_row (name : string) : Row :=
  {| row_id := name; row_title := ""; row_authorships := [];
     row_publication_year := None; row_year := None;
     row_abstract_inverted_index := Some [("spikes", [0])] |}.

(** 25 input lines, with ids [A] to [Y]. *)
Definition sample_lines : list Row :=
  (fun i => sample_row (String (ascii_of_nat (65 + i)) "")) <$> seq 0 25.

(** Resume sets: the ids of the first ten input lines, and those of the
    first fifteen. *)
Definition ids_A_to_J : gset string :=
  list_to_set (row_id <$> take 10 sample_lines).
Definition ids_A_to_O : gset string :=
  list_to_set (row_id <$> take 15 sample_lines).

(** Polls under a cap of two calls per minute. *)
Definition sample_polls : list Q := [0; 20; 40; 60; 61; 80; 81]%Q.

(** An environment in which [str(e)] gives the message of a transport
    error and every request times out. *)
Definition sample_str_exn (e : exn) : string :=
  match e with
  | RequestException msg => msg
  | HTTPError _ => "http error"
  | _ => "error"
  end.

Definition always_timeout (batch_index attempt : Z) (n : nat) : PostReply :=
  PostRaises "timed out".

Definition sample_batch : Batch :=
  (0, [ {| id := "A"; title := ""; first_author := ""; year := YearNA;
           abstract := "spikes" |};
        {| id := "B"; title := ""; first_author := ""; year := YearInt 2024;
           abstract := "waves" |} ]).

(** ** The search script

    [openalex_single_neuron_search.py] writes the input of the classifier:
    it pages through the OpenAlex feed and saves each work once. *)

Module Search.

(** A work of the feed: [item.get("id")], [None] for a missing key or a
    null, and the object itself. *)
Record Work := { work_id : option string; work_object : json }.

(** The decoded body of a page: [payload.get("results", [])] and
    [payload.get("meta", {}).get("next_cursor")]. *)
Record Payload := { results : list Work; next_cursor : option string }.

(** What [requests.get] gives: an exception of the transport, or a
    response with its status code and its body, [None] when the body does
    not decode. *)
Inductive GetReply : Type :=
  | GetRaises (msg : string)
  | GetResponse (status_code : Z) (payload : option Payload).

(** How the generator ends: exhausted, by an exception, or still running
    when the fuel is spent. *)
Inductive Ending : Type :=
  | Exhausted
  | Raised (e : exn)
  | Running.

(** [max_results and fetched >= max_results]. *)
Definition capped (max_results : option Z) (fetched : Z) : bool :=
  match max_results with
  | Some m => negb (m =? 0) && (m <=? fetched)
  | None => false
  end.

(** The loop [for item in results]: the items yielded, whether it left by
    [return], and [fetched] afterwards. *)
Fixpoint yield_results (max_results : option Z) (items : list Work)
    (fetched : Z) : list Work * bool * Z :=
  match items with
  | [] => ([], false, fetched)
  | item :: rest =>
      let fetched := fetched + 1 in
      if capped max_results fetched then ([item], true, fetched)
      else
        let '(ys, stop, fetched) := yield_results max_results rest fetched in
        (item :: ys, stop, fetched)
  end.

Section Fetch.

(** The feed: the reply to the [n]-th request of the run, sent with the
    given cursor. *)
Variable get : string -> nat -> GetReply.
Variable max_results : option Z.

(** The [while cursor] loop, one request a turn: the items yielded, the
    number of sleeps, and how the generator ends. *)
Fixpoint fetch_loop (fuel : nat) (cursor : string) (n : nat) (fetched : Z)
  : list Work * nat * Ending :=
  match fuel with
  | O => ([], O, Running)
  | S fuel' =>
      if String.eqb cursor "" then ([], O, Exhausted)
      else
        match get cursor n with
        | GetRaises msg => ([], O, Raised (RequestException msg))
        | GetResponse status_code payload =>
            if status_code =? 429 then
              let '(ys, sleeps, ending) :=
                fetch_loop fuel' cursor (S n) fetched in
              (ys, S sleeps, ending)
            else
              match raise_for_status status_code, payload with
              | Raise e, _ => ([], O, Raised e)
              | Ok _, None => ([], O, Raised JSONDecodeError)
              | Ok _, Some page =>
                  let '(ys, stop, fetched) :=
                    yield_results max_results (results page) fetched in
                  if stop then (ys, O, Exhausted)
                  else
                    match next_cursor page with
                    | None => (ys, O, Exhausted)
                    | Some cursor =>
                        if String.eqb cursor "" then (ys, O, Exhausted)
                        else
                          let '(zs, sleeps, ending) :=
                            fetch_loop fuel' cursor (S n) fetched in
                          (ys ++ zs, sleeps, ending)
                    end
              end
        end
  end.

Definition fetch_openalex (fuel : nat) : list Work * nat * Ending :=
  fetch_loop fuel "*" 0 0.

End Fetch.

(** The generator nested in [main], over the items its source yields;
    [seen] is the set it shares with [main]. *)
Fixpoint unique_items (seen : gset (option string)) (items : list Work)
  : list Work :=
  match items with
  | [] => []
  | item :: rest =>
      if bool_decide (work_id item ∈ seen) then unique_items seen rest
      else item :: unique_items ({[work_id item]} ∪ seen) rest
  end.

(** The lines written, and the count returned. *)
Definition save_jsonl (dumps : json -> string) (items : list Work)
  : list string * Z :=
  ((fun obj => dumps (work_object obj)) <$> items, Z.of_nat (length items)).

(** [main]: the lines of the output file, and the count when the feed
    is exhausted. *)
Definition main (dumps : json -> string) (get : string -> nat -> GetReply)
    (fuel : nat) : list string * option Z :=
  let '(items, _, ending) := fetch_openalex get None fuel in
  let '(lines, count) := save_jsonl dumps (unique_items ∅ items) in
  (lines, match ending with Exhausted => Some count | _ => None end).

End Search.

(** ** Further vocabulary *)

(** *** Abstract reconstruction *)

(** [inv] is an inverted index of the text [ws]: every position of the
    text is listed under the word that stands there, and nothing else is
    listed. *)
Definition indexes (inv : InvertedIndex) (ws : list string) : Prop :=
  (∀ word ps p, (word, ps) ∈ inv → p ∈ ps →
                0 <= p ∧ ws !! Z.to_nat p = Some word)
  ∧ (∀ (i : nat) word, ws !! i = Some word →
                       ∃ ps, (word, ps) ∈ inv ∧ Z.of_nat i ∈ ps).

(** A position as Python list indexing reads it in a list of length [n]. *)
Definition wrap_position (n p : Z) : Z := if p <? 0 then p + n else p.

(** The index with every negative position counted from the end. *)
Definition wrap_index (n : Z) (inv : InvertedIndex) : InvertedIndex :=
  (fun wp : string * list Z => (wp.1, wrap_position n <$> wp.2)) <$> inv.

(** The text [the brain maps the world]. *)
Definition brain_words : list string :=
  ["the"; "brain"; "maps"; "the"; "world"].

(** [inv_brain] with its items in another order. *)
Definition inv_brain_shuffled : InvertedIndex :=
  [("world", [4]); ("maps", [2]); ("the", [0; 3]); ("brain", [1])].

(** *** The rate limiter in a run *)

(** The time of a granted slot. *)
Definition granted (e : Event) : option Q :=
  match e with
  | EvSlot t => Some t
  | _ => None
  end.

(** The times at which slots were granted, oldest first. *)
Definition slots (w : World) : list Q := omap granted (events w).

(** The slots granted so far and the deque are what some passes through
    the locked region, at times up to now that do not go backwards, leave
    from the empty deque. *)
Definition limiter_trace (calls_per_minute : Z) (w : World) : Prop :=
  ∃ polls,
    StronglySorted Qle polls
    ∧ Forall (fun p => (p <= clock w)%Q) polls
    ∧ Limiter.run calls_per_minute polls [] = (slots w, call_timestamps w).

(** The defaults with no call per minute allowed, and with no retry. *)
Definition no_calls_args : Args :=
  {| arg_max := None; arg_start := 0; arg_batch_size := 10;
     arg_concurrency := 10; arg_calls_per_minute := 0;
     arg_daily_call_cap := 1000; arg_max_retries := 3;
     arg_resume := false |}.
Definition no_retry_args : Args :=
  {| arg_max := None; arg_start := 0; arg_batch_size := 10;
     arg_concurrency := 10; arg_calls_per_minute := 15;
     arg_daily_call_cap := 1000; arg_max_retries := 0;
     arg_resume := false |}.

(** *** Resuming *)

(** The object [process_batch] hands to [json.dumps]. *)
Definition record_json (r : ClassificationResult) : json :=
  JObj [("batch_start_index", JInt (batch_start_index r));
        ("input_ids", JArr (JStr <$> input_ids r));
        ("model_raw", model_raw r);
        ("model_parsed", match model_parsed r with
                         | Some items => JArr items
                         | None => JNull
                         end)].

(** The same arguments with [--resume]. *)
Definition with_resume (a : Args) : Args :=
  {| arg_max := arg_max a; arg_start := arg_start a;
     arg_batch_size := arg_batch_size a;
     arg_concurrency := arg_concurrency a;
     arg_calls_per_minute := arg_calls_per_minute a;
     arg_daily_call_cap := arg_daily_call_cap a;
     arg_max_retries := arg_max_retries a; arg_resume := true |}.

(** The same arguments with another batch size. *)
Definition with_batch_size (size : Z) (a : Args) : Args :=
  {| arg_max := arg_max a; arg_start := arg_start a;
     arg_batch_size := size;
     arg_concurrency := arg_concurrency a;
     arg_calls_per_minute := arg_calls_per_minute a;
     arg_daily_call_cap := arg_daily_call_cap a;
     arg_max_retries := arg_max_retries a; arg_resume := arg_resume a |}.

(** A row whose inverted index lists a word and no position. *)
Definition row_without_position : Row :=
  {| row_id := "Z"; row_title := ""; row_authorships := [];
     row_publication_year := None; row_year := None;
     row_abstract_inverted_index := Some [("spikes", [])] |}.

(** *** Sample services *)

(** A service that answers every request with status 429. *)
Definition always_429 (batch_index attempt : Z) (n : nat) : PostReply :=
  PostResponse 429 "".

(** The body of a completion whose content is [[1]]. *)
Definition completion_body : string :=
  "{" +:+ dq +:+ "choices" +:+ dq +:+ ": [{" +:+ dq +:+ "message" +:+ dq
  +:+ ": {" +:+ dq +:+ "content" +:+ dq +:+ ": " +:+ dq +:+ "[1]" +:+ dq
  +:+ "}}]}".

(** A service whose first attempt times out and whose later ones answer
    with that completion. *)
Definition second_time_lucky (batch_index attempt : Z) (n : nat) : PostReply :=
  if attempt =? 1 then PostRaises "timed out"
  else PostResponse 200 completion_body.

(** *** The search script *)

(** The ids of a list of works. *)
Definition work_ids (items : list Search.Work) : list (option string) :=
  Search.work_id <$> items.

(** A work with the given id, and one without. *)
Definition sample_work (name : string) : Search.Work :=
  {| Search.work_id := Some name; Search.work_object := JNull |}.
Definition work_without_id : Search.Work :=
  {| Search.work_id := None; Search.work_object := JNull |}.

(** A feed of two pages, the first of which is refused twice with a 429
    before it is served; the second page repeats a work of the first. *)
Definition sample_feed (cursor : string) (n : nat) : Search.GetReply :=
  if (n <? 2)%nat then Search.GetResponse 429 None
  else if String.eqb cursor "*" then
    Search.GetResponse 200
      (Some {| Search.results := [sample_work "W1"; sample_work "W2"];
               Search.next_cursor := Some "c2" |})
  else
    Search.GetResponse 200
      (Some {| Search.results := [sample_work "W2"; sample_work "W3"];
               Search.next_cursor := None |}).

(** *** An interrupted run *)

(** The record of a sample line. *)
Definition sample_record (name : string) : PaperRecord :=
  {| id := name; title := ""; first_author := ""; year := YearNA;
     abstract := "spikes" |}.

(** The batches of the first two sample lines, one line a batch. *)
Definition two_batches : list Batch :=
  [(0, [sample_record "A"]); (1, [sample_record "B"])].

(** An output file after an interruption: the record of the first batch,
    and a line cut short. *)
Definition interrupted_output : list string :=
  ["{" +:+ dq +:+ "batch_start_index" +:+ dq +:+ ": 0, "
   +:+ dq +:+ "input_ids" +:+ dq +:+ ": [" +:+ dq +:+ "A" +:+ dq +:+ "], "
   +:+ dq +:+ "model_raw" +:+ dq +:+ ": null, "
   +:+ dq +:+ "model_parsed" +:+ dq +:+ ": null}";
   "{" +:+ dq +:+ "batch_start_index" +:+ dq +:+ ": 1, " +:+ dq +:+ "inp"].

(** *** The limiter on doubles *)

(** The step from 60 to the next double. *)
Definition ulp60 : Q := 1 # (2 ^ 47).

(** What the subtraction of doubles keeps of the exact difference, as far
    as the comparison with 60 goes: rounding to the nearest double does not
    cross a double, and 60 and [60 + ulp60] are doubles. A difference of at
    most 60 is computed as at most 60, and one of at least [60 + ulp60] as
    more than 60. *)
Definition rounded_difference (fsub : Q → Q → Q) : Prop :=
  (∀ a b : Q, (a - b <= 60)%Q → (fsub a b <= 60)%Q)
  ∧ (∀ a b : Q, (60 + ulp60 <= a - b)%Q → ¬ (fsub a b <= 60)%Q).

(** The timestamps of a deque less than [d] seconds old. *)
Definition younger (d now : Q) (q : list Q) : list Q :=
  List.filter (fun t => negb (Qle_bool d (now - t))) q.

(** The doubles nearest to 60.1 and to 0.1. *)
Definition double_60_1 : Q := 8458323050155213 # (2 ^ 47).
Definition double_0_1 : Q := 3602879701896397 # (2 ^ 55).

(** *** Batches and failed attempts *)

(** The start index and the ids of each batch built. *)
Definition batch_ids (r : result (list Batch)) : list (Z * list string) :=
  match r with
  | Ok batches => (fun b : Batch => (b.1, id <$> b.2)) <$> batches
  | Raise _ => []
  end.

(** The response [call_openrouter] reads: the first, or after a first 429
    the second. *)
Definition final_reply (post : Z → Z → nat → PostReply)
    (batch_index attempt : Z) : PostReply :=
  match post batch_index attempt 0%nat with
  | PostRaises msg => PostRaises msg
  | PostResponse status_code body =>
      if status_code =? 429 then post batch_index attempt 1%nat
      else PostResponse status_code body
  end.

(** [data["choices"][0]["message"]["content"]]. *)
Definition content_of (data : json) : result json :=
  choices ← getitem_key data "choices";
  choice ← getitem_first choices;
  message ← getitem_key choice "message";
  getitem_key message "content".

(** The kinds of failed attempt, by the response read: an exception of
    the transport; a status from 400 to 599; a body that is not JSON; a
    body without the content; a content that is not a text that parses to
    a list. *)
Inductive failure (json_loads : string → option json) : PostReply → Prop :=
  | transport_error (msg : string) :
      failure json_loads (PostRaises msg)
  | error_status (status_code : Z) (body : string) :
      400 <= status_code < 600 →
      failure json_loads (PostResponse status_code body)
  | undecodable_body (status_code : Z) (body : string) :
      json_loads body = None →
      failure json_loads (PostResponse status_code body)
  | malformed_body (status_code : Z) (body : string) (data : json) (e : exn) :
      json_loads body = Some data → content_of data = Raise e →
      failure json_loads (PostResponse status_code body)
  | unparsable_content (status_code : Z) (body : string) (data v : json) :
      json_loads body = Some data → content_of data = Ok v →
      (∀ text, v = JStr text → parse_model_json json_loads text = None) →
      failure json_loads (PostResponse status_code body).

(** A service that answers every request with a redirect that carries a
    completion. *)
Definition always_302 (batch_index attempt : Z) (n : nat) : PostReply :=
  PostResponse 302 completion_body.

(** Two workers wait under a cap of one call per minute while the deque
    holds the timestamp 0: the first polls from 0.1 on and stops at its
    301st poll, the second polls from 0.2 on; their polls alternate. *)
Definition worker_polls (start : Q) (n : nat) : list Q :=
  (fun k : nat => (start + (Z.of_nat k # 5))%Q) <$> seq 0 n.

Fixpoint alternate (l1 l2 : list Q) : list Q :=
  match l1, l2 with
  | [], _ => l2
  | _, [] => l1
  | x :: l1', y :: l2' => x :: y :: alternate l1' l2'
  end.

Definition two_waiting : list Q :=
  0%Q :: alternate (worker_polls (1 # 10) 301) (worker_polls (1 # 5) 601).

(** * Properties *)

(** ** Abstract reconstruction *)

Section Reconstruct.

Implicit Types (ws : list string) (inv : InvertedIndex) (ps : list Z).

Lemma elem_of_positions inv p :
  p ∈ positions inv ↔ ∃ word ps, (word, ps) ∈ inv ∧ p ∈ ps.
Proof.
  unfold positions. induction inv as [|[w ps] inv IH]; simpl.
  - split; [by intros ?%elem_of_nil|].
    by intros (? & ? & ?%elem_of_nil & _).
  - rewrite elem_of_app, IH. split.
    + intros [Hp|(w' & ps' & Hin & Hp)].
      * exists w, ps. split; [by left|done].
      * exists w', ps'. split; [by right|done].
    + intros (w' & ps' & [[= -> ->]|Hin]%elem_of_cons & Hp); [by left|].
      right. by exists w', ps'.
Qed.

Lemma setitem_in_range {A} (l : list A) (i : Z) (x : A) :
  0 <= i < Z.of_nat (length l) →
  Py.setitem l i x = Ok (<[Z.to_nat i := x]> l).
Proof.
  intros [H0 H1]. unfold Py.setitem.
  destruct (Z.leb_spec 0 i); [|lia].
  destruct (Z.ltb_spec i (Z.of_nat (length l))); [done|lia].
Qed.

Lemma setitem_ok_iff {A} (l : list A) (i : Z) (x : A) :
  is_ok (Py.setitem l i x) = true ↔ accepted (Z.of_nat (length l)) i.
Proof.
  unfold Py.setitem, accepted.
  destruct (Z.leb_spec 0 i), (Z.ltb_spec i (Z.of_nat (length l)));
    simpl; try (split; [lia|done]);
    destruct (Z.leb_spec (- Z.of_nat (length l)) i), (Z.ltb_spec i 0);
    simpl; split; try done; try lia.
Qed.

Lemma setitem_length {A} (l l' : list A) (i : Z) (x : A) :
  Py.setitem l i x = Ok l' → length l' = length l.
Proof.
  unfold Py.setitem. repeat case_match; intros [= <-];
    by rewrite length_insert.
Qed.

Lemma place_word_ok_iff word ps ws :
  is_ok (place_word word ps ws) = true
  ↔ Forall (accepted (Z.of_nat (length ws))) ps.
Proof.
  revert ws. induction ps as [|p ps IH]; intros ws; simpl.
  - split; [constructor|done].
  - destruct (Py.setitem ws p word) as [ws'|e] eqn:E; simpl.
    + rewrite IH, (setitem_length _ _ _ _ E), Forall_cons.
      pose proof (proj1 (setitem_ok_iff ws p word)) as Hp.
      rewrite E in Hp. tauto.
    + split; [done|]. intros [Hp _]%Forall_cons.
      apply (setitem_ok_iff ws p word) in Hp. by rewrite E in Hp.
Qed.

Lemma place_word_length word ps ws ws' :
  place_word word ps ws = Ok ws' → length ws' = length ws.
Proof.
  revert ws. induction ps as [|p ps IH]; intros ws; simpl.
  - by intros [= <-].
  - destruct (Py.setitem ws p word) as [ws1|e] eqn:E; simpl; [|done].
    intros H%IH. by rewrite H, (setitem_length _ _ _ _ E).
Qed.

Lemma place_all_ok_iff inv ws :
  is_ok (place_all inv ws) = true
  ↔ Forall (accepted (Z.of_nat (length ws))) (positions inv).
Proof.
  revert ws. induction inv as [|[word ps] inv IH]; intros ws; simpl.
  - split; [constructor|done].
  - unfold positions; simpl. rewrite Forall_app.
    destruct (place_word word ps ws) as [ws'|e] eqn:E; simpl.
    + rewrite IH, (place_word_length _ _ _ _ E).
      pose proof (proj1 (place_word_ok_iff word ps ws)) as Hp.
      rewrite E in Hp. unfold positions. tauto.
    + split; [done|]. intros [Hp _].
      apply (place_word_ok_iff word ps ws) in Hp. by rewrite E in Hp.
Qed.

(** Writing at non-negative positions: what each index holds after. *)
Lemma place_word_lookup word ps ws :
  Forall (fun p => 0 <= p < Z.of_nat (length ws)) ps →
  ∃ ws', place_word word ps ws = Ok ws' ∧ length ws' = length ws ∧
    ∀ i : nat, ws' !! i =
      if bool_decide (Z.of_nat i ∈ ps) then Some word else ws !! i.
Proof.
  revert ws. induction ps as [|p ps IH]; intros ws Hps; simpl.
  - by exists ws.
  - apply Forall_cons in Hps as [Hp Hps].
    rewrite (setitem_in_range ws p word Hp). simpl.
    destruct (IH (<[Z.to_nat p := word]> ws)) as (ws' & -> & Hlen & Hget).
    { by rewrite length_insert. }
    exists ws'. rewrite length_insert in Hlen. split_and!; [done..|].
    intros i. rewrite Hget.
    destruct (decide (Z.of_nat i ∈ ps)) as [Hi|Hi].
    + rewrite !bool_decide_eq_true_2; [done|by right|done].
    + rewrite (bool_decide_eq_false_2 _ Hi).
      destruct (decide (Z.of_nat i = p)) as [<-|Hne].
      * rewrite Nat2Z.id, bool_decide_eq_true_2 by left.
        apply list_lookup_insert_eq. lia.
      * rewrite list_lookup_insert_ne by lia.
        rewrite bool_decide_eq_false_2; [done|].
        intros [?|?]%elem_of_cons; done.
Qed.

Lemma place_all_lookup inv ws :
  Forall (fun p => 0 <= p < Z.of_nat (length ws)) (positions inv) →
  ∃ ws', place_all inv ws = Ok ws' ∧ length ws' = length ws ∧
    ∀ i : nat, ws' !! i =
      match last_writer inv (Z.of_nat i) with
      | Some word => Some word
      | None => ws !! i
      end.
Proof.
  revert ws. induction inv as [|[word ps] inv IH]; intros ws Hps; simpl.
  - by exists ws.
  - unfold positions in Hps; simpl in Hps.
    apply Forall_app in Hps as [Hps Hrest].
    destruct (place_word_lookup word ps ws Hps) as (ws1 & -> & Hlen1 & Hget1).
    simpl. destruct (IH ws1) as (ws' & -> & Hlen & Hget).
    { by rewrite Hlen1. }
    exists ws'. split_and!; [done|congruence|].
    intros i. rewrite Hget, Hget1.
    destruct (last_writer inv (Z.of_nat i)); [done|].
    by case_bool_decide.
Qed.

Lemma last_writer_listed inv i word :
  last_writer inv i = Some word → ∃ ps, (word, ps) ∈ inv ∧ i ∈ ps.
Proof.
  induction inv as [|[w ps] inv IH]; simpl; [done|].
  destruct (last_writer inv i) as [w'|].
  - intros [= ->]. destruct IH as (ps' & ? & ?); [done|].
    exists ps'. split; [by right|done].
  - case_bool_decide; [|done]. intros [= ->]. exists ps. split; [by left|done].
Qed.

Lemma last_writer_some inv i word ps :
  (word, ps) ∈ inv → i ∈ ps → is_Some (last_writer inv i).
Proof.
  induction inv as [|[w ps'] inv IH]; simpl.
  - by intros ?%elem_of_nil.
  - intros [[= <- <-]|Hin]%elem_of_cons Hi.
    + destruct (last_writer inv i); [done|].
      by rewrite bool_decide_eq_true_2.
    + destruct (IH Hin Hi) as [w' ->]. done.
Qed.

Lemma foldl_max_spec (xs : list Z) (x : Z) :
  is_max (foldl Z.max x xs) (x :: xs).
Proof.
  revert x. induction xs as [|y xs IH]; intros x; simpl.
  - split; [by left|]. by repeat constructor.
  - destruct (IH (Z.max x y)) as [Hin Hall]. split.
    + apply elem_of_cons in Hin as [Heq|Hin].
      * rewrite Heq. destruct (Z.max_spec x y) as [[_ ->]|[_ ->]];
          [right; left|left].
      * by do 2 right.
    + apply Forall_cons in Hall as [Hm Hall].
      repeat constructor; [lia|lia|done].
Qed.

Lemma max_spec (xs : list Z) :
  xs ≠ [] → ∃ m, Py.max xs = Ok m ∧ is_max m xs.
Proof.
  destruct xs as [|x xs]; [done|]. intros _.
  eexists. split; [done|]. apply foldl_max_spec.
Qed.

Lemma split_not_nil c s : Py.split c s ≠ [].
Proof. destruct s as [|a s]; simpl; [done|]. by repeat case_match. Qed.

Lemma split_word c word :
  Py.contains_char c word = false → Py.split c word = [word].
Proof.
  induction word as [|a word IH]; simpl; [done|].
  intros [Ha Hw]%orb_false_elim. by rewrite Ha, (IH Hw).
Qed.

Lemma split_word_sep c word rest :
  Py.contains_char c word = false →
  Py.split c (word +:+ String c rest) = word :: Py.split c rest.
Proof.
  induction word as [|a word IH]; simpl.
  - by rewrite Ascii.eqb_refl.
  - intros [Ha Hw]%orb_false_elim. by rewrite Ha, (IH Hw).
Qed.

(** Splitting on the separator undoes the join, for words free of it. *)
Lemma split_join ws :
  ws ≠ [] → Forall (fun w => Py.contains_char " " w = false) ws →
  Py.split " " (Py.join " " ws) = ws.
Proof.
  induction ws as [|w ws IH]; [done|]. intros _ [Hw Hws]%Forall_cons.
  destruct ws as [|w' ws].
  - by apply split_word.
  - change (Py.join " " (w :: w' :: ws))
      with (w +:+ String " " (Py.join " " (w' :: ws))).
    by rewrite split_word_sep, IH.
Qed.

Lemma is_max_unique (m m' : Z) (xs : list Z) :
  is_max m xs → is_max m' xs → m = m'.
Proof.
  intros [Hin Hall] [Hin' Hall']. rewrite Forall_forall in Hall, Hall'.
  specialize (Hall _ Hin'). specialize (Hall' _ Hin). lia.
Qed.

Lemma place_word_raises word ps ws e :
  place_word word ps ws = Raise e → e = IndexError.
Proof.
  revert ws. induction ps as [|p ps IH]; intros ws; simpl; [done|].
  destruct (Py.setitem ws p word) as [ws'|e'] eqn:E; simpl; [by apply IH|].
  intros [= <-]. unfold Py.setitem in E. repeat case_match; congruence.
Qed.

Lemma place_all_raises inv ws e :
  place_all inv ws = Raise e → e = IndexError.
Proof.
  revert ws. induction inv as [|[word ps] inv IH]; intros ws; simpl; [done|].
  destruct (place_word word ps ws) as [ws'|e'] eqn:E; simpl; [by apply IH|].
  intros [= <-]. by eapply place_word_raises.
Qed.

Lemma reconstruct_unfold inv max_pos :
  is_max max_pos (positions inv) →
  reconstruct_abstract (Some inv)
  = words ← place_all inv (replicate (Z.to_nat (max_pos + 1)) "");
    Ok (Py.join " " words).
Proof.
  intros Hmax.
  assert (positions inv ≠ []) as Hne.
  { destruct Hmax as [Hin _]. intros E. rewrite E in Hin.
    by apply elem_of_nil in Hin. }
  destruct (max_spec _ Hne) as (m & Hm & Hmax').
  rewrite (is_max_unique _ _ _ Hmax Hmax').
  destruct inv as [|wp inv]; [done|].
  unfold reconstruct_abstract, abstract_words.
  fold (positions (wp :: inv)). by rewrite Hm.
Qed.

End Reconstruct.

(** C7 (amended). For an inverted index that lists at least one position,
    all of them non-negative, and whose words contain no space,
    [reconstruct_abstract] returns a string whose tokens, split at single
    spaces, number [max(position) + 1]; the token at a listed position is
    the last word of the mapping that lists it, so each word is at every
    one of its positions when no position is listed under two words. An
    absent or empty input gives the empty string. *)
Theorem reconstruct_abstract_tokens :
  (reconstruct_abstract None = Ok "" ∧ reconstruct_abstract (Some []) = Ok "")
  ∧ ∀ inv : InvertedIndex,
      positions inv ≠ [] →
      Forall (fun p => 0 <= p) (positions inv) →
      Forall (fun wp => Py.contains_char " " wp.1 = false) inv →
      ∃ s max_pos,
        reconstruct_abstract (Some inv) = Ok s
        ∧ is_max max_pos (positions inv)
        ∧ length (tokens s) = Z.to_nat (max_pos + 1)
        ∧ (∀ p word, last_writer inv p = Some word →
                     tokens s !! Z.to_nat p = Some word)
        ∧ (positions_disjoint inv → places_each_word inv s).
Proof.
  split; [done|]. intros inv Hne Hpos Hwords.
  destruct (max_spec _ Hne) as (m & _ & Hmax).
  pose proof Hmax as [Hin Hall].
  rewrite Forall_forall in Hpos, Hall.
  assert (0 <= m) as Hm by auto.
  destruct (place_all_lookup inv (replicate (Z.to_nat (m + 1)) ""))
    as (ws & Hws & Hlen & Hget).
  { rewrite length_replicate, Forall_forall. intros p Hp.
    specialize (Hpos _ Hp). specialize (Hall _ Hp). lia. }
  rewrite length_replicate in Hlen.
  assert (tokens (Py.join " " ws) = ws) as Htok.
  { apply split_join.
    - intros ->. simpl in Hlen. lia.
    - apply Forall_lookup_2. intros i x Hx. rewrite Hget in Hx.
      destruct (last_writer inv (Z.of_nat i)) as [w|] eqn:E.
      + injection Hx as <-.
        apply last_writer_listed in E as (ps & Hw & _).
        rewrite Forall_forall in Hwords. apply (Hwords _ Hw).
      + apply lookup_replicate in Hx as [-> _]. done. }
  assert (∀ p word, last_writer inv p = Some word →
                    ws !! Z.to_nat p = Some word) as Hlast.
  { intros p word Hw. rewrite Hget.
    destruct (last_writer_listed _ _ _ Hw) as (ps & Hi & Hp).
    assert (p ∈ positions inv) as Hpp.
    { apply elem_of_positions. by exists word, ps. }
    specialize (Hpos _ Hpp). by rewrite Z2Nat.id, Hw by done. }
  exists (Py.join " " ws), m.
  rewrite (reconstruct_unfold _ _ Hmax), Hws, Htok. simpl.
  split_and!; [done..|].
  intros Hdisj word ps p Hw Hp.
  destruct (last_writer_some _ _ _ _ Hw Hp) as [w' Hw'].
  destruct (last_writer_listed _ _ _ Hw') as (ps' & Hw2 & Hp2).
  rewrite (Hdisj _ _ _ _ _ Hw Hw2 Hp Hp2), Htok. by apply Hlast.
Qed.

Lemma reconstruct_abstract_tokens_witness :
  ∃ s max_pos,
    reconstruct_abstract (Some inv_brain) = Ok s
    ∧ is_max max_pos (positions inv_brain)
    ∧ length (tokens s) = Z.to_nat (max_pos + 1)
    ∧ (∀ p word, last_writer inv_brain p = Some word →
                 tokens s !! Z.to_nat p = Some word)
    ∧ (positions_disjoint inv_brain → places_each_word inv_brain s).
Proof.
  apply (proj2 reconstruct_abstract_tokens inv_brain).
  - done.
  - by repeat constructor.
  - by repeat constructor.
Defined.

(** Position 2 is listed by no word and stays empty. *)
Example reconstruct_hello :
  reconstruct_abstract (Some [("world", [1; 3]); ("hello", [0])])
  = Ok "hello world  world".
Proof. reflexivity. Qed.

(** C7 as first stated fails on two words listing the same position: the
    later one overwrites the earlier, which is then at none of its
    positions. *)
Lemma reconstruct_shared_position :
  Forall (fun p => 0 <= p) (positions inv_shared_position)
  ∧ reconstruct_abstract (Some inv_shared_position) = Ok "b"
  ∧ ¬ places_each_word inv_shared_position "b".
Proof.
  split_and!; [by repeat constructor|done|].
  intros H. specialize (H "a" [0] 0). simpl in H.
  assert (Some "b" = Some "a") as [=]; apply H; by left.
Qed.

(** A word with a space in it counts as two tokens. *)
Example reconstruct_spaced_word :
  reconstruct_abstract (Some inv_spaced_word) = Ok "a b"
  ∧ length (tokens "a b") = 2%nat.
Proof. done. Qed.

(** A dict whose words list no position at all reaches [max] of an empty
    sequence. *)
Example reconstruct_no_position :
  reconstruct_abstract (Some [("a", [])]) = Raise ValueError.
Proof. done. Qed.

(** C9 (amended). [reconstruct_abstract] does not check positions. On an
    input that lists at least one position it returns a string exactly when
    every position is at least [-(max(position) + 1)], a negative one
    counting from the end of the word list, and otherwise raises
    [IndexError]; so an input whose positions are all non-negative has no
    error condition. *)
Theorem reconstruct_abstract_errors (inv : InvertedIndex) (max_pos : Z) :
  is_max max_pos (positions inv) →
  (is_ok (reconstruct_abstract (Some inv)) = true
   ↔ Forall (fun p => - (max_pos + 1) <= p) (positions inv))
  ∧ (∀ e, reconstruct_abstract (Some inv) = Raise e → e = IndexError)
  ∧ (Forall (fun p => 0 <= p) (positions inv) →
     is_ok (reconstruct_abstract (Some inv)) = true).
Proof.
  intros Hmax. rewrite (reconstruct_unfold _ _ Hmax).
  set (ws := replicate (Z.to_nat (max_pos + 1)) "").
  assert (is_ok (words ← place_all inv ws; Ok (Py.join " " words)) = true
          ↔ Forall (fun p => - (max_pos + 1) <= p) (positions inv)) as Hiff.
  { transitivity (is_ok (place_all inv ws) = true).
    { by destruct (place_all inv ws). }
    rewrite place_all_ok_iff. unfold ws, accepted.
    rewrite length_replicate, !Forall_forall.
    destruct Hmax as [_ Hall]. rewrite Forall_forall in Hall.
    split; intros H p Hp; specialize (H p Hp); specialize (Hall p Hp); lia. }
  split_and!; [done| |].
  - intros e. destruct (place_all inv ws) as [?|e'] eqn:E; simpl; [done|].
    intros [= <-]. by eapply place_all_raises.
  - intros Hpos. apply Hiff. destruct Hmax as [Hin _].
    rewrite Forall_forall in Hpos |- *. intros p Hp.
    pose proof (Hpos _ Hp). pose proof (Hpos _ Hin). lia.
Qed.

Lemma reconstruct_abstract_errors_witness :
  (is_ok (reconstruct_abstract (Some inv_negative_position)) = true
   ↔ Forall (fun p => - (2 + 1) <= p) (positions inv_negative_position))
  ∧ (∀ e, reconstruct_abstract (Some inv_negative_position) = Raise e →
          e = IndexError)
  ∧ (Forall (fun p => 0 <= p) (positions inv_negative_position) →
     is_ok (reconstruct_abstract (Some inv_negative_position)) = true).
Proof.
  apply (reconstruct_abstract_errors inv_negative_position 2).
  split; [by right; left|by repeat constructor].
Defined.

(** C9 as first stated fails on a negative position that is in range: it
    is not rejected, [-1] writes the last slot. *)
Lemma reconstruct_negative_position :
  Exists (fun p => p < 0) (positions inv_negative_position)
  ∧ reconstruct_abstract (Some inv_negative_position) = Ok "  a".
Proof. split; [by left|done]. Qed.

(** Below [-(max + 1)] the write is out of range. *)
Example reconstruct_far_negative :
  reconstruct_abstract (Some [("a", [-4; 2])]) = Raise IndexError.
Proof. done. Qed.

(** ** Loading and batch building *)

Section Batching.

Context {A : Type}.
Implicit Types (l : list A) (args : Args).

Lemma slice_all l : Py.slice l (Some 0) None = l.
Proof.
  unfold Py.slice, Py.clamp. simpl.
  rewrite Z.min_l, Z.sub_0_r, Nat2Z.id by lia. apply firstn_all.
Qed.

Lemma slice_to_zero l : Py.slice l None (Some 0) = [].
Proof.
  unfold Py.slice, Py.clamp. simpl. by rewrite Z.min_l by lia.
Qed.

End Batching.

(** C10. With [--max 0] the limit slice is not applied: the lines loaded
    are all those after the start offset, not none. The offset slice is
    likewise applied only for a non-zero [--start], so with [--start 0] and
    [--max 0] every input line is loaded. *)
Theorem load_lines_max_zero {A} (args : Args) (lines : list A) :
  arg_max args = Some 0 →
  load_lines args lines = Py.slice lines (Some (arg_start args)) None
  ∧ (arg_start args = 0 → load_lines args lines = lines).
Proof.
  intros Hmax. unfold load_lines. rewrite Hmax. simpl.
  destruct (Z.eqb_spec (arg_start args) 0) as [->|Hne]; simpl.
  - by rewrite slice_all.
  - done.
Qed.

Lemma load_lines_max_zero_witness :
  load_lines (with_window 5 (Some 0) default_args) sample_lines
  = Py.slice sample_lines (Some 5) None
  ∧ (5 = 0 → load_lines (with_window 5 (Some 0) default_args) sample_lines
             = sample_lines).
Proof.
  apply (load_lines_max_zero (with_window 5 (Some 0) default_args) sample_lines).
  reflexivity.
Defined.

(** A limit that is not zero truncates what the offset left. *)
Lemma load_lines_limit {A} (args : Args) (lines : list A) (m : Z) :
  arg_max args = Some m → m ≠ 0 →
  load_lines args lines
  = Py.slice (Py.slice lines (Some (arg_start args)) None) None (Some m).
Proof.
  intros Hmax Hm. unfold load_lines. rewrite Hmax.
  destruct (Z.eqb_spec m 0) as [|_]; [done|]. simpl.
  destruct (Z.eqb_spec (arg_start args) 0) as [->|Hne]; simpl; [|done].
  by rewrite slice_all.
Qed.

Example load_lines_all_25 :
  length (load_lines (with_window 0 (Some 0) default_args) sample_lines) = 25%nat
  ∧ length (load_lines (with_window 5 (Some 12) default_args) sample_lines) = 12%nat
  ∧ length (load_lines (with_window (-3) None default_args) sample_lines) = 3%nat.
Proof. done. Qed.

Section BuildBatches.

Lemma ceil_div_spec (n b q : Z) :
  0 < b → ceil_div n b = q ↔ (q - 1) * b < n <= q * b.
Proof.
  intros Hb. unfold ceil_div.
  pose proof (Z.div_mod (n + b - 1) b ltac:(lia)) as Hdm.
  pose proof (Z.mod_pos_bound (n + b - 1) b Hb) as Hmod.
  split; [intros <-; nia|]. intros [H1 H2].
  symmetry. apply (Z.div_unique _ _ _ (n + b - 1 - b * q)); lia.
Qed.

Lemma ceil_div_nonpos (n b : Z) : 0 < b → n <= 0 → ceil_div n b <= 0.
Proof.
  intros Hb Hn. unfold ceil_div.
  enough ((n + b - 1) / b < 1) by lia.
  apply Z.div_lt_upper_bound; lia.
Qed.

Lemma ceil_div_step (n b : Z) :
  0 < b → ceil_div (n - b) b = ceil_div n b - 1.
Proof.
  intros Hb. unfold ceil_div.
  replace (n - b + b - 1) with (n + b - 1 + (-1) * b) by lia.
  rewrite Z.div_add by lia. lia.
Qed.

(** [range] with a positive step, in closed form. *)
Lemma range_up_closed (stop step : Z) (fuel : nat) (i : Z) :
  0 < step → stop - i <= Z.of_nat fuel →
  Py.range_up fuel i stop step
  = (fun k : nat => i + Z.of_nat k * step)
      <$> seq 0 (Z.to_nat (ceil_div (stop - i) step)).
Proof.
  intros Hstep. revert i. induction fuel as [|fuel IH]; intros i Hfuel; simpl.
  - pose proof (ceil_div_nonpos (stop - i) step Hstep ltac:(lia)).
    by rewrite Z2Nat.nonpos by done.
  - destruct (Z.ltb_spec i stop) as [Hlt|Hge].
    + rewrite IH by lia.
      replace (stop - (i + step)) with (stop - i - step) by lia.
      rewrite ceil_div_step by done.
      assert (1 <= ceil_div (stop - i) step) as Hc.
      { destruct (Z.le_gt_cases 1 (ceil_div (stop - i) step)) as [|Hc];
          [done|].
        pose proof (proj1 (ceil_div_spec (stop - i) step _ Hstep) eq_refl).
        nia. }
      replace (Z.to_nat (ceil_div (stop - i) step))
        with (S (Z.to_nat (ceil_div (stop - i) step - 1))) by lia.
      simpl. f_equal; [lia|].
      rewrite <- fmap_S_seq, <- list_fmap_compose.
      apply list_fmap_ext. intros _ k _. simpl. lia.
    + pose proof (ceil_div_nonpos (stop - i) step Hstep ltac:(lia)).
      by rewrite Z2Nat.nonpos by done.
Qed.

Context {A B : Type} (f : A → result B).

Lemma traverse_Ok (l : list A) (ys : list B) :
  traverse f l = Ok ys ↔ Forall2 (fun x y => f x = Ok y) l ys.
Proof.
  revert ys. induction l as [|x l IH]; intros ys; simpl.
  - split; [intros [= <-]; constructor|by intros ->%Forall2_nil_inv_l].
  - split.
    + destruct (f x) as [y|] eqn:E; simpl; [|done].
      destruct (traverse f l) as [ys'|]; simpl; [|done].
      intros [= <-]. constructor; [done|]. by apply IH.
    + intros (y & ys' & Hy & Hys & ->)%Forall2_cons_inv_l.
      apply IH in Hys. by rewrite Hy, Hys.
Qed.

Lemma traverse_total (l : list A) :
  Forall (fun x => is_ok (f x) = true) l → ∃ ys, traverse f l = Ok ys.
Proof.
  induction 1 as [|x l Hx _ [ys IH]]; simpl; [by eexists|].
  destruct (f x) as [y|]; [|done]. rewrite IH. by eexists.
Qed.

Lemma traverse_slice (l : list A) (ys : list B) (lo hi : option Z) :
  traverse f l = Ok ys →
  traverse f (Py.slice l lo hi) = Ok (Py.slice ys lo hi).
Proof.
  rewrite !traverse_Ok. intros H. unfold Py.slice.
  rewrite <- (Forall2_length _ _ _ H).
  by apply Forall2_take, Forall2_drop.
Qed.

Lemma traverse_fmap {C} (g : C → A) (h : C → B) (l : list C) :
  (∀ x, x ∈ l → f (g x) = Ok (h x)) → traverse f (g <$> l) = Ok (h <$> l).
Proof.
  induction l as [|x l IH]; intros H; csimpl; [done|].
  rewrite (H x) by left. csimpl. rewrite IH; [done|].
  intros y Hy. apply H. by right.
Qed.

End BuildBatches.

Section Chunks.

Context {A : Type}.
Implicit Types (l : list A).

Lemma slice_chunk l (k : nat) (size : Z) :
  0 < size →
  Py.slice l (Some (Z.of_nat k * size)) (Some (Z.of_nat k * size + size))
  = take (Z.to_nat size) (drop (Z.to_nat (Z.of_nat k * size)) l).
Proof.
  intros Hsize. unfold Py.slice, Py.clamp. simpl.
  destruct (Z.ltb_spec (Z.of_nat k * size) 0); [nia|].
  destruct (Z.ltb_spec (Z.of_nat k * size + size) 0); [nia|].
  destruct (Z.le_gt_cases (Z.of_nat (length l)) (Z.of_nat k * size)).
  - rewrite !Z.min_r by lia. rewrite Z.sub_diag, Nat2Z.id.
    rewrite !drop_ge by lia. by rewrite !take_nil.
  - rewrite (Z.min_l (Z.of_nat k * size)) by lia.
    destruct (Z.le_gt_cases (Z.of_nat k * size + size) (Z.of_nat (length l))).
    + rewrite Z.min_l by lia. f_equal. lia.
    + rewrite Z.min_r by lia.
      rewrite !take_ge; [done|rewrite length_drop; lia..].
Qed.

Lemma concat_chunks (size c : nat) l :
  (length l <= c * size)%nat →
  concat ((fun k => take size (drop (k * size) l)) <$> seq 0 c) = l.
Proof.
  revert l. induction c as [|c IH]; intros l Hlen; csimpl.
  - destruct l; [done|simpl in Hlen; lia].
  - rewrite <- fmap_S_seq, <- list_fmap_compose. simpl.
    rewrite <- (take_drop size l) at 2. f_equal.
    rewrite <- (IH (drop size l)) by (rewrite length_drop; lia).
    f_equal. apply list_fmap_ext. intros _ k _. simpl.
    by rewrite drop_drop.
Qed.

End Chunks.

Lemma paper_of_row_id (row : Row) (rec : PaperRecord) :
  paper_of_row row = Ok rec → id rec = row_id row.
Proof.
  unfold paper_of_row.
  destruct (reconstruct_abstract _); simpl; [|done]. by intros [= <-].
Qed.

(** Batches of lines that all decode, for a batch size [B >= 1]: with [N]
    the number of lines, there are [ceil(N / B)] batches; batch [i] has
    start index [start + i * B] and holds the records of lines [i * B] to
    [i * B + B], at least one; and the batches in order concatenate to the
    records of the lines. *)
Lemma build_batches_decoded (args : Args) (sliced : list Row) :
  let size := arg_batch_size args in
  1 <= size →
  Forall (fun row => is_ok (paper_of_row row) = true) sliced →
  ∃ batches recs,
    build_batches args sliced = Ok batches
    ∧ traverse paper_of_row sliced = Ok recs
    ∧ id <$> recs = row_id <$> sliced
    ∧ Z.of_nat (length batches) = ceil_div (Z.of_nat (length sliced)) size
    ∧ (∀ (i : nat) (b : Batch), batches !! i = Some b →
         b.1 = arg_start args + Z.of_nat i * size
         ∧ b.2 = take (Z.to_nat size)
                      (drop (Z.to_nat (Z.of_nat i * size)) recs)
         ∧ b.2 ≠ [])
    ∧ concat (snd <$> batches) = recs.
Proof.
  intros size Hsize Hrows.
  destruct (traverse_total paper_of_row sliced Hrows) as [recs Hrecs].
  pose proof (proj1 (traverse_Ok _ _ _) Hrecs) as Hall.
  pose proof (Forall2_length _ _ _ Hall) as Hlen.
  set (n := Z.of_nat (length sliced)) in *.
  set (c := Z.to_nat (ceil_div n size)).
  pose proof (proj1 (ceil_div_spec n size _ ltac:(lia)) eq_refl) as Hc.
  assert (0 <= ceil_div n size) as Hc0 by (unfold n in *; nia).
  set (h := fun k : nat =>
              ((0 + Z.of_nat k * size) + arg_start args,
               Py.slice recs (Some (0 + Z.of_nat k * size))
                        (Some (0 + Z.of_nat k * size + size))) : Batch).
  assert (build_batches args sliced = Ok (h <$> seq 0 c)) as Hbuild.
  { unfold build_batches, Py.range. fold size. fold n.
    destruct (Z.eqb_spec size 0); [lia|].
    destruct (Z.ltb_spec 0 size); [|lia]. csimpl.
    rewrite range_up_closed by lia. rewrite Z.sub_0_r. fold c.
    apply traverse_fmap. intros k _. unfold h.
    by rewrite (traverse_slice _ _ _ _ _ Hrecs). }
  exists (h <$> seq 0 c), recs. split_and!; [done|done| | | |].
  - clear -Hall. induction Hall as [|row rec ? ? Hrec _ IH]; csimpl; [done|].
    by rewrite IH, (paper_of_row_id _ _ Hrec).
  - rewrite length_fmap, length_seq. unfold c. lia.
  - intros i b Hb. rewrite list_lookup_fmap in Hb.
    destruct (seq 0 c !! i) as [k|] eqn:Hk; [|done].
    apply lookup_seq in Hk as [-> Hi]. injection Hb as <-. unfold h. simpl.
    rewrite Z.add_0_l, slice_chunk by lia. split_and!; [lia|done|].
    intros E%(f_equal length). rewrite length_take, length_drop in E.
    simpl in E. unfold c, n in *. nia.
  - rewrite <- list_fmap_compose.
    etrans; [|apply (concat_chunks (Z.to_nat size) c recs);
                unfold c, n in *; nia].
    f_equal. apply list_fmap_ext. intros _ k _. unfold h. simpl.
    rewrite Z.add_0_l, slice_chunk by lia. do 2 f_equal. lia.
Qed.

(** ** Resume filter *)

(** Whatever the arguments, a batch that was built holds a record. *)
Lemma build_batches_nonempty (args : Args) (lines : list Row)
    (batches : list Batch) :
  build_batches args lines = Ok batches → Forall (fun b => b.2 ≠ []) batches.
Proof.
  unfold build_batches, Py.range.
  set (size := arg_batch_size args). set (n := Z.of_nat (length lines)).
  destruct (Z.eqb_spec size 0); [done|].
  destruct (Z.ltb_spec 0 size) as [Hsize|Hsize]; csimpl.
  - rewrite range_up_closed, Z.sub_0_r by lia.
    rewrite traverse_Ok. intros Hall. apply Forall_forall. intros b Hb.
    apply list_elem_of_lookup in Hb as [j Hj].
    destruct (Forall2_lookup_r _ _ _ _ _ Hall Hj) as (i & Hi & Hg).
    rewrite list_lookup_fmap in Hi.
    destruct (seq 0 _ !! j) as [k|] eqn:Hk; [|done].
    apply lookup_seq in Hk as [-> Hk]. injection Hi as <-.
    rewrite Z.add_0_l, slice_chunk in Hg by done.
    destruct (traverse paper_of_row _) as [recs|] eqn:Hrecs; [|done].
    injection Hg as <-. simpl.
    apply traverse_Ok, Forall2_length in Hrecs.
    intros ->. rewrite length_take, length_drop in Hrecs. simpl in Hrecs.
    pose proof (proj1 (ceil_div_spec n size _ Hsize) eq_refl).
    unfold n in *. nia.
  - replace (Z.to_nat (0 - n)) with 0%nat by lia. simpl.
    intros [= <-]. constructor.
Qed.

Lemma fully_processed_Forall (processed_ids : gset string) (b : Batch) :
  fully_processed processed_ids b = true
  ↔ Forall (fun r => id r ∈ processed_ids) b.2.
Proof.
  unfold fully_processed. rewrite forallb_forall, Forall_forall.
  split; intros H r Hr.
  - apply list_elem_of_In in Hr. apply H in Hr. by apply bool_decide_eq_true in Hr.
  - apply bool_decide_eq_true, H. by apply list_elem_of_In.
Qed.

(** C2. For every resume set, a batch that was built is left out of the
    work queue exactly when all of its ids are in the set; the queue is the
    batches with some id outside the set, whole and in their order. *)
Theorem skip_processed_iff (args : Args) (lines : list Row)
    (batches : list Batch) (processed_ids : gset string) :
  build_batches args lines = Ok batches →
  skip_processed processed_ids batches
  = filter (fun b : Batch => Exists (fun r => id r ∉ processed_ids) b.2) batches
  ∧ ∀ b, b ∈ batches →
      (b ∉ skip_processed processed_ids batches
       ↔ Forall (fun r => id r ∈ processed_ids) b.2).
Proof.
  intros Hne%build_batches_nonempty.
  assert (skip_processed processed_ids batches
          = filter (fun b : Batch => Exists (fun r => id r ∉ processed_ids) b.2)
                   batches) as Heq.
  { unfold skip_processed. case_bool_decide as Hset.
    - clear Hne. induction batches as [|b batches IH]; [done|].
      simpl. rewrite filter_cons, IH.
      destruct (fully_processed processed_ids b) eqn:E; simpl.
      + apply fully_processed_Forall in E.
        rewrite decide_False; [done|]. rewrite <- Forall_Exists_neg. 
        eapply Forall_impl; [done|]. naive_solver.
      + rewrite decide_True; [done|].
        apply not_Forall_Exists; [apply _|].
        rewrite <- fully_processed_Forall. congruence.
    - assert (processed_ids = ∅) as -> by (by destruct (decide (processed_ids = ∅))).
      induction Hne as [|b batches Hb _ IH]; [done|].
      rewrite filter_cons, <- IH, decide_True; [done|].
      destruct (b.2) as [|r rs]; [done|]. left. set_solver. }
  split; [done|]. intros b Hb. rewrite Heq, list_elem_of_filter. split.
  - intros H. apply Forall_forall. intros r Hr.
    destruct (decide (id r ∈ processed_ids)) as [|Hn]; [done|].
    exfalso. apply H. split; [|done]. apply Exists_exists. by exists r.
  - intros H [(r & Hr & Hn)%Exists_exists _].
    rewrite Forall_forall in H. by apply Hn, H.
Qed.

Lemma skip_processed_iff_witness :
  ∃ batches,
    build_batches default_args sample_lines = Ok batches
    ∧ skip_processed ids_A_to_J batches
      = filter (fun b : Batch => Exists (fun r => id r ∉ ids_A_to_J) b.2) batches
    ∧ ∀ b, b ∈ batches →
        (b ∉ skip_processed ids_A_to_J batches
         ↔ Forall (fun r => id r ∈ ids_A_to_J) b.2).
Proof.
  eexists. split; [reflexivity|].
  apply (skip_processed_iff default_args sample_lines _ ids_A_to_J).
  reflexivity.
Defined.

(** The first batch is covered by the ids [A] to [J] and is dropped; when
    the set also covers half of the second batch, that batch still runs
    whole. With an empty set nothing is dropped. *)
Example skip_processed_samples :
  batch_shapes (skip_processed ids_A_to_J <$> build_batches default_args sample_lines)
  = [(10, 10%nat); (20, 5%nat)]
  ∧ batch_shapes (skip_processed ids_A_to_O <$> build_batches default_args sample_lines)
    = [(10, 10%nat); (20, 5%nat)]
  ∧ batch_shapes (skip_processed ∅ <$> build_batches default_args sample_lines)
    = [(0, 10%nat); (10, 10%nat); (20, 5%nat)].
Proof. by vm_compute. Qed.

(** ** Response parsing *)

Section StrLemmas.

Implicit Types (s pre mid post : string) (c : ascii).

Local Abbreviation len s := (Z.of_nat (String.length s)).
Local Arguments String.append !_ _ / : simpl nomatch.

Lemma str_app_assoc s1 s2 s3 : (s1 +:+ s2) +:+ s3 = s1 +:+ s2 +:+ s3.
Proof. induction s1 as [|a s1 IH]; simpl; [done|by rewrite IH]. Qed.

Lemma str_app_length s1 s2 :
  String.length (s1 +:+ s2) = (String.length s1 + String.length s2)%nat.
Proof. induction s1 as [|a s1 IH]; simpl; [done|by rewrite IH]. Qed.

Lemma contains_char_app c s1 s2 :
  Py.contains_char c (s1 +:+ s2)
  = Py.contains_char c s1 || Py.contains_char c s2.
Proof.
  induction s1 as [|a s1 IH]; simpl; [done|]. by rewrite IH, orb_assoc.
Qed.

(** Two splits of one string: the shorter prefix is a prefix of the
    longer. *)
Lemma append_split s1 s2 t1 t2 :
  s1 +:+ s2 = t1 +:+ t2 → (String.length s1 <= String.length t1)%nat →
  ∃ m, t1 = s1 +:+ m ∧ s2 = m +:+ t2.
Proof.
  revert t1. induction s1 as [|a s1 IH]; intros t1; simpl.
  - intros -> _. by exists t1.
  - destruct t1 as [|b t1]; simpl; [lia|].
    intros [= -> H] Hlen. destruct (IH t1 H ltac:(lia)) as (m & -> & ->).
    by exists m.
Qed.

Lemma find_from_found c pre rest i :
  Py.contains_char c pre = false →
  Str.find_from c (pre +:+ String c rest) i = i + len pre.
Proof.
  revert i. induction pre as [|a pre IH]; intros i; simpl.
  - rewrite Ascii.eqb_refl. lia.
  - intros [-> Hpre]%orb_false_elim. rewrite IH by done. lia.
Qed.

Lemma find_from_inv c s i j :
  Str.find_from c s i = j → j ≠ -1 → 0 <= i →
  ∃ pre rest, s = pre +:+ String c rest
              ∧ Py.contains_char c pre = false ∧ j = i + len pre.
Proof.
  revert i. induction s as [|a s IH]; intros i; simpl; [congruence|].
  destruct (Ascii.eqb_spec a c) as [->|Hne].
  - intros <- _ _. exists "", s. simpl. split_and!; [done..|lia].
  - intros Hj Hne' Hi.
    destruct (IH _ Hj Hne' ltac:(lia)) as (pre & rest & -> & Hpre & ->).
    exists (String a pre), rest. simpl.
    rewrite Hpre, (proj2 (Ascii.eqb_neq a c) Hne). split_and!; [done..|lia].
Qed.

Lemma rfind_from_app c s1 s2 i last :
  Str.rfind_from c (s1 +:+ s2) i last
  = Str.rfind_from c s2 (i + len s1) (Str.rfind_from c s1 i last).
Proof.
  revert i last. induction s1 as [|a s1 IH]; intros i last; simpl.
  - f_equal. lia.
  - rewrite IH. f_equal. lia.
Qed.

Lemma rfind_from_none c s i last :
  Py.contains_char c s = false → Str.rfind_from c s i last = last.
Proof.
  revert i last. induction s as [|a s IH]; intros i last; simpl; [done|].
  intros [-> Hs]%orb_false_elim. by apply IH.
Qed.

Lemma rfind_from_found c pre post i last :
  Py.contains_char c post = false →
  Str.rfind_from c (pre +:+ String c post) i last = i + len pre.
Proof.
  intros Hpost. rewrite rfind_from_app. simpl.
  by rewrite Ascii.eqb_refl, rfind_from_none.
Qed.

Lemma rfind_from_cases c s i last :
  (Str.rfind_from c s i last = last ∧ Py.contains_char c s = false)
  ∨ ∃ pre post, s = pre +:+ String c post
                ∧ Py.contains_char c post = false
                ∧ Str.rfind_from c s i last = i + len pre.
Proof.
  revert i last. induction s as [|a s IH]; intros i last; simpl; [by left|].
  destruct (IH (i + 1) (if Ascii.eqb a c then i else last))
    as [[Hr Hs]|(pre & post & -> & Hpost & Hr)].
  - rewrite Hr, Hs. destruct (Ascii.eqb_spec a c) as [->|_]; [|by left].
    right. exists "", s. simpl. split_and!; [done..|lia].
  - right. exists (String a pre), post. simpl. split_and!; [done..|].
    rewrite Hr. lia.
Qed.

Lemma lstrip_nonspace a s :
  Str.is_space a = false → Str.lstrip (String a s) = String a s.
Proof. intros H. simpl. by rewrite H. Qed.

Lemma rstrip_nonspace s a :
  Str.is_space a = false →
  Str.rstrip (s +:+ String a "") = s +:+ String a "".
Proof.
  intros H. induction s as [|b s IH]; simpl.
  - by rewrite H.
  - rewrite IH. by destruct s.
Qed.

Lemma list_ascii_app s1 s2 :
  String.list_ascii_of_string (s1 +:+ s2)
  = String.list_ascii_of_string s1 ++ String.list_ascii_of_string s2.
Proof. induction s1 as [|a s1 IH]; simpl; [done|by rewrite IH]. Qed.

Lemma list_ascii_length s :
  length (String.list_ascii_of_string s) = String.length s.
Proof. induction s as [|a s IH]; simpl; [done|by rewrite IH]. Qed.

(** The slice that starts after [pre] and spans [mid]. *)
Lemma slice_middle pre mid post :
  Str.slice (pre +:+ mid +:+ post) (len pre) (len pre + len mid) = mid.
Proof.
  unfold Str.slice, Py.slice, Py.clamp. simpl.
  rewrite !list_ascii_app, !length_app, !list_ascii_length.
  destruct (Z.ltb_spec (len pre) 0); [lia|].
  destruct (Z.ltb_spec (len pre + len mid) 0); [lia|].
  rewrite !Z.min_l by lia.
  replace (Z.to_nat (len pre))
    with (length (String.list_ascii_of_string pre))
    by (rewrite list_ascii_length; lia).
  rewrite drop_app_length.
  replace (Z.to_nat _) with (length (String.list_ascii_of_string mid))
    by (rewrite !list_ascii_length; lia).
  rewrite take_app_length. apply String.string_of_list_ascii_of_string.
Qed.

End StrLemmas.

Section ParseModelJson.

Variable json_loads : string → option json.

Local Arguments String.append !_ _ / : simpl nomatch.

Lemma as_list_Some (o : option json) (l : list json) :
  as_list o = Some l ↔ o = Some (JArr l).
Proof.
  split; [|by intros ->].
  destruct o as [[]|]; simpl; try done. by intros [= ->].
Qed.

(** The fallback: the text from the first [[] to the last []]. *)
Lemma parse_model_json_fallback (text pre mid post : string) :
  as_list (json_loads (Str.strip text)) = None →
  Str.strip text = pre +:+ String "[" (mid +:+ String "]" post) →
  Py.contains_char "[" pre = false → Py.contains_char "]" post = false →
  parse_model_json json_loads text
  = as_list (json_loads (String "[" (mid +:+ String "]" ""))).
Proof.
  intros Hdirect Ht Hpre Hpost. unfold parse_model_json.
  rewrite Hdirect, Ht. unfold Str.find, Str.rfind.
  rewrite find_from_found by done.
  replace (pre +:+ String "[" (mid +:+ String "]" post))
    with ((pre +:+ String "[" mid) +:+ String "]" post)
    by (by rewrite str_app_assoc).
  rewrite rfind_from_found by done.
  rewrite str_app_length. simpl String.length.
  set (n := Z.of_nat (String.length pre)).
  set (m := Z.of_nat (String.length mid)).
  destruct (Z.eqb_spec (0 + n) (-1)); [lia|].
  destruct (Z.eqb_spec (0 + Z.of_nat (String.length pre + S (String.length mid))) (-1));
    [lia|].
  destruct (Z.ltb_spec (0 + n) (0 + Z.of_nat (String.length pre + S (String.length mid))));
    [|lia].
  simpl negb. simpl andb. cbv iota. do 2 f_equal.
  replace ((pre +:+ String "[" mid) +:+ String "]" post)
    with (pre +:+ String "[" (mid +:+ String "]" "") +:+ post)
    by (rewrite !str_app_assoc; simpl; by rewrite str_app_assoc).
  replace (0 + Z.of_nat (String.length pre + S (String.length mid)) + 1)
    with (n + Z.of_nat (String.length (String "[" (mid +:+ String "]" ""))))
    by (simpl; rewrite str_app_length; simpl; lia).
  rewrite Z.add_0_l. apply slice_middle.
Qed.

(** A result that does not come from the direct parse comes from the
    text between the first [[] and the last []]. *)
Lemma parse_model_json_inv (text : string) (l : list json) :
  parse_model_json json_loads text = Some l →
  json_loads (Str.strip text) = Some (JArr l)
  ∨ ∃ pre mid post,
      Str.strip text = pre +:+ String "[" (mid +:+ String "]" post)
      ∧ Py.contains_char "[" pre = false
      ∧ Py.contains_char "]" post = false
      ∧ json_loads (String "[" (mid +:+ String "]" "")) = Some (JArr l).
Proof.
  intros Hparse. pose proof Hparse as Hp. unfold parse_model_json in Hp.
  destruct (as_list (json_loads (Str.strip text))) as [obj|] eqn:Hdirect.
  { left. injection Hp as ->. by apply as_list_Some. }
  right. set (t := Str.strip text) in *.
  destruct (Z.eqb_spec (Str.find "[" t) (-1)) as [|Hstart]; [done|].
  destruct (Z.eqb_spec (Str.rfind "]" t) (-1)) as [|Hend]; [done|].
  destruct (Z.ltb_spec (Str.find "[" t) (Str.rfind "]" t)) as [Hlt|];
    [|done].
  clear Hp.
  destruct (find_from_inv "[" t 0 _ eq_refl Hstart ltac:(lia))
    as (pre & rest & Ht & Hpre & Hfind).
  destruct (rfind_from_cases "]" t 0 (-1))
    as [[Hr _]|(pre2 & post & Ht2 & Hpost & Hrfind)]; [done|].
  unfold Str.find, Str.rfind in Hlt. rewrite Hfind, Hrfind in Hlt.
  destruct (append_split pre (String "[" rest) pre2 (String "]" post))
    as (m & -> & Hm); [congruence|lia|].
  destruct m as [|a mid].
  { rewrite str_app_length in Hlt. simpl in Hlt. lia. }
  simpl in Hm. injection Hm as <- ->.
  exists pre, mid, post. split_and!; [done..|].
  apply as_list_Some.
  by rewrite <- (parse_model_json_fallback text pre mid post).
Qed.

Lemma reply_body_brackets (rest : string) :
  reply_body rest
  = "[" +:+ ("{" +:+ dq +:+ "id" +:+ dq +:+ ":1," +:+ rest +:+ "}") +:+ "]".
Proof.
  unfold reply_body. change "[{" with ("[" +:+ "{").
  change "}]" with ("}" +:+ "]"). by rewrite !str_app_assoc.
Qed.

Lemma strip_reply (rest : string) :
  Str.strip (reply_text rest) = reply_text rest.
Proof.
  unfold Str.strip.
  assert (Str.lstrip (reply_text rest) = reply_text rest) as -> by done.
  unfold reply_text. rewrite reply_body_brackets.
  rewrite <- !str_app_assoc. by apply rstrip_nonspace.
Qed.

End ParseModelJson.

(** C6. [parse_model_json] first decodes the stripped text and returns the
    result if it is a list. Failing that, it decodes the text from the
    first [[] to the last []] and returns that if it is a list. It returns
    [None] in every other case: a list returned comes from one of the two.
    A reply [Here you go: [{"id":1,...}]] that is not JSON as a whole, and
    whose bracketed part decodes to a list, parses to that list. *)
Theorem parse_model_json_spec (json_loads : string → option json)
    (text : string) :
  (∀ l, json_loads (Str.strip text) = Some (JArr l) →
        parse_model_json json_loads text = Some l)
  ∧ (∀ pre mid post,
       as_list (json_loads (Str.strip text)) = None →
       Str.strip text = pre +:+ "[" +:+ mid +:+ "]" +:+ post →
       Py.contains_char "[" pre = false →
       Py.contains_char "]" post = false →
       parse_model_json json_loads text
       = as_list (json_loads ("[" +:+ mid +:+ "]")))
  ∧ (∀ l, parse_model_json json_loads text = Some l →
       json_loads (Str.strip text) = Some (JArr l)
       ∨ ∃ pre mid post,
           Str.strip text = pre +:+ "[" +:+ mid +:+ "]" +:+ post
           ∧ Py.contains_char "[" pre = false
           ∧ Py.contains_char "]" post = false
           ∧ json_loads ("[" +:+ mid +:+ "]") = Some (JArr l))
  ∧ (∀ rest l,
       text = reply_text rest →
       as_list (json_loads (reply_text rest)) = None →
       json_loads (reply_body rest) = Some (JArr l) →
       parse_model_json json_loads text = Some l).
Proof.
  split_and!.
  - intros l Hl. unfold parse_model_json. by rewrite Hl.
  - intros pre mid post. apply parse_model_json_fallback.
  - apply parse_model_json_inv.
  - intros rest l -> Hdirect Hbody.
    rewrite <- (strip_reply rest) in Hdirect.
    rewrite reply_body_brackets in Hbody.
    rewrite (parse_model_json_fallback json_loads (reply_text rest)
               "Here you go: "
               ("{" +:+ dq +:+ "id" +:+ dq +:+ ":1," +:+ rest +:+ "}") "");
      [by apply as_list_Some|done| |done..].
    rewrite strip_reply. unfold reply_text. by rewrite reply_body_brackets.
Qed.

Lemma parse_model_json_spec_witness :
  parse_model_json TinyJson.loads (reply_text sample_rest)
  = Some [JObj [("id", JInt 1); ("promising", JBool true)]].
Proof.
  apply (proj2 (proj2 (proj2
           (parse_model_json_spec TinyJson.loads (reply_text sample_rest))))
           sample_rest).
  - reflexivity.
  - by vm_compute.
  - by vm_compute.
Defined.

(** Direct parse, fallback, and the three ways to [None]: no bracket, a
    closing bracket before the opening one, and brackets around text that
    is not JSON, as are three literal dots. *)
Example parse_model_json_samples :
  parse_model_json TinyJson.loads sample_reply = Some [JObj [("id", JInt 1)]]
  ∧ parse_model_json TinyJson.loads "  [1, 2]  " = Some [JInt 1; JInt 2]
  ∧ parse_model_json TinyJson.loads "no list here" = None
  ∧ parse_model_json TinyJson.loads "] and [" = None
  ∧ parse_model_json TinyJson.loads "see [1, oops]" = None
  ∧ parse_model_json TinyJson.loads (reply_text "...") = None.
Proof. by vm_compute. Qed.

(** ** The rate limiter *)

Section LimiterProofs.

Variable calls_per_minute : Z.

Open Scope Q_scope.

Lemma expired_spec (now t : Q) : Limiter.expired now t = true ↔ t + 60 < now.
Proof.
  unfold Limiter.expired. rewrite negb_true_iff, <- not_true_iff_false.
  rewrite Qle_bool_iff. split; [intros H; lra|intros H; lra].
Qed.

Lemma in_window_app (t : Q) (l1 l2 : list Q) :
  Limiter.in_window t (l1 ++ l2)
  = (Limiter.in_window t l1 + Limiter.in_window t l2)%nat.
Proof. unfold Limiter.in_window. by rewrite List.filter_app, length_app. Qed.

Lemma in_window_le_length (t : Q) (l : list Q) :
  (Limiter.in_window t l <= length l)%nat.
Proof. apply List.filter_length_le. Qed.

(** Timestamps that lie more than 60 seconds before [now] are in no
    window that holds [now]. *)
Lemma in_window_expired (t now : Q) (old : list Q) :
  Forall (fun o => o + 60 < now) old → t <= now → now <= t + 60 →
  Limiter.in_window t old = 0%nat.
Proof.
  intros Hold H1 H2. unfold Limiter.in_window.
  induction Hold as [|o old Ho _ IH]; simpl; [done|].
  destruct (Qle_bool t o && Qle_bool o (t + 60)) eqn:E; [|done].
  apply andb_true_iff in E as [E1%Qle_bool_iff E2%Qle_bool_iff]. lra.
Qed.

Lemma dropwhile_split {A} (p : A → bool) (l : list A) :
  ∃ dropped, l = dropped ++ Py.dropwhile p l
             ∧ Forall (fun x => p x = true) dropped.
Proof.
  induction l as [|x l (dropped & IH & Hd)]; simpl.
  - by exists [].
  - destruct (p x) eqn:E.
    + exists (x :: dropped). split; [by rewrite IH at 1|by constructor].
    + by exists [].
Qed.

(** The invariant of a run: [old] are the admitted timestamps already
    evicted, [q] the deque, and the clock does not go backwards. *)
Lemma run_window (polls : list Q) :
  ∀ (old q : list Q) (prev : Q),
    Sorted Qle (prev :: polls) →
    Forall (fun o => o + 60 < prev) old →
    (∀ t, (Z.of_nat (Limiter.in_window t (old ++ q)) <= calls_per_minute)%Z) →
    ∀ t, (Z.of_nat (Limiter.in_window t
                      (old ++ q ++ (Limiter.run calls_per_minute polls q).1))
          <= calls_per_minute)%Z.
Proof.
  induction polls as [|now polls IH]; intros old q prev Hsorted Hold Hwin t.
  - simpl. by rewrite app_nil_r.
  - apply Sorted_inv in Hsorted as [Hsorted Hhd].
    apply HdRel_inv in Hhd. simpl. unfold Limiter.locked_region.
    destruct (dropwhile_split (Limiter.expired now) q)
      as (dropped & Hq & Hdropped).
    remember (Py.dropwhile (Limiter.expired now) q) as q' eqn:Hq'.
    clear Hq'. subst q.
    assert (Forall (fun o => o + 60 < now) (old ++ dropped)) as Hold'.
    { apply Forall_app. split.
      - eapply Forall_impl; [done|]. simpl. intros o Ho. lra.
      - eapply Forall_impl; [done|]. simpl. by intros o ?%expired_spec. }
    destruct (Z.ltb_spec (Z.of_nat (length q')) calls_per_minute) as [Hlt|Hge].
    + destruct (Limiter.run calls_per_minute polls (q' ++ [now]))
        as [adm qf] eqn:Hrun. simpl.
      specialize (IH (old ++ dropped) (q' ++ [now]) now Hsorted Hold').
      rewrite Hrun in IH. simpl in IH.
      replace (old ++ (dropped ++ q') ++ now :: adm)
        with ((old ++ dropped) ++ (q' ++ [now]) ++ adm)
        by (by rewrite <- !app_assoc).
      apply IH. clear IH. intros t'.
      rewrite !in_window_app.
      destruct (Qlt_le_dec now t') as [Hout|Hin1];
        [|destruct (Qlt_le_dec (t' + 60) now) as [Hout|Hin2]].
      * assert (Limiter.in_window t' [now] = 0%nat) as ->.
        { unfold Limiter.in_window. simpl.
          destruct (Qle_bool t' now) eqn:E; [|done].
          apply Qle_bool_iff in E. lra. }
        specialize (Hwin t'). rewrite !in_window_app in Hwin. lia.
      * assert (Limiter.in_window t' [now] = 0%nat) as ->.
        { unfold Limiter.in_window. simpl.
          destruct (Qle_bool now (t' + 60)) eqn:E;
            [|by rewrite andb_false_r].
          apply Qle_bool_iff in E. lra. }
        specialize (Hwin t'). rewrite !in_window_app in Hwin. lia.
      * apply Forall_app in Hold' as [Ho Hd].
        rewrite (in_window_expired t' now old Ho Hin1 Hin2).
        rewrite (in_window_expired t' now dropped Hd Hin1 Hin2).
        pose proof (in_window_le_length t' q').
        pose proof (in_window_le_length t' [now]). simpl in *. lia.
    + destruct (Limiter.run calls_per_minute polls q') as [adm qf] eqn:Hrun.
      simpl.
      specialize (IH (old ++ dropped) q' now Hsorted Hold').
      rewrite Hrun in IH. simpl in IH.
      replace (old ++ (dropped ++ q') ++ adm)
        with ((old ++ dropped) ++ q' ++ adm)
        by (by rewrite <- !app_assoc).
      apply IH. intros t'. specialize (Hwin t').
      by rewrite app_assoc in Hwin.
Qed.

Lemma dropwhile_Forall {A} (p : A → bool) (P : A → Prop) (l : list A) :
  Forall P l → Forall P (Py.dropwhile p l).
Proof.
  destruct (dropwhile_split p l) as (dropped & Hl & _).
  rewrite Hl at 1. by intros [_ ?]%Forall_app.
Qed.

(** On a deque in time order, what the eviction leaves is the trailing
    window. *)
Lemma dropwhile_trailing (now : Q) (q : list Q) :
  StronglySorted Qle q →
  Py.dropwhile (Limiter.expired now) q = trailing now q.
Proof.
  induction 1 as [|t q Hq IH Ht]; simpl; [done|].
  unfold Limiter.expired at 1.
  destruct (Qle_bool (now - t) 60) eqn:E; simpl; [|done].
  f_equal. clear IH Hq. apply Qle_bool_iff in E.
  induction Ht as [|t' q Ht' _ IH]; simpl; [done|].
  rewrite (proj2 (Qle_bool_iff (now - t') 60)) by lra. by rewrite <- IH.
Qed.

Lemma StronglySorted_snoc (q : list Q) (now : Q) :
  StronglySorted Qle q → Forall (fun t => t <= now) q →
  StronglySorted Qle (q ++ [now]).
Proof.
  induction 1 as [|t q Hq IH Ht]; intros Hle; simpl.
  - repeat constructor.
  - apply Forall_cons in Hle as [Hle1 Hle2]. constructor; [by apply IH|].
    apply Forall_app. split; [done|by repeat constructor].
Qed.

Lemma dropwhile_sorted {A} (R : relation A) (p : A → bool) (l : list A) :
  StronglySorted R l → StronglySorted R (Py.dropwhile p l).
Proof.
  induction 1 as [|x l Hl IH Hx]; simpl; [constructor|].
  destruct (p x); [done|by constructor].
Qed.

(** While the clock does not go backwards the deque stays in time
    order. *)
Lemma run_deque_sorted (polls : list Q) :
  ∀ (q : list Q) (prev : Q),
    Sorted Qle (prev :: polls) →
    StronglySorted Qle q → Forall (fun t => t <= prev) q →
    StronglySorted Qle (Limiter.run calls_per_minute polls q).2.
Proof.
  induction polls as [|now polls IH]; intros q prev Hsorted Hq Hle; [done|].
  apply Sorted_inv in Hsorted as [Hsorted Hhd]. apply HdRel_inv in Hhd.
  simpl. unfold Limiter.locked_region.
  set (q' := Py.dropwhile (Limiter.expired now) q).
  assert (StronglySorted Qle q') as Hq' by by apply dropwhile_sorted.
  assert (Forall (fun t => t <= now) q') as Hle'.
  { apply dropwhile_Forall. eapply Forall_impl; [done|].
    simpl. intros t Ht. lra. }
  destruct (Z.ltb_spec (Z.of_nat (length q')) calls_per_minute).
  - destruct (Limiter.run calls_per_minute polls (q' ++ [now]))
      as [adm qf] eqn:Hrun.
    change qf with (adm, qf).2. rewrite <- Hrun.
    apply (IH _ now); [done|by apply StronglySorted_snoc|].
    apply Forall_app. split; [done|]. repeat constructor. lra.
  - destruct (Limiter.run calls_per_minute polls q') as [adm qf] eqn:Hrun.
    change qf with (adm, qf).2. rewrite <- Hrun. by apply (IH _ now).
Qed.

End LimiterProofs.

(** A call of [wait_for_slot] that returns is a run of passes through the
    locked region, the first at the time of the call and each later one a
    sleep after the one before, of which the last alone is admitted. *)
Lemma wait_for_slot_is_run (args : Args) (fuel : nat) :
  ∀ w w' : World,
    wait_for_slot args fuel w = Some w' →
    ∃ rest,
      Sorted Qle (clock w :: rest)
      ∧ Limiter.run (arg_calls_per_minute args) (clock w :: rest)
                    (call_timestamps w)
        = ([clock w'], call_timestamps w').
Proof.
  induction fuel as [|fuel IH]; intros w w'; [done|]. simpl.
  destruct (Limiter.locked_region (arg_calls_per_minute args) (clock w)
              (call_timestamps w)) as [[|] q] eqn:Hpass.
  - intros [= <-]. exists []. split; [repeat constructor|done].
  - intros Hrest. destruct (IH _ _ Hrest) as (rest & Hsorted & Hrun).
    exists (clock (sleep (1 # 5) (set_call_timestamps q w)) :: rest).
    split.
    + constructor; [done|]. constructor. simpl. lra.
    + simpl in Hrun |- *. by rewrite Hrun.
Qed.

(** Polling at a full deque waits for the oldest timestamp to be more than
    60 seconds old: at 60 it still counts, at 61 it is evicted. *)
Example limiter_sample :
  Limiter.admitted 2 sample_polls = [0; 20; 61; 81]%Q
  ∧ Limiter.admitted 0 sample_polls = []
  ∧ Limiter.admitted (-1) sample_polls = [].
Proof. by vm_compute. Qed.

(** ** The retry loop *)

Section WaitForSlot.

Variable args : Args.
Hypothesis cap_positive : 1 <= arg_calls_per_minute args.

Open Scope Q_scope.

Lemma dropwhile_all {A} (p : A → bool) (l : list A) :
  Forall (fun x => p x = true) l → Py.dropwhile p l = [].
Proof. induction 1 as [|x l Hx _ IH]; simpl; [done|by rewrite Hx]. Qed.

Lemma fifth_succ (k : nat) :
  Z.of_nat (S k) # 5 == (Z.of_nat k # 5) + (1 # 5).
Proof. unfold Qeq, Qplus. simpl. lia. Qed.

(** If every timestamp is more than 60 seconds old after [k] sleeps, the
    loop returns within [k + 1] turns. *)
Lemma wait_for_slot_fuel (k : nat) :
  ∀ (fuel : nat) (w : World),
    Forall (fun t => t + 60 < clock w + (Z.of_nat k # 5)) (call_timestamps w) →
    deque_past w → (k < fuel)%nat →
    ∃ w', wait_for_slot args fuel w = Some w' ∧ slot_granted w w'.
Proof.
  induction k as [|k IH]; intros fuel w Hold Hpast Hfuel;
    (destruct fuel as [|fuel]; [lia|]); simpl;
    unfold Limiter.locked_region;
    set (q := Py.dropwhile (Limiter.expired (clock w)) (call_timestamps w)).
  - assert (q = []) as ->.
    { apply dropwhile_all. eapply Forall_impl; [exact Hold|]. simpl.
      intros t Ht. apply expired_spec.
      assert (Z.of_nat 0 # 5 == 0) by reflexivity. lra. }
    destruct (Z.ltb_spec (Z.of_nat (length (@nil Q))) (arg_calls_per_minute args));
      [|simpl in *; lia].
    eexists. split; [done|]. exists [EvSlot (clock w)].
    split_and!; simpl; [done|by repeat constructor| |lra].
    unfold deque_past. simpl. repeat constructor. lra.
  - assert (Forall (fun t => t <= clock w) q) as Hq.
    { by apply dropwhile_Forall. }
    destruct (Z.ltb_spec (Z.of_nat (length q)) (arg_calls_per_minute args)).
    + eexists. split; [done|]. exists [EvSlot (clock w)].
      split_and!; simpl; [done|by repeat constructor| |lra].
      unfold deque_past. simpl. apply Forall_app. split; [done|].
      repeat constructor. lra.
    + destruct (IH fuel (sleep (1 # 5) (set_call_timestamps q w)))
        as (w' & Hw' & wait & Hev & Hwait & Hpast' & Hclock).
      * simpl. apply dropwhile_Forall. eapply Forall_impl; [exact Hold|].
        simpl. intros t Ht. pose proof (fifth_succ k). lra.
      * unfold deque_past. simpl. eapply Forall_impl; [exact Hq|].
        simpl. intros t Ht. lra.
      * lia.
      * exists w'. split; [done|]. exists (EvSleep (1 # 5) :: wait).
        simpl in Hev, Hclock.
        split_and!; [by rewrite Hev, <- app_assoc|by constructor|done|lra].
Qed.

(** [polls_enough] turns suffice whenever no timestamp lies in the
    future. *)
Lemma wait_for_slot_returns (fuel : nat) (w : World) :
  deque_past w → (polls_enough <= fuel)%nat →
  ∃ w', wait_for_slot args fuel w = Some w' ∧ slot_granted w w'.
Proof.
  intros Hpast Hfuel. apply (wait_for_slot_fuel 301); [|done|unfold polls_enough in *; lia].
  eapply Forall_impl; [exact Hpast|]. simpl. intros t Ht.
  assert (Z.of_nat 301 # 5 == 301 # 5) by reflexivity. lra.
Qed.

End WaitForSlot.

Section RetryLoop.

Variable json_loads : string → option json.
Variable str_exn : exn → string.
Variable post : Z → Z → nat → PostReply.
Variable args : Args.

Local Abbreviation reply_at := (reply json_loads post).
Local Abbreviation fails := (attempt_fails json_loads post).
Local Abbreviation parsed_at := (attempt_parsed json_loads post).
Local Abbreviation raw_at := (captured_raw json_loads post).
Local Abbreviation error_at := (error_text json_loads str_exn post).
Local Abbreviation last_raw := (last_captured json_loads post).
Local Abbreviation last_err := (last_error json_loads str_exn post).
Local Abbreviation turn := (turn_events json_loads post).

(** The call returns what [reply] says, and touches the world only by
    its own events. *)
Lemma call_openrouter_spec (b k : Z) (w : World) :
  ∃ call c,
    call_openrouter json_loads post b k w
    = (reply_at b k,
       {| clock := c; call_timestamps := call_timestamps w;
          events := events w ++ call |})
    ∧ call_events b k call
    ∧ (clock w <= c)%Q.
Proof.
  unfold reply, call_openrouter, sleep, emit.
  destruct (post b k 0) as [msg|status body]; simpl.
  - exists [EvPost b k], (clock w). split_and!; [done|by left|lra].
  - destruct (status =? 429); simpl.
    + exists [EvPost b k; EvSleep 5; EvPost b k], (clock w + 5)%Q.
      destruct (post b k 1); simpl; rewrite <- !app_assoc;
        (split_and!; [done|by right|lra]).
    + exists [EvPost b k], (clock w). split_and!; [done|by left|lra].
Qed.

(** One turn after the slot: its flag, its events and the locals it
    leaves. *)
Lemma attempt_once_spec (b k : Z) (st : Locals) (w : World) :
  0 <= k → parsed st = None →
  ∃ st' w' call,
    attempt_once json_loads str_exn post b k st w
    = (negb (fails b k), st', w')
    ∧ events w' = events w ++ call
                  ++ (if fails b k
                      then [EvSleep (1 + inject_Z k)] else [])
    ∧ call_events b k call
    ∧ call_timestamps w' = call_timestamps w
    ∧ (clock w <= clock w')%Q
    ∧ parsed st' = parsed_at b k
    ∧ response_text st' = default (response_text st) (raw_at b k)
    ∧ error_msg st' = match error_at b k with
                      | Some m => Some m
                      | None => error_msg st
                      end.
Proof.
  intros Hk Hparsed. unfold attempt_once, sleep, emit.
  destruct (call_openrouter_spec b k w) as (call & c & -> & Hcall & Hclock).
  assert (0 <= 1 + inject_Z k)%Q as Hback.
  { assert (0 <= inject_Z k)%Q; [|lra].
    change 0%Q with (inject_Z 0). by rewrite <- Zle_Qle. }
  unfold attempt_fails, attempt_parsed, captured_raw, error_text.
  destruct (reply_at b k) as [text|e]; simpl;
    [destruct (parse_model_json_value json_loads text) as [[obj|]|e]; simpl|].
  - exists {| response_text := text; parsed := Some obj;
              error_msg := error_msg st |}.
    do 2 eexists. split; [reflexivity|]. simpl.
    split_and!; [by rewrite app_nil_r|done..].
  - exists {| response_text := text; parsed := None;
              error_msg := Some "parse_error" |}.
    do 2 eexists. split; [reflexivity|]. simpl.
    split_and!; [by rewrite <- app_assoc|done|done|lra|done..].
  - exists {| response_text := text; parsed := parsed st;
              error_msg := Some ("exception: " +:+ str_exn e) |}.
    do 2 eexists. split; [reflexivity|]. simpl.
    split_and!; [by rewrite <- app_assoc|done|done|lra|done..].
  - exists {| response_text := response_text st; parsed := parsed st;
              error_msg := Some ("exception: " +:+ str_exn e) |}.
    do 2 eexists. split; [reflexivity|]. simpl.
    split_and!; [by rewrite <- app_assoc|done|done|lra|done..].
Qed.

Lemma last_omap_snoc {X} (f : Z → option X) (done : list Z) (k : Z) :
  last (omap f (done ++ [k]))
  = match f k with
    | Some x => Some x
    | None => last (omap f done)
    end.
Proof.
  rewrite omap_app. simpl. destruct (f k); [apply last_snoc|].
  by rewrite app_nil_r.
Qed.

Lemma fails_parsed (b k : Z) : fails b k = true ↔ parsed_at b k = None.
Proof. unfold attempt_fails. by destruct (parsed_at b k). Qed.

Hypothesis cap_positive : 1 <= arg_calls_per_minute args.

(** The loop over the attempts [ks], entered after the failed attempts
    [done]: it makes [n] of them, each with the events of a turn, and
    stops before the end only at a success. *)
Lemma retry_loop_spec (fuel : nat) (b : Z) (ks : list Z) :
  (polls_enough <= fuel)%nat → Forall (fun k => 0 <= k) ks →
  ∀ (done : list Z) (st : Locals) (w : World),
    deque_past w → parsed st = None →
    response_text st = default JNull (last_raw b done) →
    error_msg st = last_err b done →
    ∃ (n : nat) st' w' turns,
      retry_loop json_loads str_exn post args fuel ks b st w = Some (st', w')
      ∧ events w' = events w ++ concat turns
      ∧ Forall2 (turn b) (take n ks) turns
      ∧ (n <= length ks)%nat
      ∧ Forall (fun k => fails b k = true) (take (pred n) ks)
      ∧ deque_past w'
      ∧ ((n = length ks
          ∧ Forall (fun k => fails b k = true) ks
          ∧ parsed st' = None
          ∧ response_text st' = default JNull (last_raw b (done ++ ks))
          ∧ error_msg st' = last_err b (done ++ ks))
         ∨ (∃ k obj, ks !! pred n = Some k ∧ (0 < n)%nat
                     ∧ parsed_at b k = Some obj
                     ∧ parsed st' = Some obj
                     ∧ raw_at b k = Some (response_text st'))).
Proof.
  intros Hfuel. induction 1 as [|k ks Hk Hks IH];
    intros done st w Hpast Hparsed Hraw Herr.
  - exists 0%nat, st, w, []. simpl. rewrite !app_nil_r.
    split_and!; [done|done|constructor|lia|constructor|done|].
    left. by repeat split.
  - destruct (wait_for_slot_returns args cap_positive fuel w Hpast Hfuel)
      as (w1 & Hw1 & wait & Hev1 & Hwait & Hpast1 & Hclock1).
    destruct (attempt_once_spec b k st w1 Hk Hparsed)
      as (st1 & w2 & call & Hatt & Hev2 & Hcall & Hq2 & Hclock2
          & Hp1 & Hr1 & He1).
    assert (deque_past w2) as Hpast2.
    { unfold deque_past in *. rewrite Hq2.
      eapply Forall_impl; [exact Hpast1|]. simpl. intros t Ht. lra. }
    set (this := wait ++ call
                 ++ (if fails b k then [EvSleep (1 + inject_Z k)] else [])).
    assert (turn b k this) as Hturn by (by exists wait, call).
    assert (events w2 = events w ++ this) as Hev.
    { unfold this. by rewrite Hev2, Hev1, <- app_assoc. }
    simpl. rewrite Hw1. simpl. rewrite Hatt.
    destruct (fails b k) eqn:Hfail; simpl.
    + apply fails_parsed in Hfail as Hnone.
      destruct (IH (done ++ [k]) st1 w2) as
        (n & st' & w' & turns & Hloop & Hevs & Hturns & Hn & Hfails
         & Hpast' & Hend); [done|congruence| | |].
      { rewrite Hr1, Hraw. unfold last_captured.
        rewrite last_omap_snoc. by destruct (raw_at b k). }
      { rewrite He1, Herr. unfold last_error.
        rewrite last_omap_snoc. by destruct (error_at b k). }
      exists (S n), st', w', (this :: turns). simpl.
      split_and!; [done|by rewrite Hevs, Hev, <- app_assoc
                  |by constructor|lia| |done|].
      * destruct n as [|n]; simpl; [constructor|].
        constructor; [by apply fails_parsed|done].
      * rewrite <- !app_assoc in Hend. simpl in Hend.
        destruct Hend as [(-> & Hall & ?)|(k' & obj & Hk' & Hpos & ?)].
        -- left. split_and!; [done|constructor; [by apply fails_parsed|done]
                             |tauto..].
        -- right. exists k', obj. split_and!; [|lia|tauto..].
           destruct n as [|n]; [lia|done].
    + exists 1%nat, st1, w2, [this]. simpl. rewrite app_nil_r, take_0.
      split_and!; [done|done|by repeat constructor|lia|constructor|done|].
      right. unfold attempt_fails in Hfail.
      destruct (parsed_at b k) as [obj|] eqn:Hobj; [|done].
      exists k, obj. split_and!; [done|lia|done|done|].
      rewrite Hr1. unfold attempt_parsed, captured_raw in *.
      by destruct (reply json_loads post b k).
Qed.

(** What makes an attempt fail: an exception of the transport, an error
    status (a 429 counts once the second response is one too), a body that
    is not JSON, or a content that does not parse to a list. *)
Lemma attempt_failure_kinds (b k : Z) :
  (∀ msg, post b k 0%nat = PostRaises msg → fails b k = true)
  ∧ (∀ status body, post b k 0%nat = PostResponse status body →
       status ≠ 429 → 400 <= status < 600 → fails b k = true)
  ∧ (∀ body status' body', post b k 0%nat = PostResponse 429 body →
       post b k 1%nat = PostResponse status' body' →
       400 <= status' < 600 → fails b k = true)
  ∧ (∀ status body, post b k 0%nat = PostResponse status body →
       status ≠ 429 → json_loads body = None → fails b k = true)
  ∧ (∀ text, reply json_loads post b k = Ok (JStr text) →
       parse_model_json json_loads text = None → fails b k = true).
Proof.
  unfold attempt_fails, attempt_parsed, reply, call_openrouter.
  split_and!.
  - by intros msg ->.
  - intros status body -> Hne Hst.
    destruct (Z.eqb_spec status 429); [done|]. unfold read_response.
    unfold raise_for_status. simpl.
    destruct (Z.leb_spec 400 status); [|lia].
    by destruct (Z.ltb_spec status 600); [|lia].
  - intros body status' body' -> -> Hst. simpl. unfold read_response.
    unfold raise_for_status. simpl.
    destruct (Z.leb_spec 400 status'); [|lia].
    by destruct (Z.ltb_spec status' 600); [|lia].
  - intros status body -> Hne Hbody.
    destruct (Z.eqb_spec status 429); [done|]. unfold read_response. simpl.
    rewrite Hbody. by destruct (raise_for_status status).
  - intros text Htext Hparse.
    unfold reply, call_openrouter in Htext. rewrite Htext. simpl.
    by rewrite Hparse.
Qed.

Lemma attempt_numbers_first :
  attempt_numbers args = first_attempts (Z.to_nat (arg_max_retries args)).
Proof.
  unfold attempt_numbers, first_attempts.
  rewrite range_up_closed by lia.
  replace (ceil_div (arg_max_retries args + 1 - 1) 1)
    with (arg_max_retries args)
    by (unfold ceil_div; rewrite Z.div_1_r; lia).
  apply list_fmap_ext. intros _ i _. lia.
Qed.

Lemma take_first_attempts (n m : nat) :
  (n <= m)%nat → take n (first_attempts m) = first_attempts n.
Proof.
  intros Hn. unfold first_attempts.
  rewrite <- fmap_take, take_seq. by rewrite Nat.min_l.
Qed.

Lemma first_attempts_nonneg (n : nat) :
  Forall (fun k => 0 <= k) (first_attempts n).
Proof.
  unfold first_attempts. apply Forall_fmap, Forall_forall.
  intros i _. simpl. lia.
Qed.

Lemma first_attempts_lookup (n i : nat) :
  (i < n)%nat → first_attempts n !! i = Some (Z.of_nat (S i)).
Proof.
  intros Hi. unfold first_attempts.
  by rewrite list_lookup_fmap, lookup_seq_lt.
Qed.

Lemma error_text_nonempty (b k : Z) (m : string) :
  error_at b k = Some m → String.eqb m "" = false.
Proof.
  unfold error_text.
  destruct (reply json_loads post b k) as [v|e];
    [destruct (parse_model_json_value json_loads v) as [[?|]|e]|];
    by intros [= <-].
Qed.

Lemma last_error_nonempty (b : Z) (ks : list Z) (m : string) :
  last_err b ks = Some m → String.eqb m "" = false.
Proof.
  unfold last_error. intros [l' Hm]%last_Some.
  assert (m ∈ omap (error_at b) ks) as Hin.
  { rewrite Hm. apply elem_of_app. right. by left. }
  apply list_elem_of_omap in Hin as (k & _ & Hk).
  by eapply error_text_nonempty.
Qed.

(** A turn writes nothing to the output file. *)
Lemma turn_writes_nothing (b k : Z) (evs : list Event) :
  turn b k evs → omap written evs = [].
Proof.
  intros (wait & call & -> & Hwait & Hcall). rewrite !omap_app.
  assert (omap written wait = []) as ->.
  { induction Hwait as [|e wait He _ IH]; [done|].
    by destruct e. }
  assert (omap written call = []) as -> by by destruct Hcall as [->| ->].
  by destruct (fails b k).
Qed.

Lemma turns_write_nothing (b : Z) (ks : list Z) (turns : list (list Event)) :
  Forall2 (turn b) ks turns → omap written (concat turns) = [].
Proof.
  induction 1 as [|k evs ks turns Hturn _ IH]; simpl; [done|].
  by rewrite omap_app, (turn_writes_nothing _ _ _ Hturn), IH.
Qed.

Lemma fails_error_text (b k : Z) :
  fails b k = true → is_Some (error_at b k).
Proof.
  unfold attempt_fails, attempt_parsed, error_text.
  destruct (reply json_loads post b k) as [v|e]; [|by eexists].
  destruct (parse_model_json_value json_loads v) as [[?|]|e];
    [done|by eexists..].
Qed.

(** The record built when every attempt of [ks] failed. *)
Lemma make_record_failures (batch : Batch) (st : Locals) (ks : list Z) :
  Forall (fun k => fails batch.1 k = true) ks →
  parsed st = None →
  response_text st = default JNull (last_raw batch.1 ks) →
  error_msg st = last_err batch.1 ks →
  model_parsed (make_record batch st) = None
  ∧ model_raw (make_record batch st)
    = raw_after_failures (last_raw batch.1 ks) (last_err batch.1 ks).
Proof.
  intros Hall Hparsed Hraw Herr. unfold make_record. simpl.
  rewrite Hparsed, Herr, Hraw. split; [done|].
  unfold raw_after_failures.
  destruct (last_err batch.1 ks) as [m|] eqn:Hm.
  - rewrite (last_error_nonempty _ _ _ Hm). simpl.
    by destruct (last_raw batch.1 ks).
  - destruct ks as [|k ks]; [done|]. exfalso.
    apply Forall_cons in Hall as [Hk _].
    destruct (fails_error_text _ _ Hk) as [m Hk'].
    unfold last_error in Hm. apply last_None in Hm.
    simpl in Hm. by rewrite Hk' in Hm.
Qed.

(** [process_batch] returns: it makes [n] attempts, at most the number
    of retries, each a turn, and then writes one record. *)
Lemma process_batch_spec (fuel : nat) (batch : Batch) (w : World) :
  (polls_enough <= fuel)%nat → deque_past w →
  ∃ (n : nat) st' w' turns,
    process_batch json_loads str_exn post args fuel batch w
    = Some (Z.of_nat (length batch.2), w')
    ∧ events w' = events w ++ concat turns ++ [EvWrite (make_record batch st')]
    ∧ deque_past w'
    ∧ length turns = n
    ∧ (n <= Z.to_nat (arg_max_retries args))%nat
    ∧ Forall2 (turn batch.1) (first_attempts n) turns
    ∧ Forall (fun k => fails batch.1 k = true) (first_attempts (pred n))
    ∧ ((n = Z.to_nat (arg_max_retries args)
        ∧ model_parsed (make_record batch st') = None
        ∧ model_raw (make_record batch st')
          = raw_after_failures (last_raw batch.1 (first_attempts n))
                               (last_err batch.1 (first_attempts n)))
       ∨ ((0 < n)%nat
          ∧ ∃ obj, parsed_at batch.1 (Z.of_nat n) = Some obj
                   ∧ model_parsed (make_record batch st') = Some obj
                   ∧ raw_at batch.1 (Z.of_nat n)
                     = Some (model_raw (make_record batch st')))).
Proof.
  intros Hfuel Hpast. unfold process_batch. rewrite attempt_numbers_first.
  set (R := Z.to_nat (arg_max_retries args)).
  destruct (retry_loop_spec fuel batch.1 (first_attempts R) Hfuel
              (first_attempts_nonneg R) [] initial_locals w Hpast)
    as (n & st' & w' & turns & Hloop & Hev & Hturns & Hn & Hfails
        & Hpast' & Hend); [done..|].
  assert (length (first_attempts R) = R) as HR.
  { unfold first_attempts. by rewrite length_fmap, length_seq. }
  rewrite HR in Hn.
  rewrite take_first_attempts in Hturns by done.
  rewrite take_first_attempts in Hfails by lia.
  rewrite Hloop. simpl.
  exists n, st', (emit (EvWrite (make_record batch st')) w'), turns.
  split_and!; [done|simpl; by rewrite Hev, <- app_assoc|done| |done..|].
  - apply Forall2_length in Hturns. unfold first_attempts in Hturns.
    by rewrite length_fmap, length_seq in Hturns.
  - destruct Hend as [(Hn' & Hall & Hp & Hr & He)
                     |(k & obj & Hk & Hpos & Hobj & Hp & Hr)].
    + left. rewrite HR in Hn'. subst n. split; [done|].
      by apply make_record_failures.
    + right. split; [done|]. exists obj.
      rewrite first_attempts_lookup in Hk by lia. injection Hk as <-.
      replace (S (pred n)) with n in * by lia.
      unfold make_record. simpl. rewrite Hp. by split_and!.
Qed.

End RetryLoop.

(** The three failed attempts of the sample: each takes its slot at once,
    posts, and sleeps 2, 3 and 4 seconds. *)
Example process_batch_sample :
  events <$> (snd <$> process_batch TinyJson.loads sample_str_exn always_timeout
                        default_args polls_enough sample_batch (initial_world 0))
  = Some [EvSlot 0; EvPost 0 1; EvSleep (1 + inject_Z 1);
          EvSlot (0 + (1 + inject_Z 1)); EvPost 0 2; EvSleep (1 + inject_Z 2);
          EvSlot (0 + (1 + inject_Z 1) + (1 + inject_Z 2)); EvPost 0 3;
          EvSleep (1 + inject_Z 3);
          EvWrite {| batch_start_index := 0; input_ids := ["A"; "B"];
                     model_raw := JStr "exception: timed out";
                     model_parsed := None |}].
Proof. reflexivity. Qed.

(** ** The driver *)

Section Driver.

Variable json_loads : string → option json.
Variable str_exn : exn → string.
Variable post : Z → Z → nat → PostReply.
Variable args : Args.
Hypothesis cap_positive : 1 <= arg_calls_per_minute args.

Local Abbreviation turn := (turn_events json_loads post).

(** The posts of a turn are those of its attempt, and there is one. *)
Lemma turn_posts (b k : Z) (evs : list Event) :
  turn b k evs →
  EvPost b k ∈ evs ∧ ∀ b' k', EvPost b' k' ∈ evs → b' = b ∧ k' = k.
Proof.
  intros (wait & call & -> & Hwait & Hcall). split.
  - apply elem_of_app. right. apply elem_of_app. left.
    destruct Hcall as [->| ->]; by left.
  - intros b' k' [Hin|[Hin|Hin]%elem_of_app]%elem_of_app.
    + rewrite Forall_forall in Hwait. by apply Hwait in Hin.
    + destruct Hcall as [->| ->]; repeat (apply elem_of_cons in Hin as [Hin|Hin]);
        try (by apply elem_of_nil in Hin); try done; by injection Hin.
    + destruct (attempt_fails json_loads post b k);
        repeat (apply elem_of_cons in Hin as [Hin|Hin]);
        try (by apply elem_of_nil in Hin); done.
Qed.

Lemma turns_posts (b : Z) (ks : list Z) (turns : list (list Event)) :
  Forall2 (turn b) ks turns →
  ∀ b' k', EvPost b' k' ∈ concat turns → b' = b.
Proof.
  induction 1 as [|k evs ks turns Hturn _ IH]; simpl; intros b' k'.
  - by intros ?%elem_of_nil.
  - intros [Hin|Hin]%elem_of_app; [|by eapply IH].
    by apply (turn_posts _ _ _ Hturn) in Hin as [-> _].
Qed.

(** The pool, one batch after the other: every batch returns, writes its
    one record, and posts under its own index. *)
Lemma dispatch_spec (fuel : nat) (batches : list Batch) :
  (polls_enough <= fuel)%nat →
  ∀ (total : Z) (w : World),
    deque_past w →
    ∃ w' evs,
      dispatch json_loads str_exn post args fuel batches total w
      = Some (total + Z.of_nat (length (concat (snd <$> batches))), w')
      ∧ events w' = events w ++ evs
      ∧ deque_past w'
      ∧ Forall2 record_of batches (omap written evs)
      ∧ (∀ b k, EvPost b k ∈ evs → b ∈ fst <$> batches)
      ∧ (1 <= arg_max_retries args →
         ∀ b, b ∈ batches → EvPost b.1 1 ∈ evs).
Proof.
  intros Hfuel. induction batches as [|batch batches IH]; intros total w Hpast.
  - exists w, []. simpl. rewrite app_nil_r, Z.add_0_r.
    split_and!; [done|done|done|constructor| |].
    + by intros b k ?%elem_of_nil.
    + by intros _ b ?%elem_of_nil.
  - destruct (process_batch_spec json_loads str_exn post args cap_positive
                fuel batch w Hfuel Hpast)
      as (n & st & w1 & turns & Hrun & Hev1 & Hpast1 & Hlen & Hn & Hturns
          & _ & Hend).
    destruct (IH (total + Z.of_nat (length batch.2)) w1 Hpast1)
      as (w' & evs & Hrest & Hev & Hpast' & Hrecs & Hposts & Hfirst).
    exists w', ((concat turns ++ [EvWrite (make_record batch st)]) ++ evs).
    simpl. rewrite Hrun. simpl. rewrite Hrest.
    split_and!.
    + by rewrite length_app, Nat2Z.inj_add, Z.add_assoc.
    + by rewrite Hev, Hev1, <- !app_assoc.
    + done.
    + rewrite !omap_app, (turns_write_nothing _ _ _ _ _ Hturns). simpl.
      by constructor.
    + intros b k [[Hin|Hin]%elem_of_app|Hin]%elem_of_app.
      * rewrite (turns_posts _ _ _ Hturns _ _ Hin). by left.
      * apply elem_of_cons in Hin as [Hin|Hin]; [done|].
        by apply elem_of_nil in Hin.
      * right. by eapply Hposts.
    + intros Hretries b [->|Hb]%elem_of_cons.
      * apply elem_of_app. left. apply elem_of_app. left.
        assert (0 < n)%nat as Hpos by (destruct Hend as [[-> _]|[? _]]; lia).
        destruct turns as [|evs1 turns]; [simpl in Hlen; lia|].
        rewrite <- Hlen in Hturns. simpl in Hturns.
        apply Forall2_cons_inv_l in Hturns
          as (evs1' & turns' & Hturn & _ & [= <- <-]).
        simpl. apply elem_of_app. left.
        by apply (turn_posts _ _ _ Hturn).
      * apply elem_of_app. right. by apply Hfirst.
Qed.

End Driver.

Lemma elem_of_posts (w : World) (b k : Z) :
  (b, k) ∈ posts w ↔ EvPost b k ∈ events w.
Proof.
  unfold posts. rewrite list_elem_of_omap. split.
  - intros ([] & Hin & Heq); try done. by injection Heq as -> ->.
  - intros Hin. by exists (EvPost b k).
Qed.

(** C8. Whatever the replies of the service, every batch handed to the
    pool returns and writes exactly one record, whose [input_ids] are the
    ids of the batch in order and whose [batch_start_index] is its start
    index; so does a single call of [process_batch]. *)
Theorem records_match_batches
    (json_loads : string → option json) (str_exn : exn → string)
    (post : Z → Z → nat → PostReply) (args : Args) (fuel : nat) (w : World) :
  1 <= arg_calls_per_minute args → (polls_enough <= fuel)%nat →
  deque_past w →
  (∀ batch : Batch,
     ∃ w' r,
       process_batch json_loads str_exn post args fuel batch w
       = Some (Z.of_nat (length batch.2), w')
       ∧ out_f w' = out_f w ++ [r]
       ∧ input_ids r = id <$> batch.2
       ∧ batch_start_index r = batch.1)
  ∧ (∀ (batches : list Batch) (total : Z),
       ∃ w' total' rs,
         dispatch json_loads str_exn post args fuel batches total w
         = Some (total', w')
         ∧ out_f w' = out_f w ++ rs
         ∧ Forall2 record_of batches rs).
Proof.
  intros Hcap Hfuel Hpast. split.
  - intros batch.
    destruct (process_batch_spec json_loads str_exn post args Hcap fuel batch w
                Hfuel Hpast)
      as (n & st & w' & turns & Hrun & Hev & _ & _ & _ & Hturns & _).
    exists w', (make_record batch st). split_and!; [done| |done..].
    unfold out_f. rewrite Hev, !omap_app.
    by rewrite (turns_write_nothing _ _ _ _ _ Hturns).
  - intros batches total.
    destruct (dispatch_spec json_loads str_exn post args Hcap fuel batches
                Hfuel total w Hpast)
      as (w' & evs & Hrun & Hev & _ & Hrecs & _).
    eexists w', _, (omap written evs). split_and!; [done| |done].
    unfold out_f. by rewrite Hev, omap_app.
Qed.

Lemma records_match_batches_witness :
  ∃ w' r,
    process_batch TinyJson.loads sample_str_exn always_timeout default_args
                  polls_enough sample_batch (initial_world 0)
    = Some (2, w')
    ∧ out_f w' = [r]
    ∧ input_ids r = ["A"; "B"]
    ∧ batch_start_index r = 0.
Proof.
  apply (proj1 (records_match_batches TinyJson.loads sample_str_exn
                  always_timeout default_args polls_enough (initial_world 0)
                  ltac:(simpl; lia) ltac:(lia) ltac:(constructor))
               sample_batch).
Defined.

(** C5. When the batches left to run outnumber [--daily-call-cap], the
    run exits before the pool is started: no request has gone out and no
    record is written. Otherwise, with a positive concurrency, every
    planned batch is dispatched: each is processed and writes its record,
    and with at least one retry each makes its first request. *)
Theorem main_cap_check
    (json_loads : string → option json) (str_exn : exn → string)
    (post : Z → Z → nat → PostReply) (args : Args) (fuel : nat)
    (key : string) (lines : list Row) (output : option (list string))
    (t0 : Q) (batches : list Batch) :
  key ≠ "" →
  build_batches args (load_lines args lines) = Ok batches →
  let planned :=
    skip_processed (scan_processed_ids json_loads args output) batches in
  let cap := arg_daily_call_cap args in
  (cap < Z.of_nat (length planned) →
   ∃ w, main json_loads str_exn post args fuel (Some key) lines output t0
        = Some (ExitCapExceeded (Z.of_nat (length planned)) cap, w)
        ∧ posts w = [] ∧ out_f w = [])
  ∧ (Z.of_nat (length planned) <= cap →
     1 <= arg_concurrency args → 1 <= arg_calls_per_minute args →
     (polls_enough <= fuel)%nat →
     ∃ total w,
       main json_loads str_exn post args fuel (Some key) lines output t0
       = Some (Finished total (length planned), w)
       ∧ Forall2 record_of planned (out_f w)
       ∧ (∀ b k, (b, k) ∈ posts w → b ∈ fst <$> planned)
       ∧ (1 <= arg_max_retries args →
          ∀ b, b ∈ planned → (b.1, 1) ∈ posts w)).
Proof.
  intros Hkey Hbuild planned cap. unfold main. rewrite Hbuild.
  destruct key as [|c key]; [done|]. fold planned. fold cap. split.
  - intros Hover. destruct (Z.ltb_spec cap (Z.of_nat (length planned))); [|lia].
    by exists (initial_world t0).
  - intros Hunder Hconc Hcpm Hfuel.
    destruct (Z.ltb_spec cap (Z.of_nat (length planned))); [lia|].
    destruct (Z.leb_spec (arg_concurrency args) 0); [lia|].
    destruct (dispatch_spec json_loads str_exn post args Hcpm fuel planned
                Hfuel 0 (initial_world t0))
      as (w & evs & Hrun & Hev & _ & Hrecs & Hposts & Hfirst);
      [constructor|].
    simpl in Hev. rewrite Hrun. simpl.
    exists (0 + Z.of_nat (length (concat planned.*2))), w.
    split_and!; [done| | |].
    + unfold out_f. by rewrite Hev.
    + intros b k Hin%elem_of_posts. rewrite Hev in Hin. by eapply Hposts.
    + intros Hretries b Hb. apply elem_of_posts. rewrite Hev. by apply Hfirst.
Qed.

Lemma main_cap_check_witness :
  ∃ w, main TinyJson.loads sample_str_exn always_timeout capped_args
            polls_enough (Some "sk-test") sample_lines None 0
       = Some (ExitCapExceeded 3 2, w)
       ∧ posts w = [] ∧ out_f w = [].
Proof.
  destruct (main_cap_check TinyJson.loads sample_str_exn always_timeout
              capped_args polls_enough "sk-test" sample_lines None 0 _
              ltac:(done) eq_refl) as [Hover _].
  apply Hover. by vm_compute.
Defined.

(** A run under the cap: three batches of the 25 sample lines, every
    request timing out; nine requests go out, three records are written
    with the ids of their batches, and at 15 calls per minute no attempt
    waits for its slot. *)
Example main_sample :
  (fun ow : Outcome * World =>
     (ow.1, length (posts ow.2), input_ids <$> out_f ow.2, slot_times ow.2))
    <$> main TinyJson.loads sample_str_exn always_timeout default_args
             polls_enough (Some "sk-test") sample_lines None 0
  = Some (Finished 25 3, 9%nat,
          [["A"; "B"; "C"; "D"; "E"; "F"; "G"; "H"; "I"; "J"];
           ["K"; "L"; "M"; "N"; "O"; "P"; "Q"; "R"; "S"; "T"];
           ["U"; "V"; "W"; "X"; "Y"]],
          [0; 2; 5; 9; 11; 14; 18; 20; 23]%Q).
Proof. by vm_compute. Qed.

(** Without the key nothing is read or sent. *)
Example main_missing_key :
  main TinyJson.loads sample_str_exn always_timeout default_args polls_enough
       None sample_lines None 0
  = Some (ExitMissingKey, initial_world 0).
Proof. reflexivity. Qed.

(** At one call per minute the second and third attempts wait until the
    timestamp before them is more than 60 seconds old. *)
Example process_batch_throttled :
  slot_times <$> (snd <$> process_batch TinyJson.loads sample_str_exn
                            always_timeout one_per_minute polls_enough
                            sample_batch (initial_world 0))
  = Some [0; 301 # 5; 602 # 5]%Q.
Proof. by vm_compute. Qed.

(** * Further properties *)

(** ** Abstract reconstruction *)

Section ReconstructMore.

Implicit Types (ws : list string) (inv : InvertedIndex) (ps : list Z).

Lemma is_max_elem_of (m : Z) (xs ys : list Z) :
  (∀ x, x ∈ xs ↔ x ∈ ys) → is_max m xs → is_max m ys.
Proof.
  intros Heq [Hin Hall]. split; [by apply Heq|].
  rewrite Forall_forall in Hall |- *. intros x Hx. by apply Hall, Heq.
Qed.

(** With no position listed twice under different words, the writer of a
    position is the word that lists it. *)
Lemma last_writer_disjoint inv i word :
  positions_disjoint inv →
  last_writer inv i = Some word ↔ ∃ ps, (word, ps) ∈ inv ∧ i ∈ ps.
Proof.
  intros Hdisj. split; [apply last_writer_listed|].
  intros (ps & Hin & Hi).
  destruct (last_writer_some _ _ _ _ Hin Hi) as [w' Hw'].
  destruct (last_writer_listed _ _ _ Hw') as (ps' & Hin' & Hi').
  by rewrite Hw', (Hdisj _ _ _ _ _ Hin Hin' Hi Hi').
Qed.

(** The words placed on non-negative positions, index by index. *)
Lemma abstract_words_lookup inv max_pos :
  is_max max_pos (positions inv) →
  Forall (fun p => 0 <= p) (positions inv) →
  ∃ ws, place_all inv (replicate (Z.to_nat (max_pos + 1)) "") = Ok ws
        ∧ length ws = Z.to_nat (max_pos + 1)
        ∧ ∀ i : nat, (i < length ws)%nat →
            ws !! i = Some (default "" (last_writer inv (Z.of_nat i))).
Proof.
  intros [Hin Hall] Hpos. rewrite Forall_forall in Hall, Hpos.
  destruct (place_all_lookup inv (replicate (Z.to_nat (max_pos + 1)) ""))
    as (ws & Hws & Hlen & Hget).
  { rewrite length_replicate, Forall_forall. intros p Hp.
    specialize (Hall _ Hp). specialize (Hpos _ Hp). lia. }
  rewrite length_replicate in Hlen. exists ws. split_and!; [done..|].
  intros i Hi. rewrite Hget.
  destruct (last_writer inv (Z.of_nat i)); [done|].
  apply lookup_replicate_2. lia.
Qed.

End ReconstructMore.

(** X1. Round trip: from any inverted index of a non-empty text,
    whatever the order of its items, [reconstruct_abstract] gives the words
    of the text joined by single spaces. *)
Theorem reconstruct_abstract_round_trip (inv : InvertedIndex)
    (ws : list string) :
  ws ≠ [] → indexes inv ws →
  reconstruct_abstract (Some inv) = Ok (Py.join " " ws).
Proof.
  intros Hne [Hsound Hcomplete].
  assert (∀ p, p ∈ positions inv → 0 <= p < Z.of_nat (length ws)) as Hrange.
  { intros p (word & ps & Hin & Hp)%elem_of_positions.
    destruct (Hsound _ _ _ Hin Hp) as [H0 Hget].
    apply lookup_lt_Some in Hget. lia. }
  set (m := Z.of_nat (length ws) - 1).
  assert (is_max m (positions inv)) as Hmax.
  { split.
    - destruct (lookup_lt_is_Some_2 ws (pred (length ws))) as [word Hw].
      { destruct ws; [done|simpl; lia]. }
      destruct (Hcomplete _ _ Hw) as (ps & Hin & Hp).
      apply elem_of_positions. exists word, ps. split; [done|].
      replace m with (Z.of_nat (pred (length ws))); [done|].
      unfold m. destruct ws; [done|simpl; lia].
    - apply Forall_forall. intros p Hp%Hrange. unfold m. lia. }
  destruct (abstract_words_lookup inv m Hmax) as (ws' & Hws' & Hlen & Hget).
  { apply Forall_forall. intros p Hp%Hrange. lia. }
  rewrite (reconstruct_unfold _ _ Hmax), Hws'. simpl. do 2 f_equal.
  assert (length ws' = length ws) as Hlen' by (unfold m in Hlen; lia).
  apply list_eq. intros i.
  destruct (decide (i < length ws)%nat) as [Hi|Hi].
  - rewrite Hget by lia.
    destruct (lookup_lt_is_Some_2 ws i Hi) as [word Hw]. rewrite Hw.
    destruct (Hcomplete _ _ Hw) as (ps & Hin & Hp).
    destruct (last_writer_some _ _ _ _ Hin Hp) as [w' Hw'].
    rewrite Hw'. simpl.
    destruct (last_writer_listed _ _ _ Hw') as (ps' & Hin' & Hp').
    destruct (Hsound _ _ _ Hin' Hp') as [_ Hget'].
    rewrite Nat2Z.id in Hget'. congruence.
  - rewrite !lookup_ge_None_2 by lia. done.
Qed.

Lemma reconstruct_abstract_round_trip_witness :
  reconstruct_abstract (Some inv_brain_shuffled)
  = Ok "the brain maps the world".
Proof.
  apply (reconstruct_abstract_round_trip inv_brain_shuffled brain_words).
  - done.
  - split.
    + intros word ps p Hin Hp.
      repeat (apply elem_of_cons in Hin as [Hin|Hin];
              [injection Hin as -> ->;
               repeat (apply elem_of_cons in Hp as [->|Hp]; [done|]);
               by apply elem_of_nil in Hp|]).
      by apply elem_of_nil in Hin.
    + intros i word Hw.
      do 5 (destruct i as [|i]; [injection Hw as <-; eexists; split;
                                 [repeat (first [by left|right])
                                 |repeat (first [by left|right])]|]).
      done.
Defined.

Lemma reconstruct_no_position_listed (inv : InvertedIndex) :
  positions inv = [] →
  reconstruct_abstract (Some inv)
  = match inv with [] => Ok "" | _ => Raise ValueError end.
Proof.
  intros Hp. destruct inv as [|wp inv]; [done|].
  unfold reconstruct_abstract, abstract_words. by rewrite Hp.
Qed.

Lemma last_writer_perm (inv1 inv2 : InvertedIndex) (i : Z) :
  (∀ wp, wp ∈ inv1 ↔ wp ∈ inv2) →
  positions_disjoint inv1 → positions_disjoint inv2 →
  last_writer inv1 i = last_writer inv2 i.
Proof.
  intros Hmem Hd1 Hd2.
  destruct (last_writer inv1 i) as [w|] eqn:E1.
  - apply (last_writer_disjoint _ _ _ Hd1) in E1 as (ps & Hin & Hi).
    symmetry. apply (last_writer_disjoint _ _ _ Hd2).
    exists ps. split; [by apply Hmem|done].
  - destruct (last_writer inv2 i) as [w|] eqn:E2; [|done].
    apply (last_writer_disjoint _ _ _ Hd2) in E2 as (ps & Hin & Hi).
    assert (last_writer inv1 i = Some w) as E; [|congruence].
    apply (last_writer_disjoint _ _ _ Hd1).
    exists ps. split; [by apply Hmem|done].
Qed.

(** X2. The order of the items does not matter: two indexes with the same
    items, non-negative positions and no position listed under two words
    give the same result. *)
Theorem reconstruct_abstract_order (inv1 inv2 : InvertedIndex) :
  inv1 ≡ₚ inv2 →
  Forall (fun p => 0 <= p) (positions inv1) →
  positions_disjoint inv1 →
  reconstruct_abstract (Some inv1) = reconstruct_abstract (Some inv2).
Proof.
  intros Hperm Hpos Hdisj.
  assert (∀ wp, wp ∈ inv1 ↔ wp ∈ inv2) as Hmem
    by (intros wp; by rewrite Hperm).
  assert (∀ p, p ∈ positions inv1 ↔ p ∈ positions inv2) as Hposs.
  { intros p. rewrite !elem_of_positions.
    split; intros (w & ps & Hin & Hp); exists w, ps;
      (split; [by apply Hmem|done]). }
  assert (positions_disjoint inv2) as Hdisj2.
  { intros w1 ps1 w2 ps2 p H1%Hmem H2%Hmem. by apply Hdisj. }
  destruct (decide (positions inv1 = [])) as [Hnil|Hne].
  - assert (positions inv2 = []) as Hnil2.
    { destruct (positions inv2) as [|q qs] eqn:E; [done|].
      assert (q ∈ positions inv1) as Hq by (apply Hposs; by left).
      rewrite Hnil in Hq. by apply elem_of_nil in Hq. }
    rewrite !reconstruct_no_position_listed by done.
    destruct inv1, inv2; try done.
    + by apply Permutation_nil_cons in Hperm.
    + symmetry in Hperm. by apply Permutation_nil_cons in Hperm.
  - destruct (max_spec _ Hne) as (m & _ & Hmax).
    pose proof (is_max_elem_of _ _ _ Hposs Hmax) as Hmax2.
    destruct (abstract_words_lookup inv1 m Hmax Hpos)
      as (ws1 & Hws1 & Hlen1 & Hget1).
    destruct (abstract_words_lookup inv2 m Hmax2)
      as (ws2 & Hws2 & Hlen2 & Hget2).
    { rewrite Forall_forall in Hpos |- *. intros p Hp. by apply Hpos, Hposs. }
    rewrite (reconstruct_unfold _ _ Hmax), (reconstruct_unfold _ _ Hmax2).
    rewrite Hws1, Hws2. simpl. do 2 f_equal. apply list_eq. intros i.
    destruct (decide (i < length ws1)%nat) as [Hi|Hi].
    + rewrite Hget1, Hget2 by lia.
      by rewrite (last_writer_perm inv1 inv2).
    + by rewrite !lookup_ge_None_2 by lia.
Qed.

Lemma reconstruct_abstract_order_witness :
  reconstruct_abstract (Some inv_brain)
  = reconstruct_abstract (Some inv_brain_shuffled).
Proof.
  apply (reconstruct_abstract_order inv_brain inv_brain_shuffled).
  - unfold inv_brain, inv_brain_shuffled.
    apply (bool_decide_unpack _). by vm_compute.
  - by repeat constructor.
  - intros w1 ps1 w2 ps2 p H1 H2 Hp1 Hp2.
    repeat (apply elem_of_cons in H1 as [H1|H1];
            [injection H1 as -> ->|]); try (by apply elem_of_nil in H1);
    repeat (apply elem_of_cons in H2 as [H2|H2];
            [injection H2 as -> ->|]); try (by apply elem_of_nil in H2);
    try done;
    repeat (apply elem_of_cons in Hp1 as [->|Hp1]);
    try (by apply elem_of_nil in Hp1);
    repeat (apply elem_of_cons in Hp2 as [Hp2|Hp2]; [done|]);
    by apply elem_of_nil in Hp2.
Defined.

Lemma setitem_wrap {A} (l : list A) (p : Z) (x : A) :
  accepted (Z.of_nat (length l)) p →
  Py.setitem l p x = Py.setitem l (wrap_position (Z.of_nat (length l)) p) x.
Proof.
  intros [Hlo Hhi]. unfold wrap_position.
  destruct (p <? 0) eqn:Hneg; [|done]. unfold Py.setitem. cbv zeta.
  rewrite Hneg.
  assert ((0 <=? p) = false) as -> by lia.
  assert ((- Z.of_nat (length l) <=? p) = true) as -> by lia.
  assert ((0 <=? p + Z.of_nat (length l)) = true) as -> by lia.
  assert ((p + Z.of_nat (length l) <? Z.of_nat (length l)) = true) as ->
    by lia.
  done.
Qed.

Lemma place_word_wrap (word : string) (ps : list Z) (ws : list string) :
  Forall (accepted (Z.of_nat (length ws))) ps →
  place_word word ps ws
  = place_word word (wrap_position (Z.of_nat (length ws)) <$> ps) ws.
Proof.
  revert ws. induction ps as [|p ps IH]; intros ws Hps; [done|].
  apply Forall_cons in Hps as [Hp Hps]. csimpl.
  rewrite <- (setitem_wrap ws p word Hp).
  destruct (Py.setitem ws p word) as [ws'|e] eqn:E; [|done]. simpl.
  apply setitem_length in E. rewrite <- E. apply IH. by rewrite E.
Qed.

Lemma positions_wrap (n : Z) (inv : InvertedIndex) :
  positions (wrap_index n inv) = wrap_position n <$> positions inv.
Proof.
  unfold positions, wrap_index.
  induction inv as [|[w ps] inv IH]; [done|]. csimpl.
  by rewrite fmap_app, <- IH.
Qed.

Lemma place_all_wrap (inv : InvertedIndex) (ws : list string) :
  Forall (accepted (Z.of_nat (length ws))) (positions inv) →
  place_all inv ws = place_all (wrap_index (Z.of_nat (length ws)) inv) ws.
Proof.
  revert ws. induction inv as [|[w ps] inv IH]; intros ws Hps; [done|].
  unfold positions in Hps. simpl in Hps.
  apply Forall_app in Hps as [Hps Hrest]. csimpl.
  rewrite <- (place_word_wrap w ps ws Hps).
  destruct (place_word w ps ws) as [ws'|e] eqn:E; [|done]. simpl.
  apply place_word_length in E. rewrite <- E. apply IH. by rewrite E.
Qed.

(** X3. Negative positions that are in range are read from the end: the
    result is that of the index in which each negative position [p] is
    replaced by [p + max(position) + 1], an index without negative
    positions. *)
Theorem reconstruct_abstract_wrap (inv : InvertedIndex) (max_pos : Z) :
  is_max max_pos (positions inv) →
  Forall (fun p => - (max_pos + 1) <= p) (positions inv) →
  reconstruct_abstract (Some inv)
  = reconstruct_abstract (Some (wrap_index (max_pos + 1) inv))
  ∧ Forall (fun p => 0 <= p) (positions (wrap_index (max_pos + 1) inv)).
Proof.
  intros Hmax Hlow. pose proof Hmax as [Hin Hall].
  rewrite Forall_forall in Hall, Hlow.
  assert (0 <= max_pos) as Hm by (specialize (Hlow _ Hin); lia).
  assert (Forall (fun p => 0 <= p) (positions (wrap_index (max_pos + 1) inv)))
    as Hpos.
  { rewrite positions_wrap. apply Forall_fmap, Forall_forall.
    intros p Hp. specialize (Hlow _ Hp). simpl. unfold wrap_position.
    destruct (Z.ltb_spec p 0); lia. }
  split; [|done].
  assert (is_max max_pos (positions (wrap_index (max_pos + 1) inv))) as Hmax'.
  { rewrite positions_wrap. split.
    - apply list_elem_of_fmap. exists max_pos. split; [|done].
      unfold wrap_position. destruct (Z.ltb_spec max_pos 0); [lia|done].
    - apply Forall_fmap, Forall_forall. intros p Hp.
      specialize (Hall _ Hp). simpl. unfold wrap_position.
      destruct (Z.ltb_spec p 0); lia. }
  rewrite (reconstruct_unfold _ _ Hmax), (reconstruct_unfold _ _ Hmax').
  set (ws := replicate (Z.to_nat (max_pos + 1)) "").
  assert (Z.of_nat (length ws) = max_pos + 1) as Hlen
    by (unfold ws; rewrite length_replicate; lia).
  rewrite <- Hlen. rewrite <- place_all_wrap; [done|].
  rewrite Hlen. apply Forall_forall. intros p Hp. unfold accepted.
  specialize (Hall _ Hp). specialize (Hlow _ Hp). lia.
Qed.

Lemma reconstruct_abstract_wrap_witness :
  reconstruct_abstract (Some inv_negative_position)
  = reconstruct_abstract (Some (wrap_index (2 + 1) inv_negative_position))
  ∧ Forall (fun p => 0 <= p)
           (positions (wrap_index (2 + 1) inv_negative_position)).
Proof.
  apply (reconstruct_abstract_wrap inv_negative_position 2).
  - split; [by right; left|by repeat constructor].
  - by repeat constructor.
Defined.

(** ** The rate limiter *)

Section LimiterMore.

Variable calls_per_minute : Z.

Open Scope Q_scope.

Lemma dropwhile_none {A} (p : A → bool) (l : list A) :
  Forall (fun x => p x = false) l → Py.dropwhile p l = l.
Proof. destruct 1 as [|x l Hx _]; simpl; [done|by rewrite Hx]. Qed.

Lemma dropwhile_length {A} (p : A → bool) (l : list A) :
  (length (Py.dropwhile p l) <= length l)%nat.
Proof.
  induction l as [|x l IH]; simpl; [done|]. destruct (p x); simpl; lia.
Qed.

Lemma dropwhile_suffix {A} (p : A → bool) (l : list A) :
  Py.dropwhile p l `suffix_of` l.
Proof.
  destruct (dropwhile_split p l) as (dropped & Hl & _).
  by exists dropped.
Qed.

(** While every timestamp and every poll lies within one span of 60
    seconds nothing is evicted, and the deque fills up to the cap. *)
Lemma run_burst (t0 : Q) (polls : list Q) :
  Forall (fun p => t0 <= p <= t0 + 60) polls →
  ∀ q, Forall (fun t => t0 <= t <= t0 + 60) q →
  Limiter.run calls_per_minute polls q
  = (take (Z.to_nat (calls_per_minute - Z.of_nat (length q))) polls,
     q ++ take (Z.to_nat (calls_per_minute - Z.of_nat (length q))) polls).
Proof.
  induction 1 as [|now polls Hnow _ IH]; intros q Hq.
  - by rewrite take_nil, app_nil_r.
  - simpl. unfold Limiter.locked_region.
    rewrite (dropwhile_none _ q).
    2:{ eapply Forall_impl; [exact Hq|]. simpl. intros t Ht.
        destruct (Limiter.expired now t) eqn:E; [|done].
        apply expired_spec in E. lra. }
    destruct (Z.ltb_spec (Z.of_nat (length q)) calls_per_minute) as [Hlt|Hge].
    + rewrite IH.
      2:{ apply Forall_app. split; [done|]. constructor; [done|constructor]. }
      rewrite length_app. simpl.
      replace (Z.to_nat (calls_per_minute - Z.of_nat (length q)))
        with (S (Z.to_nat (calls_per_minute
                           - Z.of_nat (length q + 1)%nat))) by lia.
      simpl. by rewrite <- app_assoc.
    + rewrite IH by done.
      replace (Z.to_nat (calls_per_minute - Z.of_nat (length q)))
        with 0%nat by lia.
      by rewrite !take_0.
Qed.

(** The admitted timestamps are polls, in their order; the deque holds the
    latest of the timestamps it was given, never more than the cap. *)
Lemma run_deque (polls : list Q) :
  ∀ q, (Z.of_nat (length q) <= calls_per_minute)%Z →
       let '(adm, qf) := Limiter.run calls_per_minute polls q in
       adm `sublist_of` polls
       ∧ qf `suffix_of` q ++ adm
       ∧ (Z.of_nat (length qf) <= calls_per_minute)%Z.
Proof.
  induction polls as [|now polls IH]; intros q Hq; simpl.
  - by rewrite app_nil_r.
  - unfold Limiter.locked_region.
    set (q' := Py.dropwhile (Limiter.expired now) q).
    assert (q' `suffix_of` q) as Hsuf by apply dropwhile_suffix.
    pose proof (dropwhile_length (Limiter.expired now) q) as Hlen.
    fold q' in Hlen.
    destruct (Z.ltb_spec (Z.of_nat (length q')) calls_per_minute) as [Hlt|Hge].
    + specialize (IH (q' ++ [now])).
      destruct (Limiter.run calls_per_minute polls (q' ++ [now]))
        as [adm qf].
      destruct IH as (Hsub & Hqf & Hn).
      { rewrite length_app. simpl. lia. }
      split_and!; [by constructor| |done].
      etrans; [exact Hqf|]. rewrite <- app_assoc. simpl.
      by apply suffix_app.
    + specialize (IH q').
      destruct (Limiter.run calls_per_minute polls q') as [adm qf].
      destruct IH as (Hsub & Hqf & Hn); [lia|].
      split_and!; [by constructor| |done].
      etrans; [exact Hqf|]. by apply suffix_app.
Qed.

Lemma run_app (p1 p2 : list Q) :
  ∀ q, Limiter.run calls_per_minute (p1 ++ p2) q
       = ((Limiter.run calls_per_minute p1 q).1
          ++ (Limiter.run calls_per_minute p2
                (Limiter.run calls_per_minute p1 q).2).1,
          (Limiter.run calls_per_minute p2
             (Limiter.run calls_per_minute p1 q).2).2).
Proof.
  induction p1 as [|now p1 IH]; intros q; simpl.
  - by destruct (Limiter.run calls_per_minute p2 q).
  - destruct (Limiter.locked_region calls_per_minute now q) as [ok q'].
    rewrite IH.
    destruct (Limiter.run calls_per_minute p1 q') as [a1 q1]. simpl.
    destruct (Limiter.run calls_per_minute p2 q1) as [a2 q2]. simpl.
    by destruct ok.
Qed.

End LimiterMore.

(** X4. A burst: of polls that all lie within one span of 60 seconds,
    whatever their order, the limiter admits the first [N] and no other,
    and its deque then holds exactly those. *)
Theorem limiter_burst (calls_per_minute : Z) (t0 : Q) (polls : list Q) :
  Forall (fun p => t0 <= p <= t0 + 60)%Q polls →
  Limiter.run calls_per_minute polls []
  = (take (Z.to_nat calls_per_minute) polls,
     take (Z.to_nat calls_per_minute) polls).
Proof.
  intros Hpolls.
  rewrite (run_burst calls_per_minute t0 polls Hpolls []) by constructor.
  simpl. by rewrite Z.sub_0_r.
Qed.

Lemma limiter_burst_witness :
  Limiter.run 2 [0; 20; 40; 60]%Q []
  = (take (Z.to_nat 2) [0; 20; 40; 60]%Q, take (Z.to_nat 2) [0; 20; 40; 60]%Q).
Proof.
  apply (limiter_burst 2 0 [0; 20; 40; 60]%Q).
  repeat constructor; by vm_compute.
Defined.

(** X5. Whatever the times of the polls, in order or not, the admitted
    timestamps are polls in the order they came, the deque holds the
    latest admitted timestamps, and under a cap [N >= 0] it never holds
    more than [N] of them. *)
Theorem limiter_deque_bound (calls_per_minute : Z) (polls : list Q) :
  0 <= calls_per_minute →
  Limiter.admitted calls_per_minute polls `sublist_of` polls
  ∧ (Limiter.run calls_per_minute polls []).2
    `suffix_of` Limiter.admitted calls_per_minute polls
  ∧ Z.of_nat (length (Limiter.run calls_per_minute polls []).2)
    <= calls_per_minute.
Proof.
  intros Hcap. unfold Limiter.admitted.
  pose proof (run_deque calls_per_minute polls [] Hcap) as H.
  by destruct (Limiter.run calls_per_minute polls []) as [adm qf].
Qed.

Lemma limiter_deque_bound_witness :
  Limiter.admitted 2 sample_polls `sublist_of` sample_polls
  ∧ (Limiter.run 2 sample_polls []).2
    `suffix_of` Limiter.admitted 2 sample_polls
  ∧ Z.of_nat (length (Limiter.run 2 sample_polls []).2) <= 2.
Proof. apply (limiter_deque_bound 2 sample_polls). lia. Defined.

(** ** Waiting for a slot *)

Section WaitForSlotMore.

Variable args : Args.

Open Scope Q_scope.

(** If every timestamp is more than 60 seconds old after [k] sleeps, the
    loop returns after at most [k] of them, and at once when the deque is
    not full. *)
Lemma wait_for_slot_within (k : nat) :
  (1 <= arg_calls_per_minute args)%Z →
  ∀ (fuel : nat) (w : World),
    Forall (fun t => t + 60 < clock w + (Z.of_nat k # 5)) (call_timestamps w) →
    (k < fuel)%nat →
    ∃ w' (j : nat),
      wait_for_slot args fuel w = Some w'
      ∧ (j <= k)%nat
      ∧ clock w' == clock w + (Z.of_nat j # 5)
      ∧ events w' = events w ++ replicate j (EvSleep (1 # 5))
                             ++ [EvSlot (clock w')]
      ∧ last (call_timestamps w') = Some (clock w')
      ∧ ((Z.of_nat (length (call_timestamps w)) < arg_calls_per_minute args)%Z
         → j = 0%nat).
Proof.
  intros Hcap.
  induction k as [|k IH]; intros fuel w Hold Hfuel;
    (destruct fuel as [|fuel]; [lia|]); simpl;
    unfold Limiter.locked_region;
    pose proof (dropwhile_length (Limiter.expired (clock w))
                  (call_timestamps w)) as Hlen;
    set (q := Py.dropwhile (Limiter.expired (clock w)) (call_timestamps w))
      in *.
  - assert (q = []) as Hq.
    { apply dropwhile_all. eapply Forall_impl; [exact Hold|]. simpl.
      intros t Ht. apply expired_spec.
      assert (Z.of_nat 0 # 5 == 0) by reflexivity. lra. }
    destruct (Z.ltb_spec (Z.of_nat (length q)) (arg_calls_per_minute args));
      [|rewrite Hq in *; simpl in *; lia].
    eexists _, 0%nat. split; [reflexivity|].
    split_and!; simpl; [done| |done|by rewrite last_snoc|done].
    assert (Z.of_nat 0 # 5 == 0) by reflexivity. lra.
  - destruct (Z.ltb_spec (Z.of_nat (length q)) (arg_calls_per_minute args)).
    + eexists _, 0%nat. split; [reflexivity|].
      split_and!; simpl; [lia| |done|by rewrite last_snoc|done].
      assert (Z.of_nat 0 # 5 == 0) by reflexivity. lra.
    + destruct (IH fuel (sleep (1 # 5) (set_call_timestamps q w)))
        as (w' & j & Hw' & Hj & Hclock & Hev & Hlast & _).
      * simpl. apply dropwhile_Forall. eapply Forall_impl; [exact Hold|].
        simpl. intros t Ht. pose proof (fifth_succ k). lra.
      * lia.
      * exists w', (S j). simpl in Hclock, Hev.
        split_and!; [done|lia| | |done|lia].
        -- pose proof (fifth_succ j). lra.
        -- by rewrite Hev, <- app_assoc.
Qed.

(** With no call per minute allowed no pass admits. *)
Lemma wait_for_slot_never (fuel : nat) :
  (arg_calls_per_minute args <= 0)%Z →
  ∀ w, wait_for_slot args fuel w = None.
Proof.
  intros Hcap. induction fuel as [|fuel IH]; intros w; [done|]. simpl.
  unfold Limiter.locked_region.
  destruct (Z.ltb_spec
              (Z.of_nat (length (Py.dropwhile (Limiter.expired (clock w))
                                              (call_timestamps w))))
              (arg_calls_per_minute args)); [lia|].
  apply IH.
Qed.

End WaitForSlotMore.

(** X6. For a worker that waits alone, as under [--concurrency 1] or
    while no other worker takes the lock between its polls: with a cap of
    at least one call per minute and no timestamp in the future,
    [wait_for_slot] returns after at most 301 sleeps of a fifth of a
    second, that is within 60.2 seconds on a clock that moves by the time
    slept, and at once when the deque holds fewer timestamps than the cap.
    Only then does it record the slot: its events are the sleeps followed
    by the slot, granted at the time of return, which is the newest
    timestamp of the deque. Among other workers the bound does not hold: a
    worker can be overtaken, see [wait_for_slot_overtaken]. *)
Theorem wait_for_slot_bounded (args : Args) (fuel : nat) (w : World) :
  1 <= arg_calls_per_minute args → deque_past w →
  (polls_enough <= fuel)%nat →
  ∃ w' (j : nat),
    wait_for_slot args fuel w = Some w'
    ∧ (j <= 301)%nat
    ∧ (clock w' == clock w + (Z.of_nat j # 5))%Q
    ∧ events w' = events w ++ replicate j (EvSleep (1 # 5))
                           ++ [EvSlot (clock w')]
    ∧ last (call_timestamps w') = Some (clock w')
    ∧ (Z.of_nat (length (call_timestamps w)) < arg_calls_per_minute args
       → j = 0%nat).
Proof.
  intros Hcap Hpast Hfuel.
  apply (wait_for_slot_within args 301 Hcap);
    [|unfold polls_enough in Hfuel; lia].
  eapply Forall_impl; [exact Hpast|]. simpl. intros t Ht.
  assert (Z.of_nat 301 # 5 == 301 # 5)%Q by reflexivity. lra.
Qed.

Lemma wait_for_slot_bounded_witness :
  ∃ w' (j : nat),
    wait_for_slot one_per_minute polls_enough
      (set_call_timestamps [0%Q] (initial_world 30)) = Some w'
    ∧ (j <= 301)%nat
    ∧ (clock w'
       == clock (set_call_timestamps [0%Q] (initial_world 30))
          + (Z.of_nat j # 5))%Q
    ∧ events w'
      = events (set_call_timestamps [0%Q] (initial_world 30))
        ++ replicate j (EvSleep (1 # 5)) ++ [EvSlot (clock w')]
    ∧ last (call_timestamps w') = Some (clock w')
    ∧ (Z.of_nat (length (call_timestamps
                           (set_call_timestamps [0%Q] (initial_world 30))))
       < arg_calls_per_minute one_per_minute
       → j = 0%nat).
Proof.
  apply (wait_for_slot_bounded one_per_minute polls_enough
           (set_call_timestamps [0%Q] (initial_world 30))).
  - simpl. lia.
  - unfold deque_past. simpl. constructor; [by vm_compute|constructor].
  - done.
Defined.

(** After 30 of the 60 seconds the one timestamp of a full deque takes
    151 sleeps to expire. *)
Example wait_for_slot_half_minute :
  (fun w => (length (events w), Qred (clock w)))
    <$> wait_for_slot one_per_minute polls_enough
          (set_call_timestamps [0%Q] (initial_world 30))
  = Some (152%nat, (301 # 5)%Q).
Proof. by vm_compute. Qed.

(** X7. With [--calls-per-minute 0], or a negative one, no slot is ever
    granted: [wait_for_slot] is still waiting after any number of turns,
    and with at least one retry allowed so is [process_batch]: it makes no
    request and writes no record. *)
Theorem wait_for_slot_blocks
    (json_loads : string → option json) (str_exn : exn → string)
    (post : Z → Z → nat → PostReply) (args : Args) :
  arg_calls_per_minute args <= 0 →
  (∀ fuel w, wait_for_slot args fuel w = None)
  ∧ (1 <= arg_max_retries args →
     ∀ fuel batch w,
       process_batch json_loads str_exn post args fuel batch w = None).
Proof.
  intros Hcap. split; [intros fuel w; by apply wait_for_slot_never|].
  intros Hretries fuel batch w. unfold process_batch.
  rewrite attempt_numbers_first.
  destruct (Z.to_nat (arg_max_retries args)) as [|n] eqn:E; [lia|].
  unfold first_attempts. simpl.
  by rewrite wait_for_slot_never.
Qed.

Lemma wait_for_slot_blocks_witness :
  (∀ fuel w, wait_for_slot no_calls_args fuel w = None)
  ∧ (∀ fuel batch w,
       process_batch TinyJson.loads sample_str_exn always_timeout
                     no_calls_args fuel batch w = None).
Proof.
  destruct (wait_for_slot_blocks TinyJson.loads sample_str_exn always_timeout
              no_calls_args ltac:(simpl; lia)) as [Hwait Hbatch].
  split; [exact Hwait|]. apply Hbatch. simpl. lia.
Defined.

(** X8. With [--max-retries 0], or a negative one, the loop body never
    runs: [process_batch] waits for no slot and makes no request, whatever
    the cap on calls, and writes a record whose [model_raw] and
    [model_parsed] are both null. *)
Theorem process_batch_no_attempt
    (json_loads : string → option json) (str_exn : exn → string)
    (post : Z → Z → nat → PostReply) (args : Args)
    (fuel : nat) (batch : Batch) (w : World) :
  arg_max_retries args <= 0 →
  process_batch json_loads str_exn post args fuel batch w
  = Some (Z.of_nat (length batch.2),
          emit (EvWrite {| batch_start_index := batch.1;
                           input_ids := id <$> batch.2;
                           model_raw := JNull;
                           model_parsed := None |}) w).
Proof.
  intros Hretries. unfold process_batch. rewrite attempt_numbers_first.
  by replace (Z.to_nat (arg_max_retries args)) with 0%nat by lia.
Qed.

Lemma process_batch_no_attempt_witness :
  process_batch TinyJson.loads sample_str_exn always_timeout no_retry_args
                0 sample_batch (initial_world 0)
  = Some (Z.of_nat (length sample_batch.2),
          emit (EvWrite {| batch_start_index := sample_batch.1;
                           input_ids := id <$> sample_batch.2;
                           model_raw := JNull;
                           model_parsed := None |}) (initial_world 0)).
Proof.
  apply (process_batch_no_attempt TinyJson.loads sample_str_exn always_timeout
           no_retry_args 0 sample_batch (initial_world 0)).
  simpl. lia.
Defined.

(** ** The limiter in a run *)

Section TraceMore.

Variable json_loads : string → option json.
Variable str_exn : exn → string.
Variable post : Z → Z → nat → PostReply.
Variable args : Args.

Local Abbreviation cpm := (arg_calls_per_minute args).

(** A step that leaves the deque alone, grants no slot and does not turn
    the clock back keeps the trace. *)
Lemma limiter_trace_extend (w w' : World) :
  limiter_trace cpm w →
  call_timestamps w' = call_timestamps w → (clock w <= clock w')%Q →
  slots w' = slots w →
  limiter_trace cpm w'.
Proof.
  intros (polls & Hsorted & Hle & Hrun) Hq Hclock Hslots.
  exists polls. split_and!; [done| |by rewrite Hq, Hslots].
  eapply Forall_impl; [exact Hle|]. simpl. intros p Hp. lra.
Qed.

(** A pass through the locked region extends the trace by its poll. *)
Lemma locked_region_trace (w : World) (ok : bool) (q : list Q) :
  limiter_trace cpm w →
  Limiter.locked_region cpm (clock w) (call_timestamps w) = (ok, q) →
  ∃ polls,
    StronglySorted Qle polls
    ∧ Forall (fun p => (p <= clock w)%Q) polls
    ∧ Limiter.run cpm polls []
      = (slots w ++ (if ok then [clock w] else []), q).
Proof.
  intros (polls & Hsorted & Hle & Hrun) Hpass.
  exists (polls ++ [clock w]). split_and!.
  - by apply StronglySorted_snoc.
  - apply Forall_app. split; [done|]. constructor; [lra|constructor].
  - rewrite run_app, Hrun. simpl. rewrite Hpass. by destruct ok.
Qed.

Lemma wait_for_slot_trace (fuel : nat) :
  ∀ w w' : World,
    limiter_trace cpm w → wait_for_slot args fuel w = Some w' →
    limiter_trace cpm w'
    ∧ slots w' = slots w ++ [clock w']
    ∧ posts w' = posts w ∧ out_f w' = out_f w.
Proof.
  induction fuel as [|fuel IH]; intros w w' Htrace; [done|]. simpl.
  destruct (Limiter.locked_region cpm (clock w) (call_timestamps w))
    as [ok q] eqn:Hpass.
  destruct (locked_region_trace w ok q Htrace Hpass)
    as (polls & Hsorted & Hle & Hrun).
  destruct ok.
  - intros [= <-]. unfold slots, posts, out_f. simpl.
    rewrite !omap_app. simpl. rewrite !app_nil_r.
    split_and!; [|done..]. exists polls. split_and!; [done..|].
    unfold slots. simpl. by rewrite omap_app.
  - intros Hrest. apply IH in Hrest.
    + destruct Hrest as (Htrace' & -> & -> & ->).
      unfold slots, posts, out_f. simpl. rewrite !omap_app. simpl.
      by rewrite !app_nil_r.
    + exists polls. split_and!; [done| |].
      * eapply Forall_impl; [exact Hle|]. simpl. intros p Hp. lra.
      * unfold slots. simpl. rewrite omap_app. simpl.
        by rewrite app_nil_r in Hrun |- *.
Qed.

(** One turn after the slot: one request or two, no slot, no record,
    the deque untouched. *)
Lemma attempt_once_trace (b k : Z) (st st' : Locals) (w w' : World)
    (stop : bool) :
  0 <= k →
  attempt_once json_loads str_exn post b k st w = (stop, st', w') →
  call_timestamps w' = call_timestamps w ∧ (clock w <= clock w')%Q
  ∧ slots w' = slots w ∧ out_f w' = out_f w
  ∧ (length (posts w') = S (length (posts w))
     ∨ length (posts w') = S (S (length (posts w)))).
Proof.
  intros Hk. unfold attempt_once.
  destruct (call_openrouter_spec json_loads post b k w)
    as (call & c & -> & Hcall & Hclock).
  assert (0 <= 1 + inject_Z k)%Q as Hback.
  { assert (0 <= inject_Z k)%Q; [|lra].
    change 0%Q with (inject_Z 0). by rewrite <- Zle_Qle. }
  assert (omap granted call = [] ∧ omap written call = []
          ∧ (length (omap posted call) = 1%nat
             ∨ length (omap posted call) = 2%nat)) as (Hg & Hw & Hp).
  { destruct Hcall as [-> | ->]; simpl; split_and!; auto. }
  intros Hone.
  assert (∃ tail : list Event,
            call_timestamps w' = call_timestamps w ∧ (c <= clock w')%Q
            ∧ events w' = (events w ++ call) ++ tail
            ∧ omap granted tail = [] ∧ omap written tail = []
            ∧ omap posted tail = []) as (tail & Hq & Hc & Hev & Ht1 & Ht2 & Ht3).
  { destruct (reply json_loads post b k) as [text|e];
      [destruct (parse_model_json_value json_loads text) as [[obj|]|e]|];
      injection Hone as <- <- <-; unfold sleep, emit; simpl;
      try (exists [EvSleep (1 + inject_Z k)];
           split_and!; [done|lra|done..]).
    exists []. split_and!; [done|lra|by rewrite app_nil_r|done..]. }
  unfold slots, out_f, posts. rewrite Hev, !omap_app, Hg, Hw, Ht1, Ht2, Ht3.
  rewrite !app_nil_r, length_app.
  split_and!; [done|lra|done|done|lia].
Qed.

Lemma retry_loop_trace (fuel : nat) (b : Z) (ks : list Z) :
  Forall (fun k => 0 <= k) ks →
  ∀ (st st' : Locals) (w w' : World),
    limiter_trace cpm w →
    retry_loop json_loads str_exn post args fuel ks b st w = Some (st', w') →
    limiter_trace cpm w' ∧ out_f w' = out_f w
    ∧ ∃ n p : nat,
        length (slots w') = (length (slots w) + n)%nat
        ∧ length (posts w') = (length (posts w) + p)%nat
        ∧ (n <= p <= 2 * n)%nat ∧ (n <= length ks)%nat.
Proof.
  induction 1 as [|k ks Hk _ IH]; intros st st' w w' Htrace; simpl.
  - intros [= <- <-]. split_and!; [done..|]. exists 0%nat, 0%nat. lia.
  - destruct (wait_for_slot args fuel w) as [w1|] eqn:Hwait; [|done]. simpl.
    destruct (wait_for_slot_trace _ _ _ Htrace Hwait)
      as (Htrace1 & Hslots1 & Hposts1 & Hout1).
    destruct (attempt_once json_loads str_exn post b k st w1)
      as [[stop st2] w2] eqn:Hone.
    destruct (attempt_once_trace _ _ _ _ _ _ _ Hk Hone)
      as (Hq2 & Hclock2 & Hslots2 & Hout2 & Hposts2).
    pose proof (limiter_trace_extend _ _ Htrace1 Hq2 Hclock2 Hslots2)
      as Htrace2.
    assert (length (slots w2) = S (length (slots w))) as Hs.
    { rewrite Hslots2, Hslots1, length_app. simpl. lia. }
    rewrite Hposts1 in Hposts2.
    destruct stop.
    + intros [= <- <-]. split_and!; [done|congruence|].
      exists 1%nat, (length (posts w2) - length (posts w))%nat. lia.
    + intros Hrest. apply IH in Hrest; [|done].
      destruct Hrest as (Htrace' & Hout' & n & p & Hn & Hp & Hnp & Hlen).
      split_and!; [done|congruence|].
      exists (S n), (p + (length (posts w2) - length (posts w)))%nat. lia.
Qed.

Lemma process_batch_trace (fuel : nat) (batch : Batch) (w w' : World) (m : Z) :
  limiter_trace cpm w →
  process_batch json_loads str_exn post args fuel batch w = Some (m, w') →
  limiter_trace cpm w'
  ∧ ∃ n p : nat,
      length (slots w') = (length (slots w) + n)%nat
      ∧ length (posts w') = (length (posts w) + p)%nat
      ∧ (n <= p <= 2 * n)%nat
      ∧ (n <= Z.to_nat (arg_max_retries args))%nat.
Proof.
  intros Htrace. unfold process_batch. rewrite attempt_numbers_first.
  destruct (retry_loop _ _ _ _ _ _ _ _ _) as [[st1 w1]|] eqn:Hloop; [|done].
  simpl. intros [= <- <-].
  apply retry_loop_trace in Hloop; [|apply first_attempts_nonneg|done].
  destruct Hloop as (Htrace1 & Hout & n & p & Hn & Hp & Hnp & Hlen).
  unfold first_attempts in Hlen. rewrite length_fmap, length_seq in Hlen.
  split.
  - apply (limiter_trace_extend w1); [done|done|simpl; lra|].
    unfold slots. simpl. rewrite omap_app. simpl. by rewrite app_nil_r.
  - exists n, p. unfold slots, posts. simpl. rewrite !omap_app. simpl.
    rewrite !app_nil_r. split_and!; [exact Hn|exact Hp|lia..].
Qed.

Lemma dispatch_trace (fuel : nat) (batches : list Batch) :
  ∀ (total total' : Z) (w w' : World),
    limiter_trace cpm w →
    dispatch json_loads str_exn post args fuel batches total w
    = Some (total', w') →
    limiter_trace cpm w'
    ∧ ∃ n p : nat,
        length (slots w') = (length (slots w) + n)%nat
        ∧ length (posts w') = (length (posts w) + p)%nat
        ∧ (n <= p <= 2 * n)%nat
        ∧ (n <= Z.to_nat (arg_max_retries args) * length batches)%nat.
Proof.
  induction batches as [|batch batches IH]; intros total total' w w' Htrace;
    simpl.
  - intros [= <- <-]. split; [done|]. exists 0%nat, 0%nat. lia.
  - destruct (process_batch _ _ _ _ _ _ _) as [[m w1]|] eqn:Hone; [|done].
    simpl. intros Hrest.
    apply process_batch_trace in Hone as (Htrace1 & n1 & p1 & ? & ? & ? & ?);
      [|done].
    apply IH in Hrest as (Htrace' & n & p & ? & ? & ? & ?); [|done].
    split; [done|]. exists (n1 + n)%nat, (p1 + p)%nat. lia.
Qed.

(** Under a trace no closed window of 60 seconds holds more slots than
    the cap. *)
Lemma limiter_trace_window (w : World) :
  0 <= cpm → limiter_trace cpm w →
  ∀ t, Z.of_nat (Limiter.in_window t (slots w)) <= cpm.
Proof.
  intros Hcap (polls & Hsorted & _ & Hrun) t.
  pose proof (run_window cpm polls [] [] (default 0%Q (head polls))) as Hwin.
  rewrite Hrun in Hwin. simpl in Hwin. apply Hwin; [|constructor|done].
  apply StronglySorted_Sorted in Hsorted.
  destruct polls as [|p polls]; simpl; [repeat constructor|].
  constructor; [done|]. constructor. apply Qle_refl.
Qed.

End TraceMore.

(** X9. End to end, for the pool run one batch after the other with a
    cap of [N >= 1] calls per minute: the run finishes, no closed window of
    60 seconds holds more than [N] of the slots granted, and there are at
    most [max_retries] slots for each planned batch. Every slot is
    followed by a request, but the second request after a 429 waits for no
    slot: the requests number between the slots and twice the slots. *)
Theorem main_rate_bound
    (json_loads : string → option json) (str_exn : exn → string)
    (post : Z → Z → nat → PostReply) (args : Args) (fuel : nat)
    (key : string) (lines : list Row) (output : option (list string))
    (t0 : Q) (batches : list Batch) :
  key ≠ "" →
  build_batches args (load_lines args lines) = Ok batches →
  let planned :=
    skip_processed (scan_processed_ids json_loads args output) batches in
  Z.of_nat (length planned) <= arg_daily_call_cap args →
  1 <= arg_concurrency args → 1 <= arg_calls_per_minute args →
  (polls_enough <= fuel)%nat →
  ∃ total w,
    main json_loads str_exn post args fuel (Some key) lines output t0
    = Some (Finished total (length planned), w)
    ∧ (∀ t, Z.of_nat (Limiter.in_window t (slots w))
            <= arg_calls_per_minute args)
    ∧ (length (slots w)
       <= Z.to_nat (arg_max_retries args) * length planned)%nat
    ∧ (length (slots w) <= length (posts w) <= 2 * length (slots w))%nat.
Proof.
  intros Hkey Hbuild planned Hunder Hconc Hcpm Hfuel.
  unfold main. rewrite Hbuild.
  destruct key as [|c key]; [done|]. fold planned.
  destruct (Z.ltb_spec (arg_daily_call_cap args) (Z.of_nat (length planned)));
    [lia|].
  destruct (Z.leb_spec (arg_concurrency args) 0); [lia|].
  destruct (dispatch_spec json_loads str_exn post args Hcpm fuel planned
              Hfuel 0 (initial_world t0))
    as (w & evs & Hrun & _); [constructor|].
  rewrite Hrun. simpl. eexists _, w. split; [done|].
  apply dispatch_trace in Hrun as (Htrace & n & p & Hn & Hp & Hnp & Hlen).
  2:{ exists []. split_and!; [constructor|constructor|done]. }
  simpl in Hn, Hp. split_and!; [|lia..].
  apply limiter_trace_window; [lia|done].
Qed.

Lemma main_rate_bound_witness :
  ∃ total w,
    main TinyJson.loads sample_str_exn always_timeout one_per_minute
         polls_enough (Some "sk-test") sample_lines None 0
    = Some (Finished total 3, w)
    ∧ (∀ t, Z.of_nat (Limiter.in_window t (slots w)) <= 1)
    ∧ (length (slots w) <= 3 * 3)%nat
    ∧ (length (slots w) <= length (posts w) <= 2 * length (slots w))%nat.
Proof.
  destruct (main_rate_bound TinyJson.loads sample_str_exn always_timeout
              one_per_minute polls_enough "sk-test" sample_lines None 0 _
              ltac:(done) eq_refl)
    as (total & w & Hrun & Hwin & Hslots & Hposts).
  - by vm_compute.
  - simpl. lia.
  - simpl. lia.
  - done.
  - exists total, w.
    split; [exact Hrun|split; [exact Hwin|split; [exact Hslots|exact Hposts]]].
Defined.

(** ** Loading, batch building and the driver *)

(** X10. The two slices in terms of [take] and [drop]: a [--start] of
    [s >= 0] drops the first [s] lines, a negative one keeps the last [-s]
    lines; of what is left a [--max] of [m > 0] keeps the first [m] lines,
    a negative one drops the last [-m] lines, and none or 0 keeps all. *)
Theorem load_lines_window {A} (args : Args) (lines : list A) :
  let kept :=
    if arg_start args <? 0
    then drop (length lines - Z.to_nat (- arg_start args)) lines
    else drop (Z.to_nat (arg_start args)) lines in
  load_lines args lines
  = match arg_max args with
    | None => kept
    | Some m =>
        if m =? 0 then kept
        else if m <? 0 then take (length kept - Z.to_nat (- m)) kept
        else take (Z.to_nat m) kept
    end.
Proof.
  intros kept.
  assert ((if negb (arg_start args =? 0)
           then Py.slice lines (Some (arg_start args)) None else lines)
          = kept) as Hkept.
  { unfold kept. destruct (Z.eqb_spec (arg_start args) 0) as [->|Hne]; simpl.
    - by rewrite drop_0.
    - unfold Py.slice, Py.clamp. simpl.
      destruct (Z.ltb_spec (arg_start args) 0).
      + rewrite take_ge by (rewrite length_drop; lia). f_equal. lia.
      + rewrite take_ge by (rewrite length_drop; lia).
        destruct (Z.le_gt_cases (arg_start args) (Z.of_nat (length lines))).
        * by rewrite Z.min_l by lia.
        * rewrite Z.min_r by lia. by rewrite !drop_ge by lia. }
  unfold load_lines. rewrite Hkept.
  destruct (arg_max args) as [m|]; [|done].
  destruct (Z.eqb_spec m 0) as [->|Hne]; simpl; [done|].
  unfold Py.slice, Py.clamp. simpl. rewrite drop_0, Z.sub_0_r.
  destruct (Z.ltb_spec m 0).
  - f_equal. lia.
  - destruct (Z.le_gt_cases m (Z.of_nat (length kept))).
    + by rewrite Z.min_l by lia.
    + rewrite Z.min_r by lia. by rewrite !take_ge by lia.
Qed.

Section BuildMore.

Context {A B : Type} (f : A → result B).

Lemma traverse_app (l1 l2 : list A) :
  traverse f (l1 ++ l2)
  = ys1 ← traverse f l1; ys2 ← traverse f l2; Ok (ys1 ++ ys2).
Proof.
  induction l1 as [|x l1 IH]; simpl.
  - by destruct (traverse f l2).
  - destruct (f x) as [y|]; simpl; [|done]. rewrite IH.
    destruct (traverse f l1) as [ys1|]; simpl; [|done].
    by destruct (traverse f l2).
Qed.

Lemma traverse_concat (ls : list (list A)) (yss : list (list B)) :
  Forall2 (fun l ys => traverse f l = Ok ys) ls yss →
  traverse f (concat ls) = Ok (concat yss).
Proof.
  induction 1 as [|l ys ls yss Hl _ IH]; simpl; [done|].
  by rewrite traverse_app, Hl, IH.
Qed.

(** What raises in a traversal is one of the calls. *)
Lemma traverse_Raise (l : list A) (e : exn) :
  traverse f l = Raise e → ∃ x, x ∈ l ∧ f x = Raise e.
Proof.
  induction l as [|x l IH]; simpl; [done|].
  destruct (f x) as [y|e'] eqn:E; simpl.
  - destruct (traverse f l) as [ys|e'']; simpl; [done|].
    intros [= <-]. destruct (IH eq_refl) as (x' & Hin & Hx').
    exists x'. split; [by right|done].
  - intros [= <-]. exists x. split; [by left|done].
Qed.

End BuildMore.

Lemma slice_subseteq {A} (l : list A) (lo hi : option Z) (x : A) :
  x ∈ Py.slice l lo hi → x ∈ l.
Proof.
  unfold Py.slice. intros Hin. by apply subseteq_take, subseteq_drop in Hin.
Qed.

(** Batches that were built, for a positive batch size: their number, and
    the records of the lines in order. *)
Lemma build_batches_inv (args : Args) (lines : list Row)
    (batches : list Batch) :
  1 <= arg_batch_size args →
  build_batches args lines = Ok batches →
  traverse paper_of_row lines = Ok (concat (snd <$> batches))
  ∧ length batches
    = Z.to_nat (ceil_div (Z.of_nat (length lines)) (arg_batch_size args)).
Proof.
  intros Hsize. unfold build_batches, Py.range.
  set (size := arg_batch_size args) in *.
  set (n := Z.of_nat (length lines)).
  destruct (Z.eqb_spec size 0); [lia|].
  destruct (Z.ltb_spec 0 size); [|lia]. csimpl.
  rewrite range_up_closed, Z.sub_0_r by lia.
  set (c := Z.to_nat (ceil_div n size)).
  intros Hall. apply traverse_Ok in Hall.
  pose proof (Forall2_length _ _ _ Hall) as Hlen.
  rewrite length_fmap, length_seq in Hlen. split; [|done].
  pose proof (proj1 (ceil_div_spec n size _ ltac:(lia)) eq_refl) as Hc.
  assert (0 <= ceil_div n size) as Hc0 by (unfold n in *; nia).
  rewrite <- (concat_chunks (Z.to_nat size) c lines) at 1
    by (unfold c, n in *; nia).
  apply traverse_concat, Forall2_fmap, Forall2_flip.
  rewrite Forall2_fmap_l in Hall. apply Forall2_flip.
  eapply Forall2_impl; [exact Hall|]. simpl. intros k b Hb.
  rewrite Z.add_0_l, slice_chunk in Hb by lia.
  replace (Z.to_nat (Z.of_nat k * size)) with (k * Z.to_nat size)%nat
    in Hb by lia.
  destruct (traverse paper_of_row _) as [recs|]; [|done].
  by injection Hb as <-.
Qed.

(** For a batch size other than zero, what batch building raises was
    raised for one of the lines. *)
Lemma build_batches_Raise (args : Args) (lines : list Row) (e : exn) :
  arg_batch_size args ≠ 0 →
  build_batches args lines = Raise e →
  ∃ row, row ∈ lines ∧ paper_of_row row = Raise e.
Proof.
  intros Hsize. unfold build_batches, Py.range.
  destruct (Z.eqb_spec (arg_batch_size args) 0); [done|].
  destruct (0 <? arg_batch_size args); csimpl;
    intros (i & _ & Hi)%traverse_Raise;
    (destruct (traverse paper_of_row _) as [recs|e'] eqn:E; [done|]);
    injection Hi as <-;
    apply traverse_Raise in E as (row & Hin%slice_subseteq & Hrow);
    by exists row.
Qed.

Lemma paper_of_row_Raise (row : Row) (e : exn) :
  paper_of_row row = Raise e → e = ValueError ∨ e = IndexError.
Proof.
  unfold paper_of_row.
  destruct (reconstruct_abstract _) as [a|e'] eqn:E; simpl; [done|].
  intros [= <-].
  destruct (row_abstract_inverted_index row) as [[|wp inv]|]; [done| |done].
  change (abstract_words (wp :: inv)
          ≫= (fun words => Ok (Py.join " " words)) = Raise e') in E.
  destruct (abstract_words (wp :: inv)) as [ws|e''] eqn:Hws; [done|].
  injection E as ->. unfold abstract_words in Hws.
  destruct (Py.max (positions (wp :: inv))) as [m|e''] eqn:Hmax.
  - right. by eapply place_all_raises.
  - left. injection Hws as <-. unfold Py.max in Hmax.
    destruct (positions (wp :: inv)); congruence.
Qed.

(** X11. One line whose abstract cannot be rebuilt stops the whole run:
    for a positive batch size, if the inverted index of some loaded line
    makes [reconstruct_abstract] raise, [main] ends with that kind of
    exception, a [ValueError] or an [IndexError], before any request is
    made or any record written. *)
Theorem main_malformed_row
    (json_loads : string → option json) (str_exn : exn → string)
    (post : Z → Z → nat → PostReply) (args : Args) (fuel : nat)
    (key : string) (lines : list Row) (output : option (list string))
    (t0 : Q) :
  key ≠ "" → 1 <= arg_batch_size args →
  Exists (fun row => is_ok (paper_of_row row) = false)
         (load_lines args lines) →
  ∃ e, (e = ValueError ∨ e = IndexError)
       ∧ main json_loads str_exn post args fuel (Some key) lines output t0
         = Some (Uncaught e, initial_world t0).
Proof.
  intros Hkey Hsize Hbad. unfold main.
  destruct key as [|c key]; [done|].
  destruct (build_batches args (load_lines args lines)) as [batches|e] eqn:E.
  - exfalso. apply build_batches_inv in E as [E _]; [|done].
    apply traverse_Ok in E. apply Exists_exists in Hbad as (row & Hin & Hrow).
    apply list_elem_of_lookup in Hin as [i Hi].
    destruct (Forall2_lookup_l _ _ _ _ _ E Hi) as (rec & _ & Hrec).
    by rewrite Hrec in Hrow.
  - exists e. split; [|done].
    apply build_batches_Raise in E as (row & _ & Hrow); [|lia].
    by eapply paper_of_row_Raise.
Qed.

Lemma main_malformed_row_witness :
  ∃ e, (e = ValueError ∨ e = IndexError)
       ∧ main TinyJson.loads sample_str_exn always_timeout default_args
              polls_enough (Some "sk-test")
              (sample_lines ++ [row_without_position]) None 0
         = Some (Uncaught e, initial_world 0).
Proof.
  apply (main_malformed_row TinyJson.loads sample_str_exn always_timeout
           default_args polls_enough "sk-test"
           (sample_lines ++ [row_without_position]) None 0).
  - done.
  - simpl. lia.
  - apply Exists_exists. exists row_without_position.
    split; [|reflexivity]. apply elem_of_app. right. by left.
Defined.

(** X12. The batch size at its edges: with [--batch-size 0] the [range]
    raises [ValueError] and the run ends there; with a negative one the
    [range] is empty, so no line is decoded and no batch built, and under
    a cap that is not negative the run finishes having sent and written
    nothing. *)
Theorem main_batch_size_edge
    (json_loads : string → option json) (str_exn : exn → string)
    (post : Z → Z → nat → PostReply) (args : Args) (fuel : nat)
    (key : string) (lines : list Row) (output : option (list string))
    (t0 : Q) :
  key ≠ "" →
  (arg_batch_size args = 0 →
   main json_loads str_exn post args fuel (Some key) lines output t0
   = Some (Uncaught ValueError, initial_world t0))
  ∧ (arg_batch_size args < 0 → 0 <= arg_daily_call_cap args →
     1 <= arg_concurrency args →
     main json_loads str_exn post args fuel (Some key) lines output t0
     = Some (Finished 0 0, initial_world t0)).
Proof.
  intros Hkey. destruct key as [|c key]; [done|].
  unfold main, build_batches, Py.range. split.
  - by intros ->.
  - intros Hsize Hcap Hconc.
    destruct (Z.eqb_spec (arg_batch_size args) 0); [lia|].
    destruct (Z.ltb_spec 0 (arg_batch_size args)); [lia|].
    replace (Z.to_nat (0 - Z.of_nat (length (load_lines args lines))))
      with 0%nat by lia.
    csimpl.
    unfold skip_processed.
    destruct (bool_decide _); simpl; change (Z.of_nat 0) with 0;
      (destruct (Z.ltb_spec (arg_daily_call_cap args) 0); [lia|]);
      (destruct (Z.leb_spec (arg_concurrency args) 0); [lia|done]).
Qed.

Lemma main_batch_size_edge_witness :
  main TinyJson.loads sample_str_exn always_timeout
       (with_batch_size 0 default_args) polls_enough (Some "sk-test")
       sample_lines None 0
  = Some (Uncaught ValueError, initial_world 0)
  ∧ main TinyJson.loads sample_str_exn always_timeout
         (with_batch_size (-5) default_args) polls_enough (Some "sk-test")
         sample_lines None 0
    = Some (Finished 0 0, initial_world 0).
Proof.
  split.
  - apply (main_batch_size_edge TinyJson.loads sample_str_exn always_timeout
             (with_batch_size 0 default_args) polls_enough "sk-test"
             sample_lines None 0); done.
  - apply (main_batch_size_edge TinyJson.loads sample_str_exn always_timeout
             (with_batch_size (-5) default_args) polls_enough "sk-test"
             sample_lines None 0); [done|simpl; lia..].
Defined.

Lemma build_batches_total (args : Args) (lines : list Row)
    (recs : list PaperRecord) :
  arg_batch_size args ≠ 0 →
  traverse paper_of_row lines = Ok recs →
  ∃ batches, build_batches args lines = Ok batches.
Proof.
  intros Hsize Hrecs.
  destruct (build_batches args lines) as [batches|e] eqn:E; [by eexists|].
  apply build_batches_Raise in E as (row & Hin & Hrow); [|done].
  apply traverse_Ok in Hrecs. apply list_elem_of_lookup in Hin as [i Hi].
  destruct (Forall2_lookup_l _ _ _ _ _ Hrecs Hi) as (rec & _ & Hrec).
  congruence.
Qed.

Lemma records_ids (batches : list Batch) (rs : list ClassificationResult) :
  Forall2 record_of batches rs →
  concat (input_ids <$> rs) = id <$> concat (snd <$> batches).
Proof.
  induction 1 as [|b r batches rs [_ Hr] _ IH]; csimpl; [done|].
  by rewrite fmap_app, Hr, IH.
Qed.

Lemma traverse_ids (rows : list Row) (recs : list PaperRecord) :
  traverse paper_of_row rows = Ok recs → id <$> recs = row_id <$> rows.
Proof.
  rewrite traverse_Ok.
  induction 1 as [|row rec rows recs Hrec _ IH]; csimpl; [done|].
  by rewrite IH, (paper_of_row_id _ _ Hrec).
Qed.

Lemma skip_processed_empty (batches : list Batch) :
  skip_processed ∅ batches = batches.
Proof. unfold skip_processed. by case_bool_decide. Qed.

Lemma scan_without_resume (json_loads : string → option json) (args : Args)
    (output : option (list string)) :
  arg_resume args = false → scan_processed_ids json_loads args output = ∅.
Proof. intros Hres. unfold scan_processed_ids. rewrite Hres. by destruct output. Qed.

(** X13. A run without [--resume], with a positive batch size, over [N]
    loaded lines that all decode, under a cap that allows its
    [ceil(N / B)] batches: the run finishes, counts [N] input papers, and
    the [input_ids] of the records written, read in order, are the ids of
    the loaded lines in their order, each once. *)
Theorem main_writes_every_id
    (json_loads : string → option json) (str_exn : exn → string)
    (post : Z → Z → nat → PostReply) (args : Args) (fuel : nat)
    (key : string) (lines : list Row) (output : option (list string))
    (t0 : Q) :
  let loaded := load_lines args lines in
  let planned :=
    ceil_div (Z.of_nat (length loaded)) (arg_batch_size args) in
  key ≠ "" → 1 <= arg_batch_size args → arg_resume args = false →
  Forall (fun row => is_ok (paper_of_row row) = true) loaded →
  planned <= arg_daily_call_cap args →
  1 <= arg_concurrency args → 1 <= arg_calls_per_minute args →
  (polls_enough <= fuel)%nat →
  ∃ w,
    main json_loads str_exn post args fuel (Some key) lines output t0
    = Some (Finished (Z.of_nat (length loaded)) (Z.to_nat planned), w)
    ∧ concat (input_ids <$> out_f w) = row_id <$> loaded.
Proof.
  intros loaded planned Hkey Hsize Hres Hrows Hcap Hconc Hcpm Hfuel.
  destruct (traverse_total paper_of_row loaded Hrows) as [recs Hrecs].
  destruct (build_batches_total args loaded recs ltac:(lia) Hrecs)
    as [batches Hbuild].
  destruct (build_batches_inv _ _ _ Hsize Hbuild) as [Hall Hlen].
  fold planned in Hlen.
  assert (recs = concat (snd <$> batches)) as -> by congruence.
  assert (0 <= planned) as Hpos.
  { pose proof (proj1 (ceil_div_spec (Z.of_nat (length loaded))
                         (arg_batch_size args) _ ltac:(lia)) eq_refl).
    unfold planned. nia. }
  unfold main. destruct key as [|c key]; [done|].
  fold loaded. rewrite Hbuild, scan_without_resume, skip_processed_empty
    by done.
  destruct (Z.ltb_spec (arg_daily_call_cap args) (Z.of_nat (length batches)));
    [lia|].
  destruct (Z.leb_spec (arg_concurrency args) 0); [lia|].
  destruct (dispatch_spec json_loads str_exn post args Hcpm fuel batches
              Hfuel 0 (initial_world t0))
    as (w & evs & Hrun & Hev & _ & Hrecords & _); [constructor|].
  rewrite Hrun. simpl. exists w. split.
  - do 3 f_equal; [|done].
    apply traverse_Ok, Forall2_length in Hall. lia.
  - unfold out_f. rewrite Hev. simpl.
    rewrite (records_ids _ _ Hrecords). by apply traverse_ids.
Qed.

Lemma main_writes_every_id_witness :
  ∃ w,
    main TinyJson.loads sample_str_exn always_timeout default_args
         polls_enough (Some "sk-test") sample_lines None 0
    = Some (Finished 25 3, w)
    ∧ concat (input_ids <$> out_f w) = row_id <$> sample_lines.
Proof.
  apply (main_writes_every_id TinyJson.loads sample_str_exn always_timeout
           default_args polls_enough "sk-test" sample_lines None 0).
  - done.
  - simpl. lia.
  - done.
  - by repeat constructor.
  - by vm_compute.
  - simpl. lia.
  - simpl. lia.
  - done.
Defined.

(** ** Resuming *)

Section ResumeMore.

Variable json_loads : string → option json.

Lemma hashable_prefix_strs (ids : list string) :
  hashable_prefix (JStr <$> ids) = ids.
Proof. induction ids as [|x ids IH]; csimpl; [done|by rewrite IH]. Qed.

(** A line that decodes to a record written adds its [input_ids]. *)
Lemma ids_of_line_record (line : string) (r : ClassificationResult) :
  json_loads line = Some (record_json r) →
  ids_of_line json_loads line = input_ids r.
Proof.
  intros Hline. unfold ids_of_line. rewrite Hline. simpl.
  apply hashable_prefix_strs.
Qed.

Lemma elem_of_scan (args : Args) (lines : list string) (x : string) :
  arg_resume args = true →
  x ∈ scan_processed_ids json_loads args (Some lines)
  ↔ ∃ line, line ∈ lines ∧ x ∈ ids_of_line json_loads line.
Proof.
  intros Hres. unfold scan_processed_ids. rewrite Hres, elem_of_list_to_set.
  induction lines as [|l lines IH]; csimpl.
  - split; [by intros ?%elem_of_nil|by intros (? & ?%elem_of_nil & _)].
  - rewrite elem_of_app, IH. split.
    + intros [Hx|(line & Hin & Hx)]; [exists l|exists line];
        (split; [|done]); [by left|by right].
    + intros (line & [->|Hin]%elem_of_cons & Hx); [by left|].
      right. by exists line.
Qed.

Lemma filter_none {A} (f : A → bool) (l : list A) :
  Forall (fun x => f x = false) l → List.filter f l = [].
Proof. induction 1 as [|x l Hx _ IH]; simpl; [done|by rewrite Hx]. Qed.

End ResumeMore.

(** X14. Resuming a finished run plans nothing. Under a cap of at least
    one call per minute a run over batches within the daily cap finishes;
    if afterwards every record it wrote is found decoded on some line of
    the output file, whatever else the file holds, the same command with
    [--resume] skips every batch: it finishes at once, having sent and
    written nothing. *)
Theorem resume_after_complete_run
    (json_loads : string → option json) (str_exn : exn → string)
    (post : Z → Z → nat → PostReply) (args : Args) (fuel : nat)
    (key : string) (lines : list Row) (t0 : Q) (batches : list Batch) :
  key ≠ "" →
  build_batches args (load_lines args lines) = Ok batches →
  Z.of_nat (length batches) <= arg_daily_call_cap args →
  1 <= arg_concurrency args → 1 <= arg_calls_per_minute args →
  (polls_enough <= fuel)%nat →
  ∃ total w,
    main json_loads str_exn post args fuel (Some key) lines None t0
    = Some (Finished total (length batches), w)
    ∧ ∀ (out_lines : list string) (fuel' : nat) (t1 : Q),
        (∀ r, r ∈ out_f w →
              ∃ line, line ∈ out_lines
                      ∧ json_loads line = Some (record_json r)) →
        main json_loads str_exn post (with_resume args) fuel' (Some key)
             lines (Some out_lines) t1
        = Some (Finished 0 0, initial_world t1).
Proof.
  intros Hkey Hbuild Hcap Hconc Hcpm Hfuel.
  pose proof (build_batches_nonempty _ _ _ Hbuild) as Hne.
  unfold main. destruct key as [|c key]; [done|].
  change (load_lines (with_resume args) lines) with (load_lines args lines).
  change (build_batches (with_resume args) (load_lines args lines))
    with (build_batches args (load_lines args lines)).
  rewrite Hbuild. simpl. rewrite skip_processed_empty.
  destruct (Z.ltb_spec (arg_daily_call_cap args) (Z.of_nat (length batches)));
    [lia|].
  destruct (Z.leb_spec (arg_concurrency args) 0); [lia|].
  destruct (dispatch_spec json_loads str_exn post args Hcpm fuel batches
              Hfuel 0 (initial_world t0))
    as (w & evs & Hrun & Hev & _ & Hrecords & _); [constructor|].
  rewrite Hrun. simpl. eexists _, w. split; [done|].
  intros out_lines fuel' t1 Hfile.
  set (P := list_to_set (concat (ids_of_line json_loads <$> out_lines))
            : gset string).
  assert (Forall (fun b : Batch => Forall (fun p => id p ∈ P) b.2) batches)
    as Hdone.
  { apply Forall_forall. intros b Hb. apply Forall_forall. intros p Hp.
    apply list_elem_of_lookup in Hb as [i Hi].
    destruct (Forall2_lookup_l _ _ _ _ _ Hrecords Hi) as (r & Hr & _ & Hids).
    destruct (Hfile r) as (line & Hline & Hdec).
    { unfold out_f. rewrite Hev. simpl. by eapply list_elem_of_lookup_2. }
    apply (elem_of_scan json_loads (with_resume args) out_lines); [done|].
    exists line. split; [done|].
    rewrite (ids_of_line_record _ _ _ Hdec), Hids.
    by apply list_elem_of_fmap_2. }
  assert (skip_processed P batches = []) as ->.
  { unfold skip_processed. case_bool_decide as Hset.
    - apply filter_none. eapply Forall_impl; [exact Hdone|]. simpl.
      intros b Hb. apply negb_false_iff. by apply fully_processed_Forall.
    - destruct batches as [|b batches]; [done|]. exfalso.
      apply Forall_cons in Hdone as [Hb _]. apply Forall_cons in Hne as [Hb2 _].
      destruct (b.2) as [|p ps]; [done|]. apply Forall_cons in Hb as [Hp _].
      rewrite Hset in Hp. by apply elem_of_empty in Hp. }
  simpl. change (Z.of_nat 0) with 0.
  destruct (Z.ltb_spec (arg_daily_call_cap args) 0); [lia|].
  destruct (Z.leb_spec (arg_concurrency args) 0); [lia|done].
Qed.

Lemma resume_after_complete_run_witness :
  ∃ total w,
    main TinyJson.loads sample_str_exn always_timeout default_args
         polls_enough (Some "sk-test") (take 2 sample_lines) None 0
    = Some (Finished total 1, w)
    ∧ ∀ (out_lines : list string) (fuel' : nat) (t1 : Q),
        (∀ r, r ∈ out_f w →
              ∃ line, line ∈ out_lines
                      ∧ TinyJson.loads line = Some (record_json r)) →
        main TinyJson.loads sample_str_exn always_timeout
             (with_resume default_args) fuel' (Some "sk-test")
             (take 2 sample_lines) (Some out_lines) t1
        = Some (Finished 0 0, initial_world t1).
Proof.
  apply (resume_after_complete_run TinyJson.loads sample_str_exn
           always_timeout default_args polls_enough "sk-test"
           (take 2 sample_lines) 0
           [(0, [ {| id := "A"; title := ""; first_author := "";
                     year := YearNA; abstract := "spikes" |};
                  {| id := "B"; title := ""; first_author := "";
                     year := YearNA; abstract := "spikes" |} ])]).
  - done.
  - reflexivity.
  - simpl. lia.
  - simpl. lia.
  - simpl. lia.
  - done.
Defined.

(** The output file of a run of two lines whose requests all time out,
    read back with [--resume]: nothing is left to do. *)
Example resume_sample :
  main TinyJson.loads sample_str_exn always_timeout
       (with_resume default_args) polls_enough (Some "sk-test")
       (take 2 sample_lines)
       (Some ["{" +:+ dq +:+ "batch_start_index" +:+ dq +:+ ": 0, "
              +:+ dq +:+ "input_ids" +:+ dq +:+ ": ["
              +:+ dq +:+ "A" +:+ dq +:+ ", " +:+ dq +:+ "B" +:+ dq +:+ "], "
              +:+ dq +:+ "model_raw" +:+ dq +:+ ": "
              +:+ dq +:+ "exception: timed out" +:+ dq +:+ ", "
              +:+ dq +:+ "model_parsed" +:+ dq +:+ ": null}"]) 0
  = Some (Finished 0 0, initial_world 0).
Proof. by vm_compute. Qed.

(** ** Response parsing *)

Section StripMore.

Implicit Types (s pre post : string).

Local Arguments String.append !_ _ / : simpl nomatch.

(** What [lstrip] leaves does not start with white space. *)
Lemma lstrip_head s a t :
  Str.lstrip s = String a t → Str.is_space a = false.
Proof.
  induction s as [|b s IH]; simpl; [done|].
  destruct (Str.is_space b) eqn:E; [done|]. by intros [= <- _].
Qed.

Lemma rstrip_head a t :
  Str.is_space a = false → Str.rstrip (String a t) ≠ "".
Proof. intros Ha. simpl. rewrite Ha. by destruct (Str.rstrip t). Qed.

Lemma strip_empty s : Str.strip s = "" → Str.lstrip s = "".
Proof.
  unfold Str.strip. destruct (Str.lstrip s) as [|a t] eqn:E; [done|].
  intros H. by apply rstrip_head in H; [|by eapply lstrip_head].
Qed.

Lemma lstrip_app_space pre s :
  Str.lstrip pre = "" → Str.lstrip (pre +:+ s) = Str.lstrip s.
Proof.
  induction pre as [|a pre IH]; simpl; [done|].
  destruct (Str.is_space a); [done|by intros ?].
Qed.

Lemma lstrip_app s post :
  Str.lstrip s ≠ "" → Str.lstrip (s +:+ post) = Str.lstrip s +:+ post.
Proof.
  induction s as [|a s IH]; simpl; [done|].
  by destruct (Str.is_space a).
Qed.

Lemma rstrip_space post : Str.lstrip post = "" → Str.rstrip post = "".
Proof.
  induction post as [|a post IH]; simpl; [done|].
  destruct (Str.is_space a); [|done]. by intros ->%IH.
Qed.

Lemma rstrip_app_space s post :
  Str.lstrip post = "" → Str.rstrip (s +:+ post) = Str.rstrip s.
Proof.
  intros Hpost. induction s as [|a s IH]; simpl.
  - by apply rstrip_space.
  - by rewrite IH.
Qed.

Lemma strip_app_space pre s post :
  Str.strip pre = "" → Str.strip post = "" →
  Str.strip (pre +:+ s +:+ post) = Str.strip s.
Proof.
  intros Hpre%strip_empty Hpost%strip_empty. unfold Str.strip.
  rewrite lstrip_app_space by done.
  destruct (Str.lstrip s) as [|a t] eqn:E.
  - by rewrite lstrip_app_space, Hpost by done.
  - rewrite lstrip_app, E by (by rewrite E).
    rewrite rstrip_app_space by done. done.
Qed.

End StripMore.

(** X15. White space around the reply does not matter: for [pre] and
    [post] made of white space only, [parse_model_json] gives on
    [pre + text + post] what it gives on [text]. *)
Theorem parse_model_json_whitespace (json_loads : string → option json)
    (pre text post : string) :
  Str.strip pre = "" → Str.strip post = "" →
  parse_model_json json_loads (pre +:+ text +:+ post)
  = parse_model_json json_loads text.
Proof.
  intros Hpre Hpost. unfold parse_model_json.
  by rewrite strip_app_space.
Qed.

Lemma parse_model_json_whitespace_witness :
  parse_model_json TinyJson.loads
    (String "010" " " +:+ sample_reply +:+ String " " (String "010" ""))
  = parse_model_json TinyJson.loads sample_reply.
Proof.
  apply (parse_model_json_whitespace TinyJson.loads (String "010" " ")
           sample_reply (String " " (String "010" ""))); reflexivity.
Defined.

(** ** Calling the service *)

(** X16. The 429 policy of [call_openrouter]: a first response whose
    status is not 429 is read as it is, after one request and no sleep; a
    first 429 is followed by five seconds of sleep and one more request,
    whose response is read whatever its status, so a second 429 is not
    retried but raised as the HTTP error 429. The call never touches the
    limiter's deque. *)
Theorem call_openrouter_429 (json_loads : string → option json)
    (post : Z → Z → nat → PostReply) (b k : Z) (w : World)
    (status : Z) (body : string) :
  post b k 0%nat = PostResponse status body →
  let r := (call_openrouter json_loads post b k w).1 in
  let w' := (call_openrouter json_loads post b k w).2 in
  call_timestamps w' = call_timestamps w
  ∧ (status ≠ 429 →
     r = read_response json_loads status body
     ∧ events w' = events w ++ [EvPost b k] ∧ clock w' = clock w)
  ∧ (status = 429 →
     events w' = events w ++ [EvPost b k; EvSleep 5; EvPost b k]
     ∧ clock w' = (clock w + 5)%Q
     ∧ (∀ msg, post b k 1%nat = PostRaises msg →
               r = Raise (RequestException msg))
     ∧ (∀ status' body', post b k 1%nat = PostResponse status' body' →
                         r = read_response json_loads status' body')
     ∧ (∀ body', post b k 1%nat = PostResponse 429 body' →
                 r = Raise (HTTPError 429))).
Proof.
  intros Hfirst r w'. unfold r, w', call_openrouter. rewrite Hfirst.
  destruct (Z.eqb_spec status 429) as [->|Hne].
  - destruct (post b k 1%nat) as [msg|status' body'] eqn:Hsecond; simpl;
      rewrite <- !app_assoc; (split_and!; [done|done|]); intros _;
      (split_and!; [done|done| | |]); try done.
    + by intros msg' [= <-].
    + by intros status'' body'' [= <- <-].
    + by intros body'' [= -> <-].
  - simpl. split_and!; [done|done|done].
Qed.

Lemma call_openrouter_429_witness :
  call_timestamps
    (call_openrouter TinyJson.loads always_429 0 1 (initial_world 0)).2
  = call_timestamps (initial_world 0)
  ∧ (call_openrouter TinyJson.loads always_429 0 1 (initial_world 0)).1
    = Raise (HTTPError 429)
  ∧ events (call_openrouter TinyJson.loads always_429 0 1 (initial_world 0)).2
    = events (initial_world 0) ++ [EvPost 0 1; EvSleep 5; EvPost 0 1].
Proof.
  destruct (call_openrouter_429 TinyJson.loads always_429 0 1
              (initial_world 0) 429 "" eq_refl) as (Hq & _ & Hretry).
  destruct (Hretry eq_refl) as (Hev & _ & _ & _ & Hsecond).
  split; [exact Hq|]. split; [|exact Hev]. by apply (Hsecond "").
Defined.

(** When every response is a 429 each attempt makes two requests on one
    slot: the requests are twice the slots. *)
Example process_batch_all_429 :
  (fun w => (length (slots w), length (posts w), model_raw <$> out_f w))
    <$> (snd <$> process_batch TinyJson.loads sample_str_exn always_429
                   default_args polls_enough sample_batch (initial_world 0))
  = Some (3%nat, 6%nat, [JStr "exception: http error"]).
Proof. by vm_compute. Qed.

(** ** The retry loop at a success *)

(** X17. With a positive cap on calls per minute: if attempt [k], within
    the retries allowed, is the first whose reply parses to a list, then
    [process_batch] makes exactly [k] attempts, and the record it writes
    holds that list as [model_parsed] and the raw reply of attempt [k] as
    [model_raw], whatever the earlier attempts left; the successful
    attempt is followed by no sleep. *)
Theorem process_batch_success
    (json_loads : string → option json) (str_exn : exn → string)
    (post : Z → Z → nat → PostReply) (args : Args)
    (fuel : nat) (batch : Batch) (w : World) (k : Z) (obj : list json) :
  1 <= arg_calls_per_minute args → (polls_enough <= fuel)%nat →
  deque_past w →
  1 <= k <= arg_max_retries args →
  Forall (fun j => attempt_fails json_loads post batch.1 j = true)
         (first_attempts (Z.to_nat k - 1)) →
  attempt_parsed json_loads post batch.1 k = Some obj →
  ∃ w' turns raw,
    process_batch json_loads str_exn post args fuel batch w
    = Some (Z.of_nat (length batch.2), w')
    ∧ events w'
      = events w ++ concat turns
        ++ [EvWrite {| batch_start_index := batch.1;
                       input_ids := id <$> batch.2;
                       model_raw := raw;
                       model_parsed := Some obj |}]
    ∧ length turns = Z.to_nat k
    ∧ captured_raw json_loads post batch.1 k = Some raw
    ∧ Forall2 (turn_events json_loads post batch.1)
              (first_attempts (Z.to_nat k)) turns
    ∧ attempt_fails json_loads post batch.1 k = false.
Proof.
  intros Hcap Hfuel Hpast Hk Hearlier Hobj.
  set (R := Z.to_nat (arg_max_retries args)).
  set (K := Z.to_nat k) in *.
  assert (attempt_fails json_loads post batch.1 k = false) as Hok
    by (unfold attempt_fails; by rewrite Hobj).
  assert (length (first_attempts R) = R) as HR.
  { unfold first_attempts. by rewrite length_fmap, length_seq. }
  assert (∀ n, (K <= n)%nat →
               ¬ Forall (fun j => attempt_fails json_loads post batch.1 j = true)
                        (first_attempts n)) as Hlate.
  { intros n Hn Hall. rewrite Forall_lookup in Hall.
    specialize (Hall (pred K) k). rewrite first_attempts_lookup in Hall by lia.
    replace (Z.of_nat (S (pred K))) with k in Hall by lia.
    specialize (Hall eq_refl). congruence. }
  destruct (retry_loop_spec json_loads str_exn post args Hcap fuel batch.1
              (first_attempts R) Hfuel (first_attempts_nonneg R) []
              initial_locals w Hpast)
    as (n & st' & w' & turns & Hloop & Hev & Hturns & Hn & Hfails
        & _ & Hend); [done..|].
  rewrite HR in Hn. rewrite take_first_attempts in Hturns by done.
  rewrite take_first_attempts in Hfails by lia.
  destruct Hend as [(_ & Hall & _)|(k' & obj' & Hk' & Hpos & Hobj' & Hp & Hr)].
  { exfalso. apply (Hlate R); [unfold R, K; lia|done]. }
  rewrite first_attempts_lookup in Hk' by lia. injection Hk' as <-.
  replace (S (pred n)) with n in * by lia.
  assert (n = K) as ->.
  { destruct (Nat.lt_trichotomy n K) as [Hlt|[->|Hgt]]; [|done|].
    - exfalso. rewrite Forall_lookup in Hearlier.
      specialize (Hearlier (pred n) (Z.of_nat n)).
      rewrite first_attempts_lookup in Hearlier by lia.
      replace (S (pred n)) with n in Hearlier by lia.
      specialize (Hearlier eq_refl). unfold attempt_fails in Hearlier.
      by rewrite Hobj' in Hearlier.
    - exfalso. by apply (Hlate (pred n)); [lia|]. }
  replace (Z.of_nat K) with k in * by (unfold K; lia).
  assert (obj' = obj) as -> by congruence.
  exists (emit (EvWrite (make_record batch st')) w'), turns, (response_text st').
  unfold process_batch. rewrite attempt_numbers_first. fold R.
  rewrite Hloop. simpl.
  split_and!; [done| |by apply Forall2_length in Hturns;
                       unfold first_attempts in Hturns;
                       rewrite length_fmap, length_seq in Hturns
               |done|done|done].
  rewrite Hev, <- app_assoc. do 3 f_equal.
  unfold make_record. by rewrite Hp.
Qed.

Lemma process_batch_success_witness :
  ∃ w' turns raw,
    process_batch TinyJson.loads sample_str_exn second_time_lucky default_args
                  polls_enough sample_batch (initial_world 0)
    = Some (Z.of_nat (length sample_batch.2), w')
    ∧ events w'
      = events (initial_world 0) ++ concat turns
        ++ [EvWrite {| batch_start_index := sample_batch.1;
                       input_ids := id <$> sample_batch.2;
                       model_raw := raw;
                       model_parsed := Some [JInt 1] |}]
    ∧ length turns = Z.to_nat 2
    ∧ captured_raw TinyJson.loads second_time_lucky sample_batch.1 2
      = Some raw
    ∧ Forall2 (turn_events TinyJson.loads second_time_lucky sample_batch.1)
              (first_attempts (Z.to_nat 2)) turns
    ∧ attempt_fails TinyJson.loads second_time_lucky sample_batch.1 2 = false.
Proof.
  apply (process_batch_success TinyJson.loads sample_str_exn second_time_lucky
           default_args polls_enough sample_batch (initial_world 0) 2
           [JInt 1]).
  - simpl. lia.
  - done.
  - constructor.
  - simpl. lia.
  - by repeat constructor.
  - by vm_compute.
Defined.

(** The first attempt times out, the second succeeds: two slots, two
    requests, one sleep of two seconds between them and none after. *)
Example process_batch_second_attempt :
  events <$> (snd <$> process_batch TinyJson.loads sample_str_exn
                        second_time_lucky default_args polls_enough
                        sample_batch (initial_world 0))
  = Some [EvSlot 0; EvPost 0 1; EvSleep (1 + inject_Z 1);
          EvSlot (0 + (1 + inject_Z 1)); EvPost 0 2;
          EvWrite {| batch_start_index := 0; input_ids := ["A"; "B"];
                     model_raw := JStr "[1]";
                     model_parsed := Some [JInt 1] |}].
Proof. reflexivity. Qed.

(** ** The search script *)

Section UniqueItems.

Implicit Types (seen : gset (option string)) (items : list Search.Work).

Lemma unique_items_sublist seen items :
  Search.unique_items seen items `sublist_of` items.
Proof.
  revert seen. induction items as [|x items IH]; intros seen; simpl; [done|].
  case_bool_decide; [by apply sublist_cons|by apply sublist_skip].
Qed.

Lemma unique_items_fresh seen items x :
  x ∈ Search.unique_items seen items → Search.work_id x ∉ seen.
Proof.
  revert seen. induction items as [|y items IH]; intros seen; simpl.
  - by intros ?%elem_of_nil.
  - case_bool_decide as Hy; [by apply IH|].
    intros [->|Hx]%elem_of_cons; [done|].
    apply IH in Hx. set_solver.
Qed.

Lemma unique_items_NoDup seen items :
  NoDup (work_ids (Search.unique_items seen items)).
Proof.
  unfold work_ids.
  revert seen. induction items as [|y items IH]; intros seen; simpl.
  - constructor.
  - case_bool_decide as Hy; [by apply IH|]. csimpl. constructor; [|by apply IH].
    intros (x & Hid & Hx%unique_items_fresh)%list_elem_of_fmap.
    rewrite <- Hid in Hx. set_solver.
Qed.

Lemma unique_items_covers seen items x :
  x ∈ items →
  Search.work_id x ∈ seen
  ∨ Search.work_id x ∈ work_ids (Search.unique_items seen items).
Proof.
  unfold work_ids.
  revert seen. induction items as [|y items IH]; intros seen; simpl.
  - by intros ?%elem_of_nil.
  - intros [->|Hx]%elem_of_cons.
    + case_bool_decide; [by left|]. right. csimpl. by left.
    + case_bool_decide as Hy; [by apply IH|]. csimpl.
      destruct (IH ({[Search.work_id y]} ∪ seen) Hx)
        as [[Hin|Hin]%elem_of_union|Hin].
      * apply elem_of_singleton in Hin. right. rewrite Hin. by left.
      * by left.
      * right. by right.
Qed.

(** A work that is kept is the first of the items with its id. *)
Lemma unique_items_first seen items x :
  x ∈ Search.unique_items seen items →
  ∃ k : nat,
    items !! k = Some x
    ∧ ∀ (j : nat) y, (j < k)%nat → items !! j = Some y →
                     Search.work_id y ≠ Search.work_id x.
Proof.
  revert seen. induction items as [|z items IH]; intros seen; simpl.
  - by intros ?%elem_of_nil.
  - case_bool_decide as Hz.
    + intros Hx. pose proof (unique_items_fresh _ _ _ Hx) as Hfresh.
      destruct (IH _ Hx) as (k & Hk & Hbefore).
      exists (S k). split; [done|]. intros [|j] y Hj Hy; simpl in Hy.
      * injection Hy as <-. congruence.
      * apply (Hbefore j); [lia|done].
    + intros [->|Hx]%elem_of_cons.
      * exists 0%nat. split; [done|]. intros j y Hj. lia.
      * pose proof (unique_items_fresh _ _ _ Hx) as Hfresh.
        destruct (IH _ Hx) as (k & Hk & Hbefore).
        exists (S k). split; [done|]. intros [|j] y Hj Hy; simpl in Hy.
        -- injection Hy as <-. set_solver.
        -- apply (Hbefore j); [lia|done].
Qed.

End UniqueItems.

(** X18. The works saved are the works fetched without repeats: whatever
    the feed yields, [unique_items] keeps a subsequence in which no id
    occurs twice and every id of the feed occurs, each work kept being the
    first of the feed with its id; works without an id count as sharing
    one, so only the first of them is kept. [save_jsonl] writes one line
    for each and returns their number, the number of distinct ids. *)
Theorem unique_items_spec (dumps : json → string)
    (items : list Search.Work) :
  let kept := Search.unique_items ∅ items in
  NoDup (work_ids kept)
  ∧ kept `sublist_of` items
  ∧ (∀ i, i ∈ work_ids items ↔ i ∈ work_ids kept)
  ∧ (∀ x, x ∈ kept →
          ∃ k : nat,
            items !! k = Some x
            ∧ ∀ (j : nat) y, (j < k)%nat → items !! j = Some y →
                             Search.work_id y ≠ Search.work_id x)
  ∧ length (Search.save_jsonl dumps kept).1 = length kept
  ∧ (Search.save_jsonl dumps kept).2
    = Z.of_nat (size (list_to_set (work_ids items) : gset (option string))).
Proof.
  intros kept.
  pose proof (unique_items_NoDup ∅ items) as Hnodup. fold kept in Hnodup.
  pose proof (unique_items_sublist ∅ items) as Hsub. fold kept in Hsub.
  assert (∀ i, i ∈ work_ids items ↔ i ∈ work_ids kept) as Hids.
  { intros i. unfold work_ids. split.
    - intros (x & -> & Hx)%list_elem_of_fmap.
      destruct (unique_items_covers ∅ items x Hx) as [Hin|Hin]; [|done].
      by apply elem_of_empty in Hin.
    - intros (x & -> & Hx)%list_elem_of_fmap.
      apply list_elem_of_fmap_2. by eapply elem_of_sublist. }
  split_and!; [done|done|done| | |].
  - intros x Hx. by apply (unique_items_first ∅).
  - unfold Search.save_jsonl. simpl. by rewrite length_fmap.
  - unfold Search.save_jsonl. simpl. f_equal.
    assert ((list_to_set (work_ids items) : gset (option string))
            = list_to_set (work_ids kept)) as ->.
    { apply set_eq. intros i. by rewrite !elem_of_list_to_set. }
    rewrite size_list_to_set by done. unfold work_ids.
    by rewrite length_fmap.
Qed.

(** Works [W1], none, [W2], [W1], none: the second [W1] and the second
    work without an id are dropped. *)
Example unique_items_sample :
  work_ids (Search.unique_items ∅
              [sample_work "W1"; work_without_id; sample_work "W2";
               sample_work "W1"; work_without_id])
  = [Some "W1"; None; Some "W2"].
Proof. by vm_compute. Qed.

Section FetchMore.

Variable get : string → nat → Search.GetReply.

Lemma yield_results_cap (m : Z) (items : list Search.Work) (fetched : Z) :
  m ≠ 0 → fetched < m →
  let '(ys, stop, fetched') :=
    Search.yield_results (Some m) items fetched in
  fetched' = fetched + Z.of_nat (length ys)
  ∧ fetched' <= m
  ∧ (stop = true ↔ fetched' = m)
  ∧ ys `prefix_of` items.
Proof.
  intros Hm.
  revert fetched. induction items as [|x items IH]; intros fetched Hlt; simpl.
  - split_and!; [lia|lia|split; [done|lia]|done].
  - destruct (Z.eqb_spec m 0) as [|_]; [done|]. simpl.
    destruct (Z.leb_spec m (fetched + 1)); simpl.
    + split_and!; [lia|lia|split; [lia|done]|].
      by exists items.
    + specialize (IH (fetched + 1)).
      destruct (Search.yield_results (Some m) items (fetched + 1))
        as [[ys stop] fetched'].
      destruct IH as (H1 & H2 & H3 & H4); [lia|]. simpl.
      split_and!; [lia|done|done|by apply prefix_cons].
Qed.

(** Under a cap of [m] the generator yields at most what is left of it,
    and ends when it is used up. *)
Lemma fetch_loop_cap (m : Z) (fuel : nat) :
  m ≠ 0 →
  ∀ (cursor : string) (n : nat) (fetched : Z),
    fetched < m →
    let '(ys, _, ending) :=
      Search.fetch_loop get (Some m) fuel cursor n fetched in
    fetched + Z.of_nat (length ys) <= m
    ∧ (fetched + Z.of_nat (length ys) = m → ending = Search.Exhausted).
Proof.
  intros Hm.
  induction fuel as [|fuel IH]; intros cursor n fetched Hlt; simpl.
  - split; [lia|lia].
  - destruct (String.eqb cursor ""); [simpl; split; lia|].
    destruct (get cursor n) as [msg|status payload]; [simpl; split; lia|].
    destruct (status =? 429).
    + specialize (IH cursor (S n) fetched Hlt).
      by destruct (Search.fetch_loop get (Some m) fuel cursor (S n) fetched)
        as [[ys sleeps] ending].
    + destruct (raise_for_status status); [|simpl; split; lia].
      destruct payload as [page|]; [|simpl; split; lia].
      pose proof (yield_results_cap m (Search.results page) fetched Hm Hlt)
        as Hpage.
      destruct (Search.yield_results (Some m) (Search.results page) fetched)
        as [[ys stop] fetched'].
      destruct Hpage as (Hf & Hle & Hstop & _).
      destruct stop; [simpl; split; [lia|done]|].
      assert (fetched' < m) as Hlt'.
      { destruct (Z.eq_dec fetched' m) as [E|]; [|lia].
        by apply Hstop in E. }
      destruct (Search.next_cursor page) as [cursor'|];
        [|simpl; split; lia].
      destruct (String.eqb cursor' ""); [simpl; split; lia|].
      specialize (IH cursor' (S n) fetched' Hlt').
      destruct (Search.fetch_loop get (Some m) fuel cursor' (S n) fetched')
        as [[zs sleeps] ending].
      rewrite length_app. destruct IH as [IH1 IH2]. split; [lia|].
      intros E. apply IH2. lia.
Qed.

(** A 429 costs one sleep and nothing else: the same cursor is asked
    for again, however often. *)
Lemma fetch_loop_429 (max_results : option Z) (cursor : string)
    (fetched : Z) (j : nat) :
  cursor ≠ "" →
  ∀ (n fuel : nat),
    (∀ i : nat, (i < j)%nat →
       ∃ payload, get cursor (n + i) = Search.GetResponse 429 payload) →
    Search.fetch_loop get max_results (j + fuel) cursor n fetched
    = let '(ys, sleeps, ending) :=
        Search.fetch_loop get max_results fuel cursor (n + j) fetched in
      (ys, (j + sleeps)%nat, ending).
Proof.
  intros Hcursor. induction j as [|j IH]; intros n fuel Hget.
  - rewrite Nat.add_0_r. simpl.
    by destruct (Search.fetch_loop get max_results fuel cursor n fetched)
      as [[ys sleeps] ending].
  - simpl. destruct (String.eqb_spec cursor ""); [done|].
    destruct (Hget 0%nat ltac:(lia)) as [payload Hfirst].
    rewrite Nat.add_0_r in Hfirst. rewrite Hfirst. simpl.
    rewrite IH.
    2:{ intros i Hi. destruct (Hget (S i) ltac:(lia)) as [p Hp].
        exists p. by replace (S n + i)%nat with (n + S i)%nat by lia. }
    replace (S n + j)%nat with (n + S j)%nat by lia.
    by destruct (Search.fetch_loop get max_results fuel cursor (n + S j)
                   fetched) as [[ys sleeps] ending].
Qed.

End FetchMore.

(** X19. With [max_results = m >= 1], [fetch_openalex] yields at most [m]
    works, whatever the feed serves and however long it is followed, and
    once it has yielded [m] it has returned: no further request is made
    for a page that would not be read. *)
Theorem fetch_openalex_cap (get : string → nat → Search.GetReply)
    (m : Z) (fuel : nat) :
  1 <= m →
  Z.of_nat (length (Search.fetch_openalex get (Some m) fuel).1.1) <= m
  ∧ (Z.of_nat (length (Search.fetch_openalex get (Some m) fuel).1.1) = m →
     (Search.fetch_openalex get (Some m) fuel).2 = Search.Exhausted).
Proof.
  intros Hm. unfold Search.fetch_openalex.
  pose proof (fetch_loop_cap get m fuel ltac:(lia) "*" 0 0 ltac:(lia)) as H.
  destruct (Search.fetch_loop get (Some m) fuel "*" 0 0)
    as [[ys sleeps] ending].
  simpl. destruct H as [H1 H2]. split; [lia|]. intros E. apply H2. lia.
Qed.

Lemma fetch_openalex_cap_witness :
  Z.of_nat (length (Search.fetch_openalex sample_feed (Some 3) 10).1.1) <= 3
  ∧ (Z.of_nat (length (Search.fetch_openalex sample_feed (Some 3) 10).1.1) = 3
     → (Search.fetch_openalex sample_feed (Some 3) 10).2 = Search.Exhausted).
Proof. apply (fetch_openalex_cap sample_feed 3 10). lia. Defined.

(** X20. A 429 from the feed is waited out without bound: while the
    first [j] requests are answered with 429, [fetch_openalex] sleeps [j]
    times and asks for the same first page again, and then goes on as it
    would have without them, yielding the same works; a feed that answers
    nothing but 429 keeps it asking for ever, yielding nothing. *)
Theorem fetch_openalex_429 (get : string → nat → Search.GetReply)
    (max_results : option Z) (j fuel : nat) :
  (∀ i : nat, (i < j)%nat →
     ∃ payload, get "*" i = Search.GetResponse 429 payload) →
  Search.fetch_openalex get max_results (j + fuel)
  = (let '(ys, sleeps, ending) :=
       Search.fetch_loop get max_results fuel "*" j 0 in
     (ys, (j + sleeps)%nat, ending))
  ∧ Search.fetch_openalex get max_results j = ([], j, Search.Running).
Proof.
  intros Hget. unfold Search.fetch_openalex. split.
  - by rewrite (fetch_loop_429 get max_results "*" 0 j ltac:(done) 0 fuel).
  - rewrite <- (Nat.add_0_r j) at 1.
    rewrite (fetch_loop_429 get max_results "*" 0 j ltac:(done) 0 0%nat)
      by done.
    simpl. by rewrite Nat.add_0_r.
Qed.

Lemma fetch_openalex_429_witness :
  Search.fetch_openalex sample_feed None (2 + 8)
  = (let '(ys, sleeps, ending) :=
       Search.fetch_loop sample_feed None 8 "*" 2 0 in
     (ys, (2 + sleeps)%nat, ending))
  ∧ Search.fetch_openalex sample_feed None 2 = ([], 2%nat, Search.Running).
Proof.
  apply (fetch_openalex_429 sample_feed None 2 8).
  intros i Hi. exists None. unfold sample_feed.
  by destruct (Nat.ltb_spec i 2); [|lia].
Defined.

(** The sample feed: two sleeps, then two pages of two works; the
    repeated work is saved once. *)
Example search_main_sample :
  (fun r => (work_ids r.1.1, r.1.2, r.2))
    (Search.fetch_openalex sample_feed None 10)
  = ([Some "W1"; Some "W2"; Some "W2"; Some "W3"], 2%nat, Search.Exhausted)
  ∧ (Search.main (fun _ => "{}") sample_feed 10).2 = Some 3.
Proof. by vm_compute. Qed.

(** ** Resuming an interrupted run *)

Section ResumeInterrupted.

Variable json_loads : string → option json.

Lemma ids_of_line_undecoded (line : string) :
  json_loads line = None → ids_of_line json_loads line = [].
Proof. intros Hline. unfold ids_of_line. by rewrite Hline. Qed.

Lemma filter_all {A} (f : A → bool) (l : list A) :
  Forall (fun x => f x = true) l → List.filter f l = l.
Proof. induction 1 as [|x l Hx _ IH]; simpl; [done|by rewrite Hx, IH]. Qed.

Lemma elem_of_batch_ids (batches : list Batch) (x : string) :
  x ∈ id <$> concat (snd <$> batches)
  ↔ ∃ b p, b ∈ batches ∧ p ∈ b.2 ∧ id p = x.
Proof.
  induction batches as [|b batches IH]; csimpl.
  - split; [by intros ?%elem_of_nil|by intros (? & ? & ?%elem_of_nil & _)].
  - rewrite fmap_app, elem_of_app, IH, list_elem_of_fmap. split.
    + intros [(p & -> & Hp)|(b' & p & Hb' & Hp & Hid)].
      * exists b, p. split_and!; [by left|done..].
      * exists b', p. split_and!; [by right|done..].
    + intros (b' & p & [->|Hb']%elem_of_cons & Hp & Hid).
      * left. by exists p.
      * right. by exists b', p.
Qed.

End ResumeInterrupted.

(** X21. Resuming an interrupted run takes it up where it stopped. Let
    the ids of the loaded lines be distinct, and let the output file hold
    the records of the first [j] batches, in any order, and besides them
    only lines that do not decode, such as a last line cut short. Then
    with [--resume] the batches left to run are exactly those after the
    first [j], in their order. *)
Theorem resume_after_interruption
    (json_loads : string → option json) (args : Args) (lines : list Row)
    (batches : list Batch) (out_lines : list string) (j : nat) :
  build_batches args (load_lines args lines) = Ok batches →
  NoDup (id <$> concat (snd <$> batches)) →
  (∀ b, b ∈ take j batches →
        ∃ line r, line ∈ out_lines
                  ∧ json_loads line = Some (record_json r) ∧ record_of b r) →
  (∀ line, line ∈ out_lines →
           json_loads line = None
           ∨ ∃ b r, b ∈ take j batches
                    ∧ json_loads line = Some (record_json r)
                    ∧ record_of b r) →
  skip_processed
    (scan_processed_ids json_loads (with_resume args) (Some out_lines))
    batches
  = drop j batches.
Proof.
  intros Hbuild Hnodup Hdone Honly.
  pose proof (build_batches_nonempty _ _ _ Hbuild) as Hne.
  set (P := scan_processed_ids json_loads (with_resume args) (Some out_lines)).
  assert (∀ x, x ∈ P ↔ x ∈ id <$> concat (snd <$> take j batches)) as HP.
  { intros x. unfold P. rewrite elem_of_scan by done.
    rewrite elem_of_batch_ids. split.
    - intros (line & Hline & Hx). destruct (Honly line Hline)
        as [Hnone|(b & r & Hb & Hdec & _ & Hids)].
      + rewrite ids_of_line_undecoded in Hx by done.
        by apply elem_of_nil in Hx.
      + rewrite (ids_of_line_record _ _ _ Hdec), Hids in Hx.
        apply list_elem_of_fmap in Hx as (p & -> & Hp). by exists b, p.
    - intros (b & p & Hb & Hp & <-).
      destruct (Hdone b Hb) as (line & r & Hline & Hdec & _ & Hids).
      exists line. split; [done|].
      rewrite (ids_of_line_record _ _ _ Hdec), Hids.
      by apply list_elem_of_fmap_2. }
  rewrite <- (take_drop j batches) in Hnodup, Hne.
  rewrite fmap_app, concat_app, fmap_app in Hnodup.
  apply NoDup_app in Hnodup as (_ & Hdisjoint & _).
  apply Forall_app in Hne as [Hne1 Hne2].
  assert (Forall (fun b => fully_processed P b = true) (take j batches))
    as Hfirst.
  { apply Forall_forall. intros b Hb. apply fully_processed_Forall.
    apply Forall_forall. intros p Hp. apply HP, elem_of_batch_ids.
    by exists b, p. }
  assert (Forall (fun b => fully_processed P b = false) (drop j batches))
    as Hrest.
  { apply Forall_forall. intros b Hb.
    destruct (fully_processed P b) eqn:E; [|done]. exfalso.
    apply fully_processed_Forall in E.
    rewrite Forall_forall in Hne2. specialize (Hne2 b Hb).
    destruct (b.2) as [|p ps] eqn:Eb; [done|].
    apply Forall_cons in E as [Hp _]. apply HP in Hp.
    apply (Hdisjoint _ Hp), elem_of_batch_ids.
    exists b, p. rewrite Eb. split_and!; [done|by left|done]. }
  unfold skip_processed. case_bool_decide as Hset.
  - rewrite <- (take_drop j batches) at 1. rewrite List.filter_app.
    rewrite filter_none, filter_all; [done| |].
    + eapply Forall_impl; [exact Hrest|]. simpl. by intros b ->.
    + eapply Forall_impl; [exact Hfirst|]. simpl. by intros b ->.
  - assert (take j batches = []) as Hnil.
    { destruct (take j batches) as [|b bs] eqn:E; [done|]. exfalso.
      apply Forall_cons in Hne1 as [Hb _].
      destruct (b.2) as [|p ps] eqn:Eb; [done|].
      assert (id p ∈ P) as Hp.
      { apply HP, elem_of_batch_ids. exists b, p. rewrite Eb.
        split_and!; [|by left|done]. rewrite ?E. by left. }
      rewrite Hset in Hp. by apply elem_of_empty in Hp. }
    rewrite <- (take_drop j batches) at 1. by rewrite Hnil.
Qed.

Lemma resume_after_interruption_witness :
  skip_processed
    (scan_processed_ids TinyJson.loads
       (with_resume (with_batch_size 1 default_args))
       (Some interrupted_output))
    two_batches
  = drop 1 two_batches.
Proof.
  apply (resume_after_interruption TinyJson.loads
           (with_batch_size 1 default_args) (take 2 sample_lines)
           two_batches interrupted_output 1).
  - reflexivity.
  - apply (bool_decide_unpack _). by vm_compute.
  - intros b [->|Hb]%elem_of_cons; [|by apply elem_of_nil in Hb].
    exists ("{" +:+ dq +:+ "batch_start_index" +:+ dq +:+ ": 0, "
            +:+ dq +:+ "input_ids" +:+ dq +:+ ": [" +:+ dq +:+ "A" +:+ dq
            +:+ "], " +:+ dq +:+ "model_raw" +:+ dq +:+ ": null, "
            +:+ dq +:+ "model_parsed" +:+ dq +:+ ": null}"),
           {| batch_start_index := 0; input_ids := ["A"];
              model_raw := JNull; model_parsed := None |}.
    split_and!; [by left|by vm_compute|done].
  - intros line [->|[->|Hin]%elem_of_cons]%elem_of_cons.
    + right.
      exists (0, [sample_record "A"]),
             {| batch_start_index := 0; input_ids := ["A"];
                model_raw := JNull; model_parsed := None |}.
      split_and!; [by left|by vm_compute|done].
    + left. by vm_compute.
    + by apply elem_of_nil in Hin.
Defined.

(** * The limiter on doubles, the slices and the kinds of failure *)

(** ** The limiter on doubles *)

Section RoundedProofs.

Variable fsub : Q → Q → Q.
Hypothesis rounding : rounded_difference fsub.

Variable calls_per_minute : Z.

Open Scope Q_scope.

(** A timestamp that is evicted is more than 60 seconds old. *)
Lemma expired_sound (now t : Q) :
  Rounded.expired fsub now t = true → t + 60 < now.
Proof.
  unfold Rounded.expired. rewrite negb_true_iff, <- not_true_iff_false.
  rewrite Qle_bool_iff. intros Hnot.
  destruct (Qlt_le_dec 60 (now - t)) as [Hlt|Hle]; [lra|].
  exfalso. by apply Hnot, rounding.
Qed.

(** A timestamp that is [60 + ulp60] seconds old is evicted. *)
Lemma expired_late (now t : Q) :
  t + 60 + ulp60 <= now → Rounded.expired fsub now t = true.
Proof.
  intros Hlate. unfold Rounded.expired.
  rewrite negb_true_iff, <- not_true_iff_false, Qle_bool_iff.
  apply rounding. lra.
Qed.

Lemma ulp60_small : 0 < ulp60 ∧ ulp60 <= 1 # 5.
Proof. split; by vm_compute. Qed.

(** The invariant of a run: [old] are the admitted timestamps already
    evicted, [q] the deque, and the clock does not go backwards. *)
Lemma rounded_run_window (polls : list Q) :
  ∀ (old q : list Q) (prev : Q),
    Sorted Qle (prev :: polls) →
    Forall (fun o => o + 60 < prev) old →
    (∀ t, (Z.of_nat (Limiter.in_window t (old ++ q)) <= calls_per_minute)%Z) →
    ∀ t, (Z.of_nat (Limiter.in_window t
                      (old ++ q
                       ++ (Rounded.run fsub calls_per_minute polls q).1))
          <= calls_per_minute)%Z.
Proof.
  induction polls as [|now polls IH]; intros old q prev Hsorted Hold Hwin t.
  - simpl. by rewrite app_nil_r.
  - apply Sorted_inv in Hsorted as [Hsorted Hhd].
    apply HdRel_inv in Hhd. simpl. unfold Rounded.locked_region.
    destruct (dropwhile_split (Rounded.expired fsub now) q)
      as (dropped & Hq & Hdropped).
    remember (Py.dropwhile (Rounded.expired fsub now) q) as q' eqn:Hq'.
    clear Hq'. subst q.
    assert (Forall (fun o => o + 60 < now) (old ++ dropped)) as Hold'.
    { apply Forall_app. split.
      - eapply Forall_impl; [exact Hold|]. simpl. intros o Ho. lra.
      - eapply Forall_impl; [exact Hdropped|]. simpl.
        intros o Ho. by apply expired_sound. }
    destruct (Z.ltb_spec (Z.of_nat (length q')) calls_per_minute) as [Hlt|Hge].
    + destruct (Rounded.run fsub calls_per_minute polls (q' ++ [now]))
        as [adm qf] eqn:Hrun. simpl.
      specialize (IH (old ++ dropped) (q' ++ [now]) now Hsorted Hold').
      rewrite Hrun in IH. simpl in IH.
      replace (old ++ (dropped ++ q') ++ now :: adm)
        with ((old ++ dropped) ++ (q' ++ [now]) ++ adm)
        by (by rewrite <- !app_assoc).
      apply IH. clear IH. intros t'.
      rewrite !in_window_app.
      destruct (Qlt_le_dec now t') as [Hout|Hin1];
        [|destruct (Qlt_le_dec (t' + 60) now) as [Hout|Hin2]].
      * assert (Limiter.in_window t' [now] = 0%nat) as ->.
        { unfold Limiter.in_window. simpl.
          destruct (Qle_bool t' now) eqn:E; [|done].
          apply Qle_bool_iff in E. lra. }
        specialize (Hwin t'). rewrite !in_window_app in Hwin. lia.
      * assert (Limiter.in_window t' [now] = 0%nat) as ->.
        { unfold Limiter.in_window. simpl.
          destruct (Qle_bool now (t' + 60)) eqn:E;
            [|by rewrite andb_false_r].
          apply Qle_bool_iff in E. lra. }
        specialize (Hwin t'). rewrite !in_window_app in Hwin. lia.
      * apply Forall_app in Hold' as [Ho Hd].
        rewrite (in_window_expired t' now old Ho Hin1 Hin2).
        rewrite (in_window_expired t' now dropped Hd Hin1 Hin2).
        pose proof (in_window_le_length t' q').
        pose proof (in_window_le_length t' [now]). simpl in *. lia.
    + destruct (Rounded.run fsub calls_per_minute polls q') as [adm qf] eqn:Hrun.
      simpl.
      specialize (IH (old ++ dropped) q' now Hsorted Hold').
      rewrite Hrun in IH. simpl in IH.
      replace (old ++ (dropped ++ q') ++ adm)
        with ((old ++ dropped) ++ q' ++ adm)
        by (by rewrite <- !app_assoc).
      apply IH. intros t'. specialize (Hwin t').
      by rewrite app_assoc in Hwin.
Qed.

(** What a pass keeps: at least the timestamps within the trailing 60
    seconds. *)
Lemma kept_trailing (now : Q) (q : list Q) :
  (length (trailing now q)
   <= length (Py.dropwhile (Rounded.expired fsub now) q))%nat.
Proof.
  unfold trailing. induction q as [|t q IH]; simpl; [done|].
  destruct (Rounded.expired fsub now t) eqn:E.
  - apply expired_sound in E.
    destruct (Qle_bool (now - t) 60) eqn:E'; [|done].
    apply Qle_bool_iff in E'. lra.
  - pose proof (List.filter_length_le (fun t => Qle_bool (now - t) 60) q).
    destruct (Qle_bool (now - t) 60); simpl; lia.
Qed.

(** On a deque in time order it keeps at most the timestamps less than
    [60 + ulp60] seconds old. *)
Lemma kept_younger (now : Q) (q : list Q) :
  StronglySorted Qle q →
  (length (Py.dropwhile (Rounded.expired fsub now) q)
   <= length (younger (60 + ulp60) now q))%nat.
Proof.
  unfold younger. induction 1 as [|t q Hq IH Ht]; simpl; [done|].
  destruct (Rounded.expired fsub now t) eqn:E.
  - destruct (negb _); simpl; lia.
  - assert (now - t < 60 + ulp60) as Hyoung.
    { destruct (Qlt_le_dec (now - t) (60 + ulp60)) as [|Hle]; [done|].
      rewrite expired_late in E by lra. done. }
    assert (∀ t', t <= t' →
                  negb (Qle_bool (60 + ulp60) (now - t')) = true) as Hall.
    { intros t' Ht'. apply negb_true_iff, not_true_iff_false.
      rewrite Qle_bool_iff. lra. }
    rewrite Hall by apply Qle_refl. simpl. apply le_n_S.
    clear IH Hq E. induction Ht as [|t' q Ht' _ IH]; simpl; [done|].
    rewrite Hall by done. simpl. lia.
Qed.

(** While the clock does not go backwards the deque stays in time
    order. *)
Lemma rounded_run_sorted (polls : list Q) :
  ∀ (q : list Q) (prev : Q),
    Sorted Qle (prev :: polls) →
    StronglySorted Qle q → Forall (fun t => t <= prev) q →
    StronglySorted Qle (Rounded.run fsub calls_per_minute polls q).2.
Proof.
  induction polls as [|now polls IH]; intros q prev Hsorted Hq Hle; [done|].
  apply Sorted_inv in Hsorted as [Hsorted Hhd]. apply HdRel_inv in Hhd.
  simpl. unfold Rounded.locked_region.
  set (q' := Py.dropwhile (Rounded.expired fsub now) q).
  assert (StronglySorted Qle q') as Hq' by by apply dropwhile_sorted.
  assert (Forall (fun t => t <= now) q') as Hle'.
  { apply dropwhile_Forall. eapply Forall_impl; [exact Hle|].
    simpl. intros t Ht. lra. }
  destruct (Z.ltb_spec (Z.of_nat (length q')) calls_per_minute).
  - destruct (Rounded.run fsub calls_per_minute polls (q' ++ [now]))
      as [adm qf] eqn:Hrun.
    change qf with (adm, qf).2. rewrite <- Hrun.
    apply (IH _ now); [done|by apply StronglySorted_snoc|].
    apply Forall_app. split; [done|]. constructor; [lra|constructor].
  - destruct (Rounded.run fsub calls_per_minute polls q') as [adm qf] eqn:Hrun.
    change qf with (adm, qf).2. rewrite <- Hrun. by apply (IH _ now).
Qed.

End RoundedProofs.

Section RoundedWait.

Variable fsub : Q → Q → Q.
Hypothesis rounding : rounded_difference fsub.

Variable args : Args.

Open Scope Q_scope.

(** A call that returns is a run of passes, the first at the time of the
    call and each later one a sleep after the one before, of which the last
    alone is admitted. *)
Lemma rounded_wait_is_run (fuel : nat) :
  ∀ w w' : World,
    Rounded.wait_for_slot fsub args fuel w = Some w' →
    ∃ rest,
      Sorted Qle (clock w :: rest)
      ∧ Rounded.run fsub (arg_calls_per_minute args) (clock w :: rest)
                    (call_timestamps w)
        = ([clock w'], call_timestamps w').
Proof.
  induction fuel as [|fuel IH]; intros w w'; [done|]. simpl.
  destruct (Rounded.locked_region fsub (arg_calls_per_minute args) (clock w)
              (call_timestamps w)) as [[|] q] eqn:Hpass.
  - intros [= <-]. exists []. split; [repeat constructor|done].
  - intros Hrest. destruct (IH _ _ Hrest) as (rest & Hsorted & Hrun).
    exists (clock (sleep (1 # 5) (set_call_timestamps q w)) :: rest).
    split.
    + constructor; [done|]. constructor. simpl. lra.
    + simpl in Hrun |- *. by rewrite Hrun.
Qed.

(** If every timestamp is [60 + ulp60] seconds old after [k] sleeps, the
    loop returns after at most [k] of them, and at once when the deque is
    not full. *)
Lemma rounded_wait_within (k : nat) :
  (1 <= arg_calls_per_minute args)%Z →
  ∀ (fuel : nat) (w : World),
    Forall (fun t => t + 60 + ulp60 <= clock w + (Z.of_nat k # 5))
           (call_timestamps w) →
    (k < fuel)%nat →
    ∃ w' (j : nat),
      Rounded.wait_for_slot fsub args fuel w = Some w'
      ∧ (j <= k)%nat
      ∧ clock w' == clock w + (Z.of_nat j # 5)
      ∧ events w' = events w ++ replicate j (EvSleep (1 # 5))
                             ++ [EvSlot (clock w')]
      ∧ last (call_timestamps w') = Some (clock w')
      ∧ ((Z.of_nat (length (call_timestamps w)) < arg_calls_per_minute args)%Z
         → j = 0%nat).
Proof.
  intros Hcap.
  induction k as [|k IH]; intros fuel w Hold Hfuel;
    (destruct fuel as [|fuel]; [lia|]); simpl;
    unfold Rounded.locked_region;
    pose proof (dropwhile_length (Rounded.expired fsub (clock w))
                  (call_timestamps w)) as Hlen;
    set (q := Py.dropwhile (Rounded.expired fsub (clock w))
                           (call_timestamps w)) in *.
  - assert (q = []) as Hq.
    { apply dropwhile_all. eapply Forall_impl; [exact Hold|]. simpl.
      intros t Ht. apply (expired_late fsub rounding).
      assert (Z.of_nat 0 # 5 == 0) by reflexivity. lra. }
    destruct (Z.ltb_spec (Z.of_nat (length q)) (arg_calls_per_minute args));
      [|rewrite Hq in *; simpl in *; lia].
    eexists _, 0%nat. split; [reflexivity|].
    split_and!; simpl; [done| |done|by rewrite last_snoc|done].
    assert (Z.of_nat 0 # 5 == 0) by reflexivity. lra.
  - destruct (Z.ltb_spec (Z.of_nat (length q)) (arg_calls_per_minute args)).
    + eexists _, 0%nat. split; [reflexivity|].
      split_and!; simpl; [lia| |done|by rewrite last_snoc|done].
      assert (Z.of_nat 0 # 5 == 0) by reflexivity. lra.
    + destruct (IH fuel (sleep (1 # 5) (set_call_timestamps q w)))
        as (w' & j & Hw' & Hj & Hclock & Hev & Hlast & _).
      * simpl. apply dropwhile_Forall. eapply Forall_impl; [exact Hold|].
        simpl. intros t Ht. pose proof (fifth_succ k). lra.
      * lia.
      * exists w', (S j). simpl in Hclock, Hev.
        split_and!; [done|lia| | |done|lia].
        -- pose proof (fifth_succ j). lra.
        -- by rewrite Hev, <- app_assoc.
Qed.

End RoundedWait.

(** Rounding to the nearest integer does not cross an integer. *)
Lemma round_even_le (y : Q) (k : Z) :
  (y <= inject_Z k)%Q → Rounded.round_even y <= k.
Proof.
  intros Hy. unfold Rounded.round_even.
  pose proof (Qfloor_le y) as Hfloor.
  assert (Qfloor y <= k) as Hk.
  { rewrite <- (Qfloor_Z k). by apply Qfloor_resp_le. }
  assert ((0 < y - inject_Z (Qfloor y))%Q → Qfloor y + 1 <= k) as Hup.
  { intros Hpos. enough (Qfloor y < k) by lia.
    rewrite Zlt_Qlt. lra. }
  destruct (y - inject_Z (Qfloor y) ?= 1 # 2)%Q eqn:E.
  - apply Qeq_alt in E. destruct (Z.even (Qfloor y)); [done|].
    apply Hup. lra.
  - done.
  - apply Qgt_alt in E. apply Hup. lra.
Qed.

Lemma round_even_ge (y : Q) (k : Z) :
  (inject_Z k <= y)%Q → k <= Rounded.round_even y.
Proof.
  intros Hy. unfold Rounded.round_even.
  assert (k <= Qfloor y) as Hk.
  { rewrite <- (Qfloor_Z k). by apply Qfloor_resp_le. }
  destruct (y - inject_Z (Qfloor y) ?= 1 # 2)%Q;
    [destruct (Z.even (Qfloor y))|..]; lia.
Qed.

(** Rounding to the nearest multiple of [2^-47] is such a subtraction,
    and so is the exact one. *)
Lemma fsub47_rounded : rounded_difference Rounded.fsub47.
Proof.
  split; intros a b Hab; unfold Rounded.fsub47;
    set (y := ((a - b) * inject_Z (2 ^ 47))%Q).
  - assert (Rounded.round_even y <= 60 * 2 ^ 47) as Hle.
    { apply round_even_le. unfold y.
      apply Qle_trans with (60 * inject_Z (2 ^ 47))%Q; [|by vm_compute].
      apply Qmult_le_compat_r; [done|by vm_compute]. }
    unfold Qle. simpl Qnum. simpl Qden.
    change (Z.pos (2 ^ 47)) with (2 ^ 47)%Z. lia.
  - assert (60 * 2 ^ 47 + 1 <= Rounded.round_even y) as Hge.
    { apply round_even_ge. unfold y.
      apply Qle_trans with ((60 + ulp60) * inject_Z (2 ^ 47))%Q;
        [by vm_compute|].
      apply Qmult_le_compat_r; [done|by vm_compute]. }
    unfold Qle. simpl Qnum. simpl Qden.
    change (Z.pos (2 ^ 47)) with (2 ^ 47)%Z. lia.
Qed.

Lemma Qminus_rounded : rounded_difference Qminus.
Proof.
  split; intros a b Hab; [done|].
  pose proof ulp60_small as [Hpos _]. intros Hle. lra.
Qed.


(** With the exact subtraction this is [Limiter] and [wait_for_slot]. *)
Lemma rounded_exact (calls_per_minute : Z) (args : Args) :
  (∀ polls q, Rounded.run Qminus calls_per_minute polls q
              = Limiter.run calls_per_minute polls q)
  ∧ (∀ fuel w, Rounded.wait_for_slot Qminus args fuel w
               = wait_for_slot args fuel w).
Proof.
  split.
  - induction polls as [|now polls IH]; intros q; [done|]. simpl.
    change (Rounded.locked_region Qminus calls_per_minute now q)
      with (Limiter.locked_region calls_per_minute now q).
    destruct (Limiter.locked_region calls_per_minute now q) as [ok q'].
    by rewrite IH.
  - induction fuel as [|fuel IH]; intros w; [done|]. simpl.
    change (Rounded.locked_region Qminus (arg_calls_per_minute args)
              (clock w) (call_timestamps w))
      with (Limiter.locked_region (arg_calls_per_minute args) (clock w)
              (call_timestamps w)).
    destruct (Limiter.locked_region _ _ _) as [[|] q]; [done|]. apply IH.
Qed.

(** C1. Under a cap of [N >= 0] calls per minute, with the subtraction of
    doubles rounded as the machine rounds it. Whatever the passes of the
    workers through the locked region, at times that do not go backwards,
    no closed window of 60 seconds of real time holds more than [N]
    admitted timestamps, and the deque stays in time order. A pass evicts
    from the left what the machine finds more than 60 seconds old, admits
    exactly when fewer than [N] timestamps are left, and then appends its
    own: it keeps every timestamp within the trailing 60 seconds and, of a
    deque in time order, none that is [60 + 2^-47] seconds old; so it
    admits only when fewer than [N] timestamps lie within the trailing 60
    seconds, and always when fewer than [N] are less than [60 + 2^-47]
    seconds old. One turn of [wait_for_slot] is one pass at the time of
    the clock: admitted, the call returns with its timestamp recorded;
    refused, it sleeps a fifth of a second and polls again. A worker that
    polls alone, under a cap of at least one and with no timestamp in the
    future, returns after at most 301 sleeps, and at once when the deque is
    not full. A call that returns is a run of passes that ends at the
    first one admitted. With the exact subtraction all this is the
    [wait_for_slot] and the [Limiter] of the pipeline. *)
Theorem limiter_window (fsub : Q → Q → Q) (calls_per_minute : Z) :
  rounded_difference fsub → 0 <= calls_per_minute →
  (∀ polls, Sorted Qle polls →
     (∀ t, Z.of_nat (Limiter.in_window t
                       (Rounded.admitted fsub calls_per_minute polls))
           <= calls_per_minute)
     ∧ StronglySorted Qle (Rounded.run fsub calls_per_minute polls []).2)
  ∧ (∀ now q,
       let kept := Py.dropwhile (Rounded.expired fsub now) q in
       let pass := Rounded.locked_region fsub calls_per_minute now q in
       kept `suffix_of` q
       ∧ Forall (fun t => (t + 60 < now)%Q)
                (take (length q - length kept) q)
       ∧ (pass.1 = true ↔ Z.of_nat (length kept) < calls_per_minute)
       ∧ pass.2 = (if pass.1 then kept ++ [now] else kept)
       ∧ (length (trailing now q) <= length kept)%nat
       ∧ (pass.1 = true →
          Z.of_nat (length (trailing now q)) < calls_per_minute)
       ∧ (StronglySorted Qle q →
          (length kept <= length (younger (60 + ulp60) now q))%nat
          ∧ (Z.of_nat (length (younger (60 + ulp60) now q))
             < calls_per_minute → pass.1 = true)))
  ∧ (∀ args fuel w,
       arg_calls_per_minute args = calls_per_minute →
       let pass :=
         Rounded.locked_region fsub calls_per_minute (clock w)
                               (call_timestamps w) in
       Rounded.wait_for_slot fsub args (S fuel) w
       = if pass.1
         then Some (emit (EvSlot (clock w)) (set_call_timestamps pass.2 w))
         else Rounded.wait_for_slot fsub args fuel
                (sleep (1 # 5) (set_call_timestamps pass.2 w)))
  ∧ (∀ args fuel w,
       arg_calls_per_minute args = calls_per_minute →
       1 <= calls_per_minute → deque_past w → (polls_enough <= fuel)%nat →
       ∃ w' (j : nat),
         Rounded.wait_for_slot fsub args fuel w = Some w'
         ∧ (j <= 301)%nat
         ∧ (clock w' == clock w + (Z.of_nat j # 5))%Q
         ∧ events w' = events w ++ replicate j (EvSleep (1 # 5))
                                ++ [EvSlot (clock w')]
         ∧ last (call_timestamps w') = Some (clock w')
         ∧ (Z.of_nat (length (call_timestamps w)) < calls_per_minute
            → j = 0%nat))
  ∧ (∀ args fuel w w',
       arg_calls_per_minute args = calls_per_minute →
       Rounded.wait_for_slot fsub args fuel w = Some w' →
       ∃ rest,
         Sorted Qle (clock w :: rest)
         ∧ Rounded.run fsub calls_per_minute (clock w :: rest)
                       (call_timestamps w)
           = ([clock w'], call_timestamps w'))
  ∧ (∀ args fuel w,
       Rounded.wait_for_slot Qminus args fuel w = wait_for_slot args fuel w)
  ∧ (∀ polls q,
       Rounded.run Qminus calls_per_minute polls q
       = Limiter.run calls_per_minute polls q).
Proof.
  intros Hround Hcap. split_and!.
  6:{ intros args fuel w. apply (rounded_exact calls_per_minute args). }
  6:{ apply (rounded_exact calls_per_minute default_args). }
  - intros polls Hsorted. split.
    + intros t. unfold Rounded.admitted.
      destruct polls as [|now polls]; [unfold Limiter.in_window; simpl; lia|].
      apply (rounded_run_window fsub Hround calls_per_minute (now :: polls)
               [] [] now).
      * constructor; [done|]. constructor. apply Qle_refl.
      * constructor.
      * intros t'. unfold Limiter.in_window. simpl. lia.
    + destruct polls as [|now polls]; [constructor|].
      apply (rounded_run_sorted fsub calls_per_minute (now :: polls) [] now).
      * constructor; [done|]. constructor. apply Qle_refl.
      * constructor.
      * constructor.
  - intros now q kept pass.
    pose proof (kept_trailing fsub Hround now q) as Htrail. fold kept in Htrail.
    assert (pass.1 = true ↔ Z.of_nat (length kept) < calls_per_minute)
      as Hpass.
    { unfold pass, Rounded.locked_region. fold kept.
      destruct (Z.ltb_spec (Z.of_nat (length kept)) calls_per_minute);
        simpl; split; try done; lia. }
    split_and!.
    + apply dropwhile_suffix.
    + destruct (dropwhile_split (Rounded.expired fsub now) q)
        as (dropped & Hq & Hdropped).
      fold kept in Hq.
      assert (take (length q - length kept) q = dropped) as ->.
      { rewrite Hq at 2. rewrite Hq at 1. rewrite length_app.
        replace (length dropped + length kept - length kept)%nat
          with (length dropped) by lia.
        by rewrite take_app_length. }
      eapply Forall_impl; [exact Hdropped|]. simpl. intros t Ht.
      by apply (expired_sound fsub Hround).
    + done.
    + unfold pass, Rounded.locked_region. fold kept.
      by destruct (Z.of_nat (length kept) <? calls_per_minute).
    + done.
    + intros Hok%Hpass. lia.
    + intros Hq.
      pose proof (kept_younger fsub Hround now q Hq) as Hyoung.
      fold kept in Hyoung. split; [done|].
      intros Hfew. apply Hpass. lia.
  - intros args fuel w <- pass. simpl. unfold pass.
    by destruct (Rounded.locked_region fsub (arg_calls_per_minute args)
                   (clock w) (call_timestamps w)) as [[|] q].
  - intros args fuel w <- Hone Hpast Hfuel.
    apply (rounded_wait_within fsub Hround args 301 Hone);
      [|unfold polls_enough in Hfuel; lia].
    eapply Forall_impl; [exact Hpast|]. simpl. intros t Ht.
    pose proof ulp60_small as [_ Hsmall].
    assert (Z.of_nat 301 # 5 == 301 # 5)%Q by reflexivity. lra.
  - intros args fuel w w' <-. apply rounded_wait_is_run.
Qed.

Lemma limiter_window_witness :
  ((∀ t, Z.of_nat (Limiter.in_window t
                     (Rounded.admitted Rounded.fsub47 1 sample_polls)) <= 1)
   ∧ StronglySorted Qle (Rounded.run Rounded.fsub47 1 sample_polls []).2)
  ∧ ∃ w' (j : nat),
      Rounded.wait_for_slot Rounded.fsub47 one_per_minute polls_enough
        (set_call_timestamps [0%Q] (initial_world 30)) = Some w'
      ∧ (j <= 301)%nat
      ∧ (clock w' == 30 + (Z.of_nat j # 5))%Q
      ∧ events w' = replicate j (EvSleep (1 # 5)) ++ [EvSlot (clock w')]
      ∧ last (call_timestamps w') = Some (clock w').
Proof.
  destruct (limiter_window Rounded.fsub47 1 fsub47_rounded ltac:(lia))
    as (Hsafe & _ & _ & Hlive & _).
  split.
  - apply Hsafe. repeat constructor; by vm_compute.
  - destruct (Hlive one_per_minute polls_enough
                (set_call_timestamps [0%Q] (initial_world 30)))
      as (w' & j & Hrun & Hj & Hclock & Hev & Hlast & _).
    + reflexivity.
    + lia.
    + unfold deque_past. simpl. constructor; [by vm_compute|constructor].
    + done.
    + exists w', j.
      split; [exact Hrun|]. split; [exact Hj|]. split; [exact Hclock|].
      split; [exact Hev|exact Hlast].
Defined.

(** The doubles nearest to 60.1 and to 0.1 are more than 60 apart, by less
    than the step to the next double: the machine computes their difference
    as 60, so that a pass at the first keeps the second, where the exact
    subtraction would evict it; a fifth of a second later both evict it. *)
Example limiter_rounding :
  Qle_bool (double_60_1 - double_0_1) 60 = false
  ∧ Qred (Rounded.fsub47 double_60_1 double_0_1) = 60%Q
  ∧ Rounded.locked_region Rounded.fsub47 1 double_60_1 [double_0_1]
    = (false, [double_0_1])
  ∧ Limiter.locked_region 1 double_60_1 [double_0_1]
    = (true, [double_60_1])
  ∧ Rounded.locked_region Rounded.fsub47 1 (double_60_1 + (1 # 5))
                          [double_0_1]
    = (true, [(double_60_1 + (1 # 5))%Q]).
Proof. by vm_compute. Qed.

(** ** The slices and the batches *)

Section Slices.

Context {A : Type}.
Implicit Types (l : list A).

Lemma slice_from_start l (s : Z) :
  0 <= s → Py.slice l (Some s) None = drop (Z.to_nat s) l.
Proof.
  intros Hs. unfold Py.slice, Py.clamp. simpl.
  destruct (Z.ltb_spec s 0); [lia|].
  rewrite take_ge by (rewrite length_drop; lia).
  destruct (Z.le_gt_cases s (Z.of_nat (length l))).
  - by rewrite Z.min_l by lia.
  - rewrite Z.min_r by lia. by rewrite !drop_ge by lia.
Qed.

Lemma slice_to_limit l (m : Z) :
  0 <= m → Py.slice l None (Some m) = take (Z.to_nat m) l.
Proof.
  intros Hm. unfold Py.slice, Py.clamp. simpl. rewrite drop_0, Z.sub_0_r.
  destruct (Z.ltb_spec m 0); [lia|].
  destruct (Z.le_gt_cases m (Z.of_nat (length l))).
  - by rewrite Z.min_l by lia.
  - rewrite Z.min_r by lia. by rewrite !take_ge by lia.
Qed.

Lemma slice_to_prefix l (m : Z) : Py.slice l None (Some m) `prefix_of` l.
Proof. unfold Py.slice. simpl. rewrite drop_0. apply prefix_take. Qed.

(** From a [--start] that is not negative: the first slice drops that many
    lines, and the second keeps a prefix of the rest, the first [m] lines
    for [--max m] with [m >= 1] and all of them without [--max]. *)
Lemma load_lines_from_start (args : Args) l :
  0 <= arg_start args →
  let rest := drop (Z.to_nat (arg_start args)) l in
  load_lines args l `prefix_of` rest
  ∧ (arg_max args = None → load_lines args l = rest)
  ∧ (∀ m, arg_max args = Some m → 1 <= m →
          load_lines args l = take (Z.to_nat m) rest).
Proof.
  intros Hstart rest. unfold load_lines.
  assert ((if negb (arg_start args =? 0)
           then Py.slice l (Some (arg_start args)) None else l) = rest)
    as ->.
  { unfold rest. destruct (Z.eqb_spec (arg_start args) 0) as [->|Hne]; simpl.
    - by rewrite drop_0.
    - by apply slice_from_start. }
  split_and!.
  - destruct (arg_max args) as [m|]; [|done].
    destruct (negb (m =? 0)); [apply slice_to_prefix|done].
  - by intros ->.
  - intros m -> Hm. destruct (Z.eqb_spec m 0); [lia|]. simpl.
    apply slice_to_limit. lia.
Qed.

End Slices.

(** C3. For a batch size [B >= 1], any [--start] and [--max], and input
    lines of which those left by the two slices all decode: with [N] the
    number of lines left, batch building gives [ceil(N / B)] batches; batch
    [i] has start index [start + i * B] and holds the records of lines
    [i * B] to [i * B + B] of the sliced input, at least one; the batches
    in order concatenate to the records of the sliced input; and for a
    [--start] that is not negative the start index of a batch is the place
    in the input file of its first line. The slices: a [--start] that is
    not negative drops that many leading lines, then [--max m] with
    [m >= 1] keeps the first [m] of the rest, and no [--max] keeps them
    all. A line left by the slices that does not decode makes batch
    building raise. 25 lines [A] to [Y] in batches of 10 give [A] to [J]
    at index 0, [K] to [T] at 10 and [U] to [Y] at 20; with
    [--start 5 --max 12] they give [F] to [O] at index 5 and [P], [Q] at
    15. *)
Theorem build_batches_partition :
  (∀ (args : Args) (lines : list Row),
     let sliced := load_lines args lines in
     let size := arg_batch_size args in
     1 <= size →
     Forall (fun row => is_ok (paper_of_row row) = true) sliced →
     ∃ batches recs,
       build_batches args sliced = Ok batches
       ∧ traverse paper_of_row sliced = Ok recs
       ∧ id <$> recs = row_id <$> sliced
       ∧ Z.of_nat (length batches) = ceil_div (Z.of_nat (length sliced)) size
       ∧ (∀ (i : nat) (b : Batch), batches !! i = Some b →
            b.1 = arg_start args + Z.of_nat i * size
            ∧ b.2 = take (Z.to_nat size)
                         (drop (Z.to_nat (Z.of_nat i * size)) recs)
            ∧ b.2 ≠ [])
       ∧ concat (snd <$> batches) = recs
       ∧ (0 <= arg_start args →
          ∀ (i : nat) (b : Batch), batches !! i = Some b →
            ∃ row, lines !! Z.to_nat b.1 = Some row
                   ∧ id <$> head b.2 = Some (row_id row)))
  ∧ (∀ (args : Args) (lines : list Row),
       0 <= arg_start args →
       let rest := drop (Z.to_nat (arg_start args)) lines in
       load_lines args lines `prefix_of` rest
       ∧ (arg_max args = None → load_lines args lines = rest)
       ∧ (∀ m, arg_max args = Some m → 1 <= m →
               load_lines args lines = take (Z.to_nat m) rest))
  ∧ (∀ (args : Args) (lines : list Row),
       1 <= arg_batch_size args →
       Exists (fun row => is_ok (paper_of_row row) = false)
              (load_lines args lines) →
       ∃ e, build_batches args (load_lines args lines) = Raise e)
  ∧ batch_ids (build_batches default_args
                 (load_lines default_args sample_lines))
    = [(0, ["A"; "B"; "C"; "D"; "E"; "F"; "G"; "H"; "I"; "J"]);
       (10, ["K"; "L"; "M"; "N"; "O"; "P"; "Q"; "R"; "S"; "T"]);
       (20, ["U"; "V"; "W"; "X"; "Y"])]
  ∧ batch_ids (build_batches (with_window 5 (Some 12) default_args)
                 (load_lines (with_window 5 (Some 12) default_args)
                             sample_lines))
    = [(5, ["F"; "G"; "H"; "I"; "J"; "K"; "L"; "M"; "N"; "O"]);
       (15, ["P"; "Q"])].
Proof.
  split_and!; [| | |by vm_compute..].
  - intros args lines sliced size Hsize Hrows.
    destruct (build_batches_decoded args sliced Hsize Hrows)
      as (batches & recs & Hbuild & Hrecs & Hids & Hlen & Hshape & Hcat).
    exists batches, recs. split_and!; [done..|].
    intros Hstart i b Hb.
    destruct (Hshape i b Hb) as (Hidx & Hitems & Hne). fold size in Hidx, Hitems.
    destruct (load_lines_from_start args lines Hstart) as ([tail Hrest] & _).
    fold sliced in Hrest.
    set (j := (i * Z.to_nat size)%nat).
    assert (Z.to_nat (Z.of_nat i * size) = j) as Hj by (unfold j; lia).
    rewrite Hj in Hitems.
    destruct (b.2) as [|rec rest'] eqn:Eb; [done|]. simpl.
    assert (recs !! j = Some rec) as Hrec.
    { assert ((rec :: rest') !! 0%nat = Some rec) as H0 by done.
      rewrite Hitems in H0. rewrite lookup_take_lt in H0 by lia.
      by rewrite lookup_drop, Nat.add_0_r in H0. }
    apply traverse_Ok in Hrecs.
    destruct (Forall2_lookup_r _ _ _ _ _ Hrecs Hrec) as (row & Hrow & Hdec).
    exists row. split.
    + assert (drop (Z.to_nat (arg_start args)) lines !! j = Some row) as Hd.
      { rewrite Hrest. by apply lookup_app_l_Some. }
      rewrite lookup_drop in Hd. rewrite <- Hd. f_equal. lia.
    + by rewrite (paper_of_row_id _ _ Hdec).
  - intros args lines Hstart. by apply load_lines_from_start.
  - intros args lines Hsize Hbad.
    destruct (build_batches args (load_lines args lines))
      as [batches|e] eqn:E; [|by exists e].
    exfalso. apply build_batches_inv in E as [E _]; [|done].
    apply traverse_Ok in E. apply Exists_exists in Hbad as (row & Hin & Hrow).
    apply list_elem_of_lookup in Hin as [i Hi].
    destruct (Forall2_lookup_l _ _ _ _ _ E Hi) as (rec & _ & Hrec).
    by rewrite Hrec in Hrow.
Qed.

Lemma build_batches_partition_witness :
  ∃ batches recs,
    build_batches (with_window 5 (Some 12) default_args)
      (load_lines (with_window 5 (Some 12) default_args) sample_lines)
    = Ok batches
    ∧ traverse paper_of_row
        (load_lines (with_window 5 (Some 12) default_args) sample_lines)
      = Ok recs
    ∧ Z.of_nat (length batches) = 2
    ∧ concat (snd <$> batches) = recs
    ∧ load_lines (with_window 5 (Some 12) default_args) sample_lines
      = take 12 (drop 5 sample_lines)
    ∧ ∀ (i : nat) (b : Batch), batches !! i = Some b →
        ∃ row, sample_lines !! Z.to_nat b.1 = Some row
               ∧ id <$> head b.2 = Some (row_id row).
Proof.
  destruct build_batches_partition as (Hparts & Hslices & _).
  destruct (Hparts (with_window 5 (Some 12) default_args) sample_lines)
    as (batches & recs & Hbuild & Hrecs & _ & Hlen & _ & Hcat & Hplace).
  - simpl. lia.
  - by repeat constructor.
  - destruct (Hslices (with_window 5 (Some 12) default_args) sample_lines)
      as (_ & _ & Hmax); [simpl; lia|].
    exists batches, recs.
    split; [exact Hbuild|]. split; [exact Hrecs|]. split; [exact Hlen|].
    split; [exact Hcat|]. split.
    + apply (Hmax 12); [reflexivity|lia].
    + apply Hplace. simpl. lia.
Defined.

(** A line whose inverted index lists a word and no position: the 26
    lines give no batch at all, where the count would be 3. *)
Lemma build_batches_undecoded_line :
  build_batches default_args
    (load_lines default_args (sample_lines ++ [row_without_position]))
  = Raise ValueError
  ∧ ceil_div
      (Z.of_nat (length (load_lines default_args
                           (sample_lines ++ [row_without_position])))) 10
    = 3
  ∧ ¬ ∃ batches,
        build_batches default_args
          (load_lines default_args (sample_lines ++ [row_without_position]))
        = Ok batches
        ∧ Z.of_nat (length batches) = 3.
Proof.
  split_and!; [by vm_compute..|]. by intros (batches & [=] & _).
Qed.


(** ** The kinds of failed attempt *)

Section FailureKinds.

Variable json_loads : string → option json.
Variable post : Z → Z → nat → PostReply.

(** What the call returns or raises, by the response it reads. *)
Lemma reply_final (b k : Z) :
  reply json_loads post b k
  = match final_reply post b k with
    | PostRaises msg => Raise (RequestException msg)
    | PostResponse status_code body => read_response json_loads status_code body
    end.
Proof.
  unfold reply, call_openrouter, final_reply.
  destruct (post b k 0%nat) as [msg|status body]; [done|].
  destruct (status =? 429); [|done]. by destruct (post b k 1%nat).
Qed.

Lemma read_response_content (status_code : Z) (body : string) :
  read_response json_loads status_code body
  = _ ← raise_for_status status_code;
    data ← from_option Ok (Raise JSONDecodeError) (json_loads body);
    content_of data.
Proof. done. Qed.

Lemma raise_for_status_Raise (status_code : Z) :
  (∃ e, raise_for_status status_code = Raise e) ↔ 400 <= status_code < 600.
Proof.
  unfold raise_for_status.
  destruct (Z.leb_spec 400 status_code), (Z.ltb_spec status_code 600); simpl;
    split; try lia; try (by intros [e [=]]); by eexists.
Qed.

(** An attempt fails exactly when the response it reads is of one of the
    kinds of failure. *)
Lemma attempt_fails_failure (b k : Z) :
  attempt_fails json_loads post b k = true
  ↔ failure json_loads (final_reply post b k).
Proof.
  unfold attempt_fails, attempt_parsed. rewrite reply_final.
  destruct (final_reply post b k) as [msg|status body].
  { split; [intros _; constructor|done]. }
  rewrite read_response_content.
  destruct (raise_for_status status) as [[]|e] eqn:Hstatus; csimpl.
  2:{ split; [intros _|done]. apply error_status.
      apply raise_for_status_Raise. by exists e. }
  assert (¬ 400 <= status < 600) as Hok.
  { intros [e He]%raise_for_status_Raise. congruence. }
  destruct (json_loads body) as [data|] eqn:Hbody; csimpl.
  2:{ split; [intros _|done]. by apply undecodable_body. }
  destruct (content_of data) as [v|e] eqn:Hcontent; csimpl.
  2:{ split; [intros _|done]. by eapply malformed_body. }
  split.
  - intros Hfail. eapply unparsable_content; [done..|].
    intros text ->. simpl in Hfail.
    by destruct (parse_model_json json_loads text).
  - intros Hkind. inversion Hkind as [|? ? Hst|? ? Hnone|? ? d e Hd He
                                       |? ? d v' Hd Hv Htext]; subst.
    + done.
    + congruence.
    + congruence.
    + assert (d = data) as -> by congruence.
      assert (v' = v) as -> by congruence.
      destruct v; simpl; try done. by rewrite (Htext _ eq_refl).
Qed.

End FailureKinds.

(** C4. With a cap of at least one call per minute, [process_batch]
    returns after at most [max_retries] attempts. Attempt [k] waits for a
    slot, calls, and after a failure sleeps [1 + k] seconds; it fails
    exactly when the response read - the first or, after a first 429 and
    five seconds, the second - is an exception of the transport, has a
    status from 400 to 599, has a body that is not JSON or lacks the
    content, or has a content that is not a text that parses to a list.
    The loop ends before [max_retries] attempts only at a success. When
    every attempt fails, the record written has [model_parsed] null and as
    [model_raw] the last raw response captured, or the last error text when
    no response was captured or the last one is empty; and the pool goes
    on: whatever the replies, every batch handed to it writes its record.
    With three retries that all fail in the transport, [model_raw] is the
    text of the third error. *)
Theorem process_batch_retries
    (json_loads : string → option json) (str_exn : exn → string)
    (post : Z → Z → nat → PostReply) (args : Args)
    (fuel : nat) (batch : Batch) (w : World) :
  1 <= arg_calls_per_minute args → (polls_enough <= fuel)%nat →
  deque_past w →
  let retries := Z.to_nat (arg_max_retries args) in
  (∃ w' turns r,
     process_batch json_loads str_exn post args fuel batch w
     = Some (Z.of_nat (length batch.2), w')
     ∧ events w' = events w ++ concat turns ++ [EvWrite r]
     ∧ (length turns <= retries)%nat
     ∧ Forall2 (turn_events json_loads post batch.1)
               (first_attempts (length turns)) turns
     ∧ ((length turns < retries)%nat →
        attempt_fails json_loads post batch.1 (Z.of_nat (length turns))
        = false)
     ∧ (Forall (fun k => attempt_fails json_loads post batch.1 k = true)
               (first_attempts retries) →
        length turns = retries
        ∧ model_parsed r = None
        ∧ model_raw r
          = raw_after_failures
              (last_captured json_loads post batch.1 (first_attempts retries))
              (last_error json_loads str_exn post batch.1
                          (first_attempts retries)))
     ∧ (arg_max_retries args = 3 →
        ∀ msg : Z → string,
          (∀ k, 1 <= k <= 3 → post batch.1 k 0%nat = PostRaises (msg k)) →
          length turns = 3%nat
          ∧ model_parsed r = None
          ∧ model_raw r
            = JStr ("exception: " +:+ str_exn (RequestException (msg 3)))))
  ∧ (∀ k, attempt_fails json_loads post batch.1 k = true
          ↔ failure json_loads (final_reply post batch.1 k))
  ∧ (∀ (batches : list Batch) (total : Z),
       ∃ total' w' rs,
         dispatch json_loads str_exn post args fuel batches total w
         = Some (total', w')
         ∧ out_f w' = out_f w ++ rs
         ∧ length rs = length batches).
Proof.
  intros Hcap Hfuel Hpast retries. split_and!.
  2:{ intros k. apply attempt_fails_failure. }
  2:{ intros batches total.
      destruct (dispatch_spec json_loads str_exn post args Hcap fuel batches
                  Hfuel total w Hpast)
        as (w' & evs & Hrun & Hev & _ & Hrecs & _).
      eexists _, w', (omap written evs). split_and!; [done| |].
      - unfold out_f. by rewrite Hev, omap_app.
      - by apply Forall2_length in Hrecs. }
  destruct (process_batch_spec json_loads str_exn post args Hcap fuel batch w
              Hfuel Hpast)
    as (n & st' & w' & turns & Hrun & Hev & _ & Hlen & Hn & Hturns & _ & Hend).
  set (r := make_record batch st') in *. fold retries in Hn, Hend.
  subst n.
  assert (Forall (fun k => attempt_fails json_loads post batch.1 k = true)
                 (first_attempts retries) →
          length turns = retries ∧ model_parsed r = None
          ∧ model_raw r
            = raw_after_failures
                (last_captured json_loads post batch.1 (first_attempts retries))
                (last_error json_loads str_exn post batch.1
                            (first_attempts retries))) as Hfail.
  { intros Hall. destruct Hend as [(Hn' & ? & ?)|(Hpos & obj & Hobj & _)].
    - by rewrite <- Hn'.
    - exfalso. rewrite Forall_lookup in Hall.
      specialize (Hall (pred (length turns)) (Z.of_nat (length turns))).
      rewrite first_attempts_lookup in Hall by lia.
      replace (S (pred (length turns))) with (length turns) in Hall by lia.
      specialize (Hall eq_refl). unfold attempt_fails in Hall.
      by rewrite Hobj in Hall. }
  exists w', turns, r.
  split_and!; [done|done|done|done| |done|].
  - intros Hlt. destruct Hend as [(Hn' & _)|(_ & obj & Hobj & _)]; [lia|].
    unfold attempt_fails. by rewrite Hobj.
  - intros Hthree msg Hpost.
    assert (∀ k, 1 <= k <= 3 →
              reply json_loads post batch.1 k
              = Raise (RequestException (msg k))) as Hreply.
    { intros k Hk. unfold reply, call_openrouter. by rewrite (Hpost k Hk). }
    assert (retries = 3%nat) as HR by (unfold retries; lia).
    rewrite HR in Hfail.
    destruct Hfail as (-> & -> & ->).
    { repeat constructor; unfold attempt_fails, attempt_parsed;
        by rewrite Hreply by lia. }
    split_and!; [done..|].
    unfold last_captured, last_error, captured_raw, error_text. simpl.
    by rewrite !Hreply by lia.
Qed.

Lemma process_batch_retries_witness :
  (∃ w' turns r,
     process_batch TinyJson.loads sample_str_exn always_timeout default_args
                   polls_enough sample_batch (initial_world 0)
     = Some (2, w')
     ∧ events w' = concat turns ++ [EvWrite r]
     ∧ length turns = 3%nat
     ∧ model_parsed r = None
     ∧ model_raw r = JStr "exception: timed out")
  ∧ (∀ k, attempt_fails TinyJson.loads always_timeout 0 k = true
          ↔ failure TinyJson.loads (final_reply always_timeout 0 k)).
Proof.
  destruct (process_batch_retries TinyJson.loads sample_str_exn always_timeout
              default_args polls_enough sample_batch (initial_world 0))
    as ((w' & turns & r & Hrun & Hev & _ & _ & _ & _ & Hthree) & Hkinds & _).
  - simpl. lia.
  - lia.
  - constructor.
  - split; [|exact Hkinds].
    destruct (Hthree eq_refl (fun _ => "timed out")) as (Hlen & Hp & Hr).
    + reflexivity.
    + exists w', turns, r.
      split; [exact Hrun|]. split; [exact Hev|]. split; [exact Hlen|].
      split; [exact Hp|exact Hr].
Defined.

(** A redirect that carries a completion is read like a 200: the first
    attempt succeeds, with no sleep and no second attempt. And with no
    call per minute allowed no record is ever written. *)
Lemma process_batch_redirect :
  attempt_fails TinyJson.loads always_302 0 1 = false
  ∧ events <$> (snd <$> process_batch TinyJson.loads sample_str_exn always_302
                          default_args polls_enough sample_batch
                          (initial_world 0))
    = Some [EvSlot 0; EvPost 0 1;
            EvWrite {| batch_start_index := 0; input_ids := ["A"; "B"];
                       model_raw := JStr "[1]";
                       model_parsed := Some [JInt 1] |}]
  ∧ ∀ fuel,
      process_batch TinyJson.loads sample_str_exn always_timeout no_calls_args
                    fuel sample_batch (initial_world 0)
      = None.
Proof.
  split_and!; [by vm_compute..|].
  intros fuel. unfold process_batch. rewrite attempt_numbers_first. simpl.
  by rewrite wait_for_slot_never.
Qed.

(** The kinds of failure on sample responses: a 500 with a completion, a
    200 whose body is not JSON, a 200 without the content, and a 200 whose
    content is no list all fail; a 200 and a 302 with a completion do
    not. *)
Example failure_samples :
  (fun reply => attempt_fails TinyJson.loads (fun _ _ _ => reply) 0 1)
    <$> [PostResponse 500 completion_body;
         PostResponse 200 "oops";
         PostResponse 200 "{}";
         PostResponse 200
           ("{" +:+ dq +:+ "choices" +:+ dq +:+ ": [{" +:+ dq +:+ "message"
            +:+ dq +:+ ": {" +:+ dq +:+ "content" +:+ dq +:+ ": " +:+ dq
            +:+ "none" +:+ dq +:+ "}}]}");
         PostResponse 200 completion_body;
         PostResponse 302 completion_body]
  = [true; true; true; true; false; false].
Proof. by vm_compute. Qed.

(** ** Waiting among other workers *)

(** Under a cap of one, with the timestamp 0 in the deque: the worker that
    polls from 0.1 on is admitted at 60.1, after 300 sleeps; the worker
    that polls from 0.2 on finds the deque full again, and is admitted at
    120.2, at its 601st poll. *)
Example wait_for_slot_overtaken :
  Qred <$> Limiter.admitted 1 two_waiting = [0; 601 # 10; 601 # 5]%Q
  ∧ Qred <$> worker_polls (1 # 10) 301 !! 300%nat = Some (601 # 10)%Q
  ∧ Qred <$> worker_polls (1 # 5) 601 !! 600%nat = Some (601 # 5)%Q.
Proof. by vm_compute. Qed.
